(** * Maze solving by depth-first, breadth-first and A* search

    A shallow embedding of [dfs.py], [bfs.py], [astar.py] and of the
    functions of [solve_mazes.py] that read a maze file, call the searches
    and write the solution, together with their properties.

    The Python functions work on a list of lists of one-character strings,
    index it with plain subscripts ([maze[n_row][n_col]]) and keep their
    frontier in a Python list (DFS, BFS) or, for A-star, a [heapq] heap.
    The model keeps all of this: coordinates are pairs of unbounded
    integers, list subscripts follow Python's rules (a negative index
    counts from the end of the list, an index outside [-len, len) raises
    [IndexError]), and the [while] loops run on explicit fuel. *)

From stdpp Require Import base numbers list strings gmap.

Open Scope Z_scope.

(** ** Data *)

(** A coordinate is a Python tuple [(row, col)] of integers. *)
Abbreviation coord := (Z * Z)%type.

(** A maze is the result of [convert_to_list]: a list of rows, each a list
    of one-character strings. *)
Abbreviation maze_t := (list (list string)).

(** ** Python list subscripts and the exception they raise *)

Inductive raising (A : Type) : Type :=
  | Value (a : A)
  | IndexError.
Arguments Value {A} a.
Arguments IndexError {A}.

#[global] Instance raising_ret : MRet raising := λ A a, Value a.
#[global] Instance raising_bind : MBind raising := λ A B f m,
  match m with
  | Value a => f a
  | IndexError => IndexError
  end.

#[global] Instance raising_eq_dec {A} `{EqDecision A} : EqDecision (raising A).
Proof. solve_decision. Defined.

(** [l[i]]: a negative [i] is first shifted by [len(l)]; the shifted index
    must then lie in [0, len(l)). *)
Definition getitem {A} (l : list A) (i : Z) : raising A :=
  let n := Z.of_nat (length l) in
  let j := if i <? 0 then i + n else i in
  if (j <? 0) || (n <=? j) then IndexError
  else match l !! Z.to_nat j with
       | Some x => Value x
       | None => IndexError
       end.

(** The test [maze[n_row][n_col] == "-"] of the three neighbour loops. *)
Definition is_dash (maze : maze_t) (nb : coord) : raising bool :=
  row ← getitem maze nb.1;
  cell ← getitem row nb.2;
  mret (String.eqb cell "-").

(** ** Frontier operations *)

(** [l.pop()] on a non-empty list: the last element and the list without it. *)
Definition pop {A} (l : list A) : option (A * list A) :=
  match reverse l with
  | [] => None
  | x :: r => Some (x, reverse r)
  end.

(** [l.pop(0)] on a non-empty list. *)
Definition pop0 {A} (l : list A) : option (A * list A) :=
  match l with
  | [] => None
  | x :: r => Some (x, r)
  end.

(** [l.append(x)]. *)
Definition append {A} (l : list A) (x : A) : list A := l ++ [x].

(** ** Loop control *)

(** What a call produces: the returned pair, or the exception that escapes. *)
Inductive outcome : Type :=
  | Return (path : list coord) (node_count : Z)
  | Raise_IndexError.

#[global] Instance outcome_eq_dec : EqDecision outcome.
Proof. solve_decision. Defined.

(** One pass through a loop body either goes round again or leaves the
    function. *)
Inductive control (St : Type) : Type :=
  | Continue (s : St)
  | Break (o : outcome).
Arguments Continue {St} s.
Arguments Break {St} o.

(** [while]: at most [fuel] passes of [body]; [None] when the fuel runs out
    before the function is left. *)
Fixpoint while {St} (body : St → control St) (fuel : nat) (s : St)
  : option outcome :=
  match fuel with
  | O => None
  | S fuel' =>
      match body s with
      | Break o => Some o
      | Continue s' => while body fuel' s'
      end
  end.

(** The state after [n] complete passes, when the loop is still running. *)
Fixpoint iter {St} (body : St → control St) (n : nat) (s : St) : option St :=
  match n with
  | O => Some s
  | S n' =>
      match body s with
      | Break _ => None
      | Continue s' => iter body n' s'
      end
  end.

(** The local variables of a search: the frontier ([stack], [queue] or
    [heap]), the [visited] set and [node_count]. *)
Record search_state (E : Type) : Type := SearchState {
  frontier : list E;
  visited : gset coord;
  node_count : Z
}.
Arguments SearchState {E} _ _ _.
Arguments frontier {E} _.
Arguments visited {E} _.
Arguments node_count {E} _.

(** ** dfs.py *)

(** [neighbors = [(row+1, col), (row-1, col), (row, col+1), (row, col-1)]] *)
Definition neighbors (node : coord) : list coord :=
  let '(row, col) := node in
  [(row + 1, col); (row - 1, col); (row, col + 1); (row, col - 1)].

(** The [for neighbor in neighbors] loop of [dfs_algorithm]. *)
Fixpoint dfs_for (maze : maze_t) (path : list coord) (nbs : list coord)
    (stack : list (coord * list coord)) : raising (list (coord * list coord)) :=
  match nbs with
  | [] => Value stack
  | neighbor :: nbs' =>
      valid ← is_dash maze neighbor;
      if (valid : bool)
      then dfs_for maze path nbs' (append stack (neighbor, path ++ [neighbor]))
      else dfs_for maze path nbs' stack
  end.

(** The body of [while stack:]. *)
Definition dfs_body (maze : maze_t) (end_ : coord)
    (s : search_state (coord * list coord)) : control (search_state (coord * list coord)) :=
  match pop (frontier s) with
  | None => Break (Return [] (node_count s))
  | Some ((node, path), stack) =>
      if decide (node = end_) then Break (Return path (node_count s))
      else if decide (node ∈ visited s) then
        Continue (SearchState stack (visited s) (node_count s))
      else
        match dfs_for maze path (neighbors node) stack with
        | IndexError => Break Raise_IndexError
        | Value stack' =>
            Continue (SearchState stack' ({[node]} ∪ visited s) (node_count s + 1))
        end
  end.

Definition dfs_init (start : coord) : search_state (coord * list coord) :=
  SearchState [(start, [start])] ∅ 0.

Definition dfs_algorithm (fuel : nat) (maze : maze_t) (start end_ : coord)
  : option outcome :=
  while (dfs_body maze end_) fuel (dfs_init start).

(** ** bfs.py *)

(** The [for neighbor in neighbors] loop of [bfs_algorithm]; [visited]
    already holds the node being expanded. *)
Fixpoint bfs_for (maze : maze_t) (visited : gset coord) (path : list coord)
    (nbs : list coord) (queue : list (coord * list coord))
  : raising (list (coord * list coord)) :=
  match nbs with
  | [] => Value queue
  | neighbor :: nbs' =>
      valid ← is_dash maze neighbor;
      if (valid : bool) && bool_decide (neighbor ∉ visited)
      then bfs_for maze visited path nbs' (append queue (neighbor, path ++ [neighbor]))
      else bfs_for maze visited path nbs' queue
  end.

(** The body of [while queue:]. *)
Definition bfs_body (maze : maze_t) (end_ : coord)
    (s : search_state (coord * list coord)) : control (search_state (coord * list coord)) :=
  match pop0 (frontier s) with
  | None => Break (Return [] (node_count s))
  | Some ((node, path), queue) =>
      if decide (node = end_) then Break (Return path (node_count s))
      else if decide (node ∈ visited s) then
        Continue (SearchState queue (visited s) (node_count s))
      else
        let visited' := {[node]} ∪ visited s in
        match bfs_for maze visited' path (neighbors node) queue with
        | IndexError => Break Raise_IndexError
        | Value queue' =>
            Continue (SearchState queue' visited' (node_count s + 1))
        end
  end.

Definition bfs_init (start : coord) : search_state (coord * list coord) :=
  SearchState [(start, [start])] ∅ 0.

Definition bfs_algorithm (fuel : nat) (maze : maze_t) (start end_ : coord)
  : option outcome :=
  while (bfs_body maze end_) fuel (bfs_init start).

(** ** astar.py *)

(** [abs(node[0] - end[0]) + abs(node[1] - end[1])] *)
Definition heuristic (end_ node : coord) : Z :=
  Z.abs (node.1 - end_.1) + Z.abs (node.2 - end_.2).

(** A heap entry [(priority, cost, node, path)]. *)
Abbreviation entry := (Z * Z * coord * list coord)%type.

Definition priority (e : entry) : Z := e.1.1.1.
Definition cost (e : entry) : Z := e.1.1.2.
Definition entry_node (e : entry) : coord := e.1.2.
Definition entry_path (e : entry) : list coord := e.2.

(** Python orders tuples and lists lexicographically. *)
Definition coord_ltb (a b : coord) : bool :=
  (a.1 <? b.1) || ((a.1 =? b.1) && (a.2 <? b.2)).

Fixpoint path_ltb (p q : list coord) : bool :=
  match p, q with
  | _, [] => false
  | [], _ :: _ => true
  | a :: p', b :: q' =>
      coord_ltb a b || (bool_decide (a = b) && path_ltb p' q')
  end.

Definition entry_ltb (e1 e2 : entry) : bool :=
  (priority e1 <? priority e2)
  || ((priority e1 =? priority e2)
      && ((cost e1 <? cost e2)
          || ((cost e1 =? cost e2)
              && (coord_ltb (entry_node e1) (entry_node e2)
                  || (bool_decide (entry_node e1 = entry_node e2)
                      && path_ltb (entry_path e1) (entry_path e2)))))).

(** [heapq] keeps a binary heap in a list; [heappop] returns its least
    entry and [heappush] adds one.  The order on entries is total, so the
    entry popped depends on the contents of the heap only, not on the
    layout of the list: the model keeps the contents in insertion order
    and pops the least of them. *)
Fixpoint least (e : entry) (h : list entry) : entry :=
  match h with
  | [] => e
  | x :: h' => if entry_ltb x e then least x h' else least e h'
  end.

Fixpoint remove_one (e : entry) (h : list entry) : list entry :=
  match h with
  | [] => []
  | x :: h' => if decide (x = e) then h' else x :: remove_one e h'
  end.

Definition heappop (h : list entry) : option (entry * list entry) :=
  match h with
  | [] => None
  | x :: h' => let m := least x h' in Some (m, remove_one m h)
  end.

Definition heappush (h : list entry) (e : entry) : list entry := h ++ [e].

(** [neighbors = [(row-1, col), (row+1, col), (row, col-1), (row, col+1)]] *)
Definition a_star_neighbors (node : coord) : list coord :=
  let '(row, col) := node in
  [(row - 1, col); (row + 1, col); (row, col - 1); (row, col + 1)].

(** The [for neighbor in neighbors] loop of [a_star_algorithm]. *)
Fixpoint a_star_for (maze : maze_t) (end_ : coord) (cost : Z)
    (path : list coord) (nbs : list coord) (heap : list entry)
  : raising (list entry) :=
  match nbs with
  | [] => Value heap
  | neighbor :: nbs' =>
      valid ← is_dash maze neighbor;
      if (valid : bool)
      then a_star_for maze end_ cost path nbs'
             (heappush heap (cost + 1 + heuristic end_ neighbor, cost + 1,
                             neighbor, path ++ [neighbor]))
      else a_star_for maze end_ cost path nbs' heap
  end.

(** The body of [while heap:]. *)
Definition a_star_body (maze : maze_t) (end_ : coord)
    (s : search_state entry) : control (search_state entry) :=
  match heappop (frontier s) with
  | None => Break (Return [] (node_count s))
  | Some ((_, cost, node, path), heap) =>
      if decide (node = end_) then Break (Return path (node_count s))
      else if decide (node ∈ visited s) then
        Continue (SearchState heap (visited s) (node_count s))
      else
        match a_star_for maze end_ cost path (a_star_neighbors node) heap with
        | IndexError => Break Raise_IndexError
        | Value heap' =>
            Continue (SearchState heap' ({[node]} ∪ visited s) (node_count s + 1))
        end
  end.

Definition a_star_init (start end_ : coord) : search_state entry :=
  SearchState [(heuristic end_ start, 0, start, [start])] ∅ 0.

Definition a_star_algorithm (fuel : nat) (maze : maze_t) (start end_ : coord)
  : option outcome :=
  while (a_star_body maze end_) fuel (a_star_init start end_).

(** ** solve_mazes.py: the start and end handed to the searches *)

(** [row.index("-")]: position of the first ["-"], if any. *)
Fixpoint index_dash (row : list string) : option Z :=
  match row with
  | [] => None
  | c :: row' =>
      if String.eqb c "-" then Some 0 else Z.succ <$> index_dash row'
  end.

(** [start = (0, maze[0].index("-"))] *)
Definition maze_start (maze : maze_t) : option coord :=
  row ← head maze; col ← index_dash row; Some (0, col).

(** [end = (len(maze)-1, maze[-1].index("-"))] *)
Definition maze_end (maze : maze_t) : option coord :=
  row ← last maze; col ← index_dash row; Some (Z.of_nat (length maze) - 1, col).

(** ** solve_mazes.py: text *)

(** A Python [str] is the sequence of its code points.  The cells of a maze
    are one-character strings; [chr] makes such a string from a code point
    below 256 and [str_of] reads a string as a [str]. *)
Abbreviation str := (list Z).

Definition str_of (s : string) : str :=
  (λ c, Z.of_N (Ascii.N_of_ascii c)) <$> String.list_ascii_of_string s.

(** [ord(c)] of a one-character string. *)
Definition ord (c : string) : Z := default 0 (head (str_of c)).

Definition chr (n : Z) : string := String (Ascii.ascii_of_N (Z.to_N n)) EmptyString.

(** The newline character, ['\n']. *)
Definition newline : Z := 10.

(** [c.isspace()]: the characters that [strip()] removes. *)
Definition isspace (c : Z) : bool :=
  bool_decide (c ∈ [9; 10; 11; 12; 13; 28; 29; 30; 31; 32; 133; 160; 5760;
                    8192; 8193; 8194; 8195; 8196; 8197; 8198; 8199; 8200; 8201; 8202;
                    8232; 8233; 8239; 8287; 12288]).

(** [line.replace(' ', '')] *)
Definition replace_spaces (line : str) : str := filter (λ c, c ≠ ord " ") line.

Fixpoint lstrip (s : str) : str :=
  match s with
  | c :: s' => if isspace c then lstrip s' else s
  | [] => []
  end.

Definition rstrip (s : str) : str := reverse (lstrip (reverse s)).

(** [s.strip()] *)
Definition strip (s : str) : str := rstrip (lstrip s).

(** ** solve_mazes.py: [read_file]

    The file system is not modelled: [read_file] is given the text of the
    file as Python's text layer hands it over, decoded and with every line
    ending turned into ['\n'].  [readlines] cuts it after each ['\n']. *)
Fixpoint readlines (text : str) (line : str) : list str :=
  match text with
  | [] => match line with [] => [] | _ => [line] end
  | c :: text' =>
      if decide (c = newline) then (line ++ [c]) :: readlines text' []
      else readlines text' (line ++ [c])
  end.

Definition read_file (text : str) : list str := readlines text [].

(** ** solve_mazes.py: [convert_to_list] *)

(** The loop [for char in line.replace(' ', '').strip()]; [None] when a
    character is neither ["#"] nor ["-"]. *)
Fixpoint convert_chars (chars : str) (row : list string) : option (list string) :=
  match chars with
  | [] => Some row
  | char :: chars' =>
      if bool_decide (char ∈ [ord "#"; ord "-"])
      then convert_chars chars' (append row (chr char))
      else None
  end.

(** What a call of [convert_to_list] comes to.  On a character that is
    neither ["#"] nor ["-"] the function prints "Maze contains invalid
    characters" and calls [main()] from inside its loop; [main] has no
    [return] and its last statement is [sys.exit()], so the call of
    [convert_to_list] yields no maze: [Restart]. *)
Inductive conversion : Type :=
  | Converted (maze : maze_t)
  | Restart.

#[global] Instance conversion_eq_dec : EqDecision conversion.
Proof. solve_decision. Defined.

(** The loop [for line in maze_lines]. *)
Fixpoint convert_lines (maze_lines : list str) (maze : maze_t) : conversion :=
  match maze_lines with
  | [] => Converted maze
  | line :: maze_lines' =>
      match convert_chars (strip (replace_spaces line)) [] with
      | None => Restart
      | Some row =>
          convert_lines maze_lines'
            (match row with [] => maze | _ :: _ => append maze row end)
      end
  end.

Definition convert_to_list (maze_lines : list str) : conversion :=
  convert_lines maze_lines [].

(** ** solve_mazes.py: [solve_maze] *)

Inductive exception : Type :=
  | Index_Error
  | Value_Error
  | Unbound_Local_Error.

(** What a call of [solve_maze] produces: the path and the number of nodes
    explored, or the exception that escapes.  The third component of the
    tuple, the difference of two readings of [process_time()], is left
    out. *)
Inductive result : Type :=
  | Solved (path : list coord) (nodes_explored : Z)
  | Raised (e : exception).

#[global] Instance exception_eq_dec : EqDecision exception.
Proof. solve_decision. Defined.

#[global] Instance result_eq_dec : EqDecision result.
Proof. solve_decision. Defined.

Definition result_of (o : outcome) : result :=
  match o with
  | Return path nodes_explored => Solved path nodes_explored
  | Raise_IndexError => Raised Index_Error
  end.

(** [maze[0]] raises [IndexError] on an empty maze and [row.index("-")]
    raises [ValueError] on a row without ["-"]; an [algorithm] other than
    the three names leaves [path] unbound at the [return]. *)
Definition solve_maze (fuel : nat) (maze : maze_t) (algorithm : string)
  : option result :=
  match getitem maze 0 with
  | IndexError => Some (Raised Index_Error)
  | Value first_row =>
      match index_dash first_row with
      | None => Some (Raised Value_Error)
      | Some start_col =>
          let start := (0, start_col) in
          match getitem maze (-1) with
          | IndexError => Some (Raised Index_Error)
          | Value last_row =>
              match index_dash last_row with
              | None => Some (Raised Value_Error)
              | Some end_col =>
                  let end_ := (Z.of_nat (length maze) - 1, end_col) in
                  if String.eqb algorithm "dfs"
                  then result_of <$> dfs_algorithm fuel maze start end_
                  else if String.eqb algorithm "astar"
                  then result_of <$> a_star_algorithm fuel maze start end_
                  else if String.eqb algorithm "bfs"
                  then result_of <$> bfs_algorithm fuel maze start end_
                  else Some (Raised Unbound_Local_Error)
              end
          end
      end
  end.

(** ** solve_mazes.py: [write_path_to_file]

    The text written to the solution file.  [file] is what has been
    written so far; [i] and [j] count as [enumerate] does. *)
Fixpoint write_cells (path : list coord) (i j : Z) (row : list string) (file : str)
  : str :=
  match row with
  | [] => file
  | cell :: row' =>
      write_cells path i (j + 1) row'
        (file ++ if bool_decide ((i, j) ∈ path)
                 then str_of "@ "
                 else str_of cell ++ str_of " ")
  end.

Fixpoint write_rows (path : list coord) (i : Z) (maze : maze_t) (file : str) : str :=
  match maze with
  | [] => file
  | row :: maze' =>
      write_rows path (i + 1) maze' (write_cells path i 0 row file ++ [newline])
  end.

Definition write_path_to_file (maze : maze_t) (path : list coord) : str :=
  write_rows path 0 maze [].

(** * The vocabulary of the properties *)

(** ** The grid as the specification sees it *)

(** The cell at a coordinate inside the grid: both indices non-negative and
    within their list. *)
Definition cell_at (maze : maze_t) (p : coord) : option string :=
  if (0 <=? p.1) && (0 <=? p.2)
  then row ← maze !! Z.to_nat p.1; row !! Z.to_nat p.2
  else None.

(** An Open cell of the grid. *)
Definition is_open (maze : maze_t) (p : coord) : Prop :=
  cell_at maze p = Some "-".

#[global] Instance is_open_dec maze p : Decision (is_open maze p).
Proof. unfold is_open. apply _. Defined.

(** What the code takes for a valid move. *)
Definition code_open (maze : maze_t) (p : coord) : Prop :=
  is_dash maze p = Value true.

#[global] Instance code_open_dec maze p : Decision (code_open maze p).
Proof. unfold code_open. apply _. Defined.

(** Two coordinates that differ by exactly one unit in exactly one axis. *)
Definition adjacent (a b : coord) : Prop :=
  (a.1 = b.1 ∧ Z.abs (a.2 - b.2) = 1) ∨ (a.2 = b.2 ∧ Z.abs (a.1 - b.1) = 1).

(** Every pair of consecutive coordinates of a path is adjacent. *)
Fixpoint linked (p : list coord) : Prop :=
  match p with
  | a :: p' =>
      match p' with
      | b :: _ => adjacent a b ∧ linked p'
      | [] => True
      end
  | [] => True
  end.

(** A path from [start] to [end_] through Open cells. *)
Definition valid_path (maze : maze_t) (start end_ : coord) (p : list coord) : Prop :=
  head p = Some start ∧ last p = Some end_ ∧ Forall (is_open maze) p ∧ linked p.

Definition reachable (maze : maze_t) (start end_ : coord) : Prop :=
  ∃ p, valid_path maze start end_ p.

(** Number of moves of a path. *)
Definition edges (p : list coord) : Z := Z.of_nat (length p) - 1.

(** The coordinates inside the grid. *)
Definition grid_coords (maze : maze_t) : list coord :=
  r ← seqZ 0 (Z.of_nat (length maze));
  c ← seqZ 0 (Z.of_nat (length (default [] (maze !! Z.to_nat r))));
  [(r, c)].

(** [guarded maze end_]: on this grid the unguarded subscript behaves like a
    bounds-checked test wherever a search can use it, that is, for every
    neighbour of an Open cell other than [end_] the probe raises nothing
    and answers whether the neighbour is an Open cell of the grid. *)
Definition guarded (maze : maze_t) (end_ : coord) : bool :=
  forallb (λ p,
    if bool_decide (is_open maze p) && bool_decide (p ≠ end_)
    then forallb (λ nb,
           bool_decide (is_dash maze nb = Value (bool_decide (is_open maze nb))))
           (neighbors p)
    else true) (grid_coords maze).

(** Walks built the way the searches build them, one move appended at a
    time; every coordinate after the first satisfies [ok]. *)
Inductive walk (ok : coord → Prop) (a : coord) : list coord → coord → Prop :=
  | walk_start : walk ok a [a] a
  | walk_step p b c :
      walk ok a p b → adjacent b c → ok c → walk ok a (p ++ [c]) c.

(** ** The three searches as one family *)

(** The [algorithm] argument of [solve_maze]: ["dfs"], ["astar"] or ["bfs"]. *)
Inductive algorithm : Type := dfs | astar | bfs.

(** The call that [solve_maze] makes for each of them. *)
Definition search (alg : algorithm) : nat → maze_t → coord → coord → option outcome :=
  match alg with
  | dfs => dfs_algorithm
  | astar => a_star_algorithm
  | bfs => bfs_algorithm
  end.

(** ** Sample mazes *)

(** A corridor, straight from entrance to exit. *)
Definition corridor : maze_t :=
  [ ["#"; "-"; "#"];
    ["#"; "-"; "#"];
    ["#"; "-"; "#"] ].

(** A maze whose exit is walled off from its entrance. *)
Definition walled_off : maze_t :=
  [ ["-"; "#"; "#"; "-"];
    ["#"; "#"; "#"; "-"];
    ["-"; "-"; "#"; "-"];
    ["#"; "-"; "#"; "#"] ].

(** A maze whose only way from entrance to exit takes eight moves. *)
Definition detour : maze_t :=
  [ ["-"; "-"; "-"; "-"; "#"; "-"];
    ["#"; "#"; "#"; "-"; "#"; "-"];
    ["-"; "-"; "-"; "-"; "#"; "-"];
    ["#"; "-"; "#"; "#"; "#"; "#"] ].

(** A maze with walls all around but for entrance and exit. *)
Definition bend : maze_t :=
  [ ["#"; "-"; "#"; "#"; "#"];
    ["#"; "-"; "-"; "-"; "#"];
    ["#"; "#"; "#"; "-"; "#"];
    ["#"; "#"; "#"; "-"; "#"] ].

(** A maze with two ways of five moves from entrance to exit. *)
Definition room : maze_t :=
  [ ["#"; "-"; "#"; "#"; "#"];
    ["#"; "-"; "-"; "-"; "#"];
    ["#"; "-"; "-"; "-"; "#"];
    ["#"; "#"; "#"; "-"; "#"] ].

(** The grid of three rows and three columns with every cell Open. *)
Definition open_grid : maze_t :=
  [ ["-"; "-"; "-"];
    ["-"; "-"; "-"];
    ["-"; "-"; "-"] ].

(** A maze with walls all around whose exit cannot be reached. *)
Definition sealed : maze_t :=
  [ ["#"; "-"; "#"; "#"; "#"];
    ["#"; "-"; "#"; "-"; "#"];
    ["#"; "#"; "#"; "-"; "#"] ].

(** [reach_within maze k a b]: some walk of at most [k] moves leads from
    [a] to [b] through Open cells. *)
Fixpoint reach_within (maze : maze_t) (k : nat) (a b : coord) : bool :=
  bool_decide (a = b)
  || match k with
     | O => false
     | S k' =>
         bool_decide (is_open maze b)
         && existsb (λ c, reach_within maze k' a c) (neighbors b)
     end.

(** ** The coordinates expanded by a run *)

(** A frontier entry as the pair of its coordinate and its path. *)
Abbreviation node_path := (coord * list coord)%type.

(** The heap of A-star seen as a frontier of (node, path) pairs. *)
Definition entry_view (e : entry) : node_path := (entry_node e, entry_path e).

(** The coordinate that a pass expands, if any: the one it takes off the
    frontier, unless that is [end_] or already in [visited]. *)
Definition expands (end_ : coord) (popped : option node_path) (vis : gset coord)
  : list coord :=
  match popped with
  | Some (node, _) =>
      if decide (node = end_) then []
      else if decide (node ∈ vis) then [] else [node]
  | None => []
  end.

(** The coordinates expanded by the first [n] passes from [s], in order. *)
Fixpoint expanded {E} (body : search_state E → control (search_state E))
    (popped : search_state E → option node_path) (end_ : coord)
    (n : nat) (s : search_state E) : list coord :=
  match n with
  | O => []
  | S n' =>
      match body s with
      | Break _ => []
      | Continue s' =>
          expands end_ (popped s) (visited s) ++ expanded body popped end_ n' s'
      end
  end.

(** What each search takes off its frontier. *)
Definition dfs_popped (s : search_state node_path) : option node_path :=
  fst <$> pop (frontier s).
Definition bfs_popped (s : search_state node_path) : option node_path :=
  fst <$> pop0 (frontier s).
Definition a_star_popped (s : search_state entry) : option node_path :=
  (λ x, entry_view x.1) <$> heappop (frontier s).

(** ** Maze files and mazes *)

(** A maze as [convert_to_list] makes it: every row holds at least one
    cell and every cell is ["#"] or ["-"]. *)
Definition well_formed (maze : maze_t) : Prop :=
  Forall (λ row, row ≠ [] ∧ Forall (λ cell, cell = "#" ∨ cell = "-") row) maze.

#[global] Instance well_formed_dec maze : Decision (well_formed maze).
Proof. unfold well_formed. apply _. Defined.

(** A line that holds nothing but whitespace. *)
Definition blank (line : str) : bool := forallb isspace line.

(** The characters that a row spells. *)
Definition spell (row : list string) : str := mjoin (str_of <$> row).

(** The name under which [solve_maze] knows each search. *)
Definition algorithm_name (alg : algorithm) : string :=
  match alg with
  | dfs => "dfs"
  | astar => "astar"
  | bfs => "bfs"
  end.

(** The Open cells of the grid. *)
Definition open_cells (maze : maze_t) : list coord :=
  filter (is_open maze) (grid_coords maze).

(** How often a character occurs in a text. *)
Definition occurrences (c : Z) (text : str) : nat :=
  length (filter (λ x, x = c) text).

(** A maze with a solid border: at least two rows, all of the length of
    the first; every Open cell keeps off the first and the last column;
    [start] is the only Open cell of the first row and [end_] the only one
    of the last row; and the two lie in different columns. *)
Definition bordered (maze : maze_t) (start end_ : coord) : bool :=
  bool_decide (2 ≤ length maze)%nat
  && forallb (λ row, bool_decide (length row = length (default [] (head maze)))) maze
  && forallb (λ p,
       if bool_decide (is_open maze p)
       then (0 <? p.2) && (p.2 <? Z.of_nat (length (default [] (head maze))) - 1)
            && (if p.1 =? 0 then bool_decide (p = start) else true)
            && (if p.1 =? Z.of_nat (length maze) - 1 then bool_decide (p = end_) else true)
       else true) (grid_coords maze)
  && negb (start.2 =? end_.2).

(** The text of a maze file for the corridor: spaces or none between the
    cells, an empty line, a tab at the end of a line, and no newline at
    the end of the file. *)
Definition corridor_text : str :=
  str_of "# - #" ++ [newline] ++ [newline]
  ++ str_of " #-# " ++ [9; newline] ++ str_of "#  -  #".

(** * The vocabulary of the proofs *)

(** ** One pass of a search, whatever the frontier discipline

    [gstep maze end_ s popped r]: from state [s] a pass that takes the entry
    [popped] off the frontier ends in [r].  The frontier is read up to
    reordering, so that the pass of each of the three searches is an
    instance; [new] is what the [for] loop adds. *)

Inductive gstep (maze : maze_t) (end_ : coord) (s : search_state node_path)
  : option node_path → control (search_state node_path) → Prop :=
  | gstep_exhausted :
      frontier s = [] →
      gstep maze end_ s None (Break (Return [] (node_count s)))
  | gstep_found path rest :
      frontier s ≡ₚ (end_, path) :: rest →
      gstep maze end_ s (Some (end_, path)) (Break (Return path (node_count s)))
  | gstep_stale node path rest s' :
      frontier s ≡ₚ (node, path) :: rest →
      node ≠ end_ → node ∈ visited s →
      frontier s' ≡ₚ rest → visited s' = visited s → node_count s' = node_count s →
      gstep maze end_ s (Some (node, path)) (Continue s')
  | gstep_fault node path rest nb :
      frontier s ≡ₚ (node, path) :: rest →
      node ≠ end_ → node ∉ visited s →
      adjacent node nb → is_dash maze nb = IndexError →
      gstep maze end_ s (Some (node, path)) (Break Raise_IndexError)
  | gstep_expand node path rest new s' :
      frontier s ≡ₚ (node, path) :: rest →
      node ≠ end_ → node ∉ visited s →
      (∀ nb, adjacent node nb → is_dash maze nb ≠ IndexError) →
      frontier s' ≡ₚ rest ++ new →
      (length new ≤ 4)%nat →
      (∀ e, e ∈ new →
         ∃ nb, adjacent node nb ∧ code_open maze nb ∧ e = (nb, path ++ [nb])) →
      (∀ nb, adjacent node nb → code_open maze nb →
         nb ∈ visited s' ∨ (nb, path ++ [nb]) ∈ new) →
      visited s' = {[node]} ∪ visited s → node_count s' = node_count s + 1 →
      gstep maze end_ s (Some (node, path)) (Continue s').

(** The state of [a_star_algorithm] with its heap seen as such a frontier. *)
Definition a_star_view (s : search_state entry) : search_state node_path :=
  SearchState (entry_view <$> frontier s) (visited s) (node_count s).

(** The result of a pass, with the next state seen through [f]. *)
Definition control_map {A B} (f : A → B) (c : control A) : control B :=
  match c with
  | Continue s => Continue (f s)
  | Break o => Break o
  end.

(** ** Invariants of the search loop *)

(** The state every search starts from. *)
Definition ginit (start : coord) : search_state node_path :=
  SearchState [(start, [start])] ∅ 0.

(** What is in the frontier and in [visited] was reached from [start] by
    moves onto coordinates that satisfy [ok]; [node_count] counts
    [visited]. *)
Record sound (start end_ : coord) (ok : coord → Prop) (s : search_state node_path)
  : Prop := Sound {
  sound_frontier : ∀ node path, (node, path) ∈ frontier s → walk ok start path node;
  sound_visited : ∀ v, v ∈ visited s → v ≠ end_ ∧ (v = start ∨ ok v);
  sound_count : node_count s = Z.of_nat (size (visited s))
}.

(** Every move the code accepts from a coordinate it expands leads to a
    coordinate that satisfies [ok]. *)
Definition extends (maze : maze_t) (start end_ : coord) (ok : coord → Prop) : Prop :=
  ∀ node nb, node = start ∨ ok node → node ≠ end_ →
    adjacent node nb → code_open maze nb → ok nb.

(** Nothing the code can move to is lost: the start and the neighbours of
    expanded coordinates are visited or wait in the frontier. *)
Record complete (maze : maze_t) (start : coord) (s : search_state node_path)
  : Prop := Complete {
  complete_start : start ∈ visited s ∨ frontier s = [(start, [start])];
  complete_closed : ∀ v w, v ∈ visited s → adjacent v w → code_open maze w →
    w ∈ visited s ∨ ∃ p, (w, p) ∈ frontier s
}.

(** ** Termination measure *)

(** The coordinates a search can ever hold: [start], and the pairs of
    subscripts that Python accepts for some row of the maze. *)
Definition universe (maze : maze_t) (start : coord) : gset coord :=
  {[start]} ∪ list_to_set (
    r ← seqZ (- Z.of_nat (length maze)) (2 * Z.of_nat (length maze));
    c ← seqZ (- Z.of_nat (max_list (length <$> maze)))
             (2 * Z.of_nat (max_list (length <$> maze)));
    [(r, c)]).

(** Expanding a coordinate uses up one of the universe and adds at most
    four entries; dropping a stale entry shortens the frontier. *)
Definition measure (maze : maze_t) (start : coord) (s : search_state node_path) : nat :=
  5 * (size (universe maze start) - size (visited s)) + length (frontier s).

(** Fuel that is enough for any of the searches on [maze] from [start]. *)
Definition enough_fuel (maze : maze_t) (start : coord) : nat :=
  S (measure maze start (ginit start)).

(** ** Cheapest paths *)

(** The neighbours of an expanded coordinate that still wait in the
    frontier wait there with a path that is one move longer, at most, than
    any walk to that coordinate. *)
Definition closed_cost (maze : maze_t) (start : coord) (s : search_state node_path)
  : Prop :=
  ∀ v w q, v ∈ visited s → walk (code_open maze) start q v →
    adjacent v w → code_open maze w →
    w ∈ visited s ∨ ∃ p, (w, p) ∈ frontier s ∧ edges p ≤ edges q + 1.

(** The entry [(node, path)] is least in the frontier, by moves made plus
    the estimate [h] of the moves left. *)
Definition popped_min (h : coord → Z) (s : search_state node_path)
    (node : coord) (path : list coord) : Prop :=
  ∀ m p, (m, p) ∈ frontier s → edges path + h node ≤ edges p + h m.

(** Every heap entry holds the number of moves of its path as its cost and
    cost plus Manhattan distance as its priority. *)
Definition entries_ok (end_ : coord) (heap : list entry) : Prop :=
  ∀ e, e ∈ heap →
    cost e = edges (entry_path e)
    ∧ priority e = cost e + heuristic end_ (entry_node e).

(** What holds of the state of [a_star_algorithm] at every pass. *)
Definition a_star_inv (maze : maze_t) (start end_ : coord) (s : search_state entry)
  : Prop :=
  sound start end_ (code_open maze) (a_star_view s)
  ∧ complete maze start (a_star_view s)
  ∧ closed_cost maze start (a_star_view s)
  ∧ entries_ok end_ (frontier s).

(** The queue holds paths of some number [k] of moves, followed by paths
    of [k + 1] moves. *)
Definition queue_levels (queue : list node_path) : Prop :=
  ∃ k l1 l2, queue = l1 ++ l2
    ∧ Forall (λ e, edges e.2 = k) l1 ∧ Forall (λ e, edges e.2 = k + 1) l2.

(** What holds of the state of [bfs_algorithm] at every pass. *)
Definition bfs_inv (maze : maze_t) (start end_ : coord) (s : search_state node_path)
  : Prop :=
  sound start end_ (code_open maze) s
  ∧ complete maze start s
  ∧ closed_cost maze start s
  ∧ queue_levels (frontier s).

(** ** Paths on the frontier *)

(** Every path on the frontier ends in the coordinate it is stored with;
    what comes before are distinct coordinates, all of them expanded. *)
Definition simple (s : search_state node_path) : Prop :=
  ∀ node path, (node, path) ∈ frontier s →
    ∃ pre, path = pre ++ [node] ∧ NoDup pre ∧ ∀ x, x ∈ pre → x ∈ visited s.

(** Every coordinate of [visited] was reached from [start] by moves onto
    coordinates that satisfy [ok]. *)
Definition reached (start : coord) (ok : coord → Prop) (s : search_state node_path)
  : Prop :=
  ∀ v, v ∈ visited s → ∃ q, walk ok start q v.

(** ** The text of a solution file *)

(** The character written for the cell [(i, j)]. *)
Definition mark (path : list coord) (i j : Z) (cell : string) : Z :=
  if bool_decide ((i, j) ∈ path) then ord "@" else ord cell.

(** The characters written for the cells of a row, from column [j] on,
    without the spaces between them. *)
Fixpoint marks (path : list coord) (i j : Z) (row : list string) : str :=
  match row with
  | [] => []
  | cell :: row' => mark path i j cell :: marks path i (j + 1) row'
  end.

(** What [write_cells] adds to the file for a row. *)
Fixpoint cells_text (path : list coord) (i j : Z) (row : list string) : str :=
  match row with
  | [] => []
  | cell :: row' =>
      (if bool_decide ((i, j) ∈ path) then str_of "@ " else str_of cell ++ str_of " ")
      ++ cells_text path i (j + 1) row'
  end.

(** The lines that [write_rows] adds to the file. *)
Fixpoint rows_lines (path : list coord) (i : Z) (maze : maze_t) : list str :=
  match maze with
  | [] => []
  | row :: maze' =>
      (cells_text path i 0 row ++ [newline]) :: rows_lines path (i + 1) maze'
  end.

(** The coordinates of the cells of the rows of [maze], when its first row
    has the number [i]. *)
Fixpoint grid_from (i : Z) (maze : maze_t) : list coord :=
  match maze with
  | [] => []
  | row :: maze' =>
      ((λ c, (i, c)) <$> seqZ 0 (Z.of_nat (length row))) ++ grid_from (i + 1) maze'
  end.

(** * Lemmas *)

(** ** The sample mazes as [solve_maze] sees them *)

Example sample_ends :
  (maze_start walled_off = Some (0, 0) ∧ maze_end walled_off = Some (3, 1))
  ∧ (maze_start detour = Some (0, 0) ∧ maze_end detour = Some (3, 1))
  ∧ (maze_start bend = Some (0, 1) ∧ maze_end bend = Some (3, 3))
  ∧ (maze_start room = Some (0, 1) ∧ maze_end room = Some (3, 3)).
Proof. repeat split; reflexivity. Qed.

(** The probes are guarded in [bend] and [room]; in the other samples a
    neighbour of an Open cell lies outside the grid and is read as Open, or
    raises. *)
Example sample_guarded :
  guarded bend (3, 3) = true ∧ guarded room (3, 3) = true
  ∧ guarded corridor (2, 1) = false ∧ guarded walled_off (3, 1) = false
  ∧ guarded detour (3, 1) = false ∧ guarded open_grid (2, 2) = false.
Proof. repeat split; vm_compute; reflexivity. Qed.


Example corridor_ends :
  maze_start corridor = Some (0, 1) ∧ maze_end corridor = Some (2, 1).
Proof. split; reflexivity. Qed.

Example corridor_dfs :
  dfs_algorithm 10 corridor (0, 1) (2, 1) = Some Raise_IndexError.
Proof. vm_compute. reflexivity. Qed.

Example corridor_bfs :
  bfs_algorithm 10 corridor (0, 1) (2, 1) = Some (Return [(0, 1); (1, 1); (2, 1)] 3).
Proof. vm_compute. reflexivity. Qed.

Example corridor_a_star :
  a_star_algorithm 10 corridor (0, 1) (2, 1) = Some (Return [(0, 1); (1, 1); (2, 1)] 2).
Proof. vm_compute. reflexivity. Qed.

(** ** Facts about subscripts *)

Lemma getitem_Value {A} (l : list A) (i : Z) (x : A) :
  getitem l i = Value x ↔
  (0 ≤ i ∧ l !! Z.to_nat i = Some x)
  ∨ (- Z.of_nat (length l) ≤ i < 0 ∧ l !! Z.to_nat (i + Z.of_nat (length l)) = Some x).
Proof.
  unfold getitem. cbv zeta.
  destruct (Z.ltb_spec i 0) as [Hi|Hi].
  - destruct (Z.ltb_spec (i + Z.of_nat (length l)) 0) as [Hj|Hj]; simpl.
    + split; [done|]. intros [[? _]|[? _]]; lia.
    + destruct (Z.leb_spec (Z.of_nat (length l)) (i + Z.of_nat (length l))); [lia|].
      destruct (l !! Z.to_nat (i + Z.of_nat (length l))) as [y|] eqn:E.
      * split; [intros [= ->]; right; split; [lia|done]|].
        intros [[? _]|[_ [= ->]]]; [lia|done].
      * split; [done|]. intros [[? _]|[_ ?]]; [lia|done].
  - destruct (Z.ltb_spec i 0) as [?|_]; [lia|]. simpl.
    destruct (Z.leb_spec (Z.of_nat (length l)) i) as [Hn|Hn].
    + split; [done|]. intros [[_ Hl]|[? _]]; [|lia].
      apply lookup_lt_Some in Hl. lia.
    + destruct (l !! Z.to_nat i) as [y|] eqn:E.
      * split; [intros [= ->]; left; done|].
        intros [[_ [= ->]]|[? _]]; [done|lia].
      * split; [done|]. intros [[_ ?]|[? _]]; [done|lia].
Qed.

Lemma getitem_IndexError {A} (l : list A) (i : Z) :
  getitem l i = IndexError ↔
  i < - Z.of_nat (length l) ∨ Z.of_nat (length l) ≤ i.
Proof.
  unfold getitem. cbv zeta.
  destruct (Z.ltb_spec i 0) as [Hi|Hi].
  - destruct (Z.ltb_spec (i + Z.of_nat (length l)) 0) as [Hj|Hj]; simpl.
    + split; [intros _; left; lia|done].
    + destruct (Z.leb_spec (Z.of_nat (length l)) (i + Z.of_nat (length l))); [lia|].
      destruct (l !! Z.to_nat (i + Z.of_nat (length l))) as [y|] eqn:E.
      * split; [done|lia].
      * apply lookup_ge_None in E. lia.
  - destruct (Z.ltb_spec i 0) as [?|_]; [lia|]. simpl.
    destruct (Z.leb_spec (Z.of_nat (length l)) i) as [Hn|Hn].
    + split; [intros _; right; lia|done].
    + destruct (l !! Z.to_nat i) as [y|] eqn:E.
      * split; [done|lia].
      * apply lookup_ge_None in E. lia.
Qed.

(** An Open cell of the grid is a valid move for the code. *)
Lemma is_open_code_open maze p : is_open maze p → code_open maze p.
Proof.
  unfold is_open, code_open, cell_at, is_dash. destruct p as [r c]; simpl.
  destruct (Z.leb_spec 0 r) as [Hr|]; [|done].
  destruct (Z.leb_spec 0 c) as [Hc|]; [|done]. simpl.
  destruct (maze !! Z.to_nat r) as [row|] eqn:Er; [|done]. simpl. intros Hc'.
  assert (getitem maze r = Value row) as -> by (apply getitem_Value; left; done).
  simpl.
  assert (getitem row c = Value "-"%string) as -> by (apply getitem_Value; left; done).
  done.
Qed.

Lemma elem_of_grid_coords maze p :
  p ∈ grid_coords maze ↔ is_Some (cell_at maze p).
Proof.
  unfold grid_coords, cell_at. destruct p as [r c]; simpl.
  rewrite list_elem_of_bind. split.
  - intros (r' & Hc & Hr). apply elem_of_seqZ in Hr.
    apply list_elem_of_bind in Hc as (c' & Hp & Hc). apply elem_of_seqZ in Hc.
    apply list_elem_of_singleton in Hp as [= -> ->].
    destruct (Z.leb_spec 0 r'); [|lia]. destruct (Z.leb_spec 0 c'); [|lia]. simpl.
    destruct (lookup_lt_is_Some_2 maze (Z.to_nat r')) as [row Hrow]; [lia|].
    rewrite Hrow in Hc |- *. simpl in *.
    apply lookup_lt_is_Some_2. lia.
  - destruct (Z.leb_spec 0 r); [|by intros [? ?]].
    destruct (Z.leb_spec 0 c); [|by intros [? ?]]. simpl.
    destruct (maze !! Z.to_nat r) as [row|] eqn:Hrow; [|by intros [? ?]]. simpl.
    intros Hc. apply lookup_lt_is_Some_1 in Hc.
    apply lookup_lt_Some in Hrow as Hr.
    exists r. split; [|apply elem_of_seqZ; lia].
    apply list_elem_of_bind. exists c. split; [apply list_elem_of_singleton; done|].
    apply elem_of_seqZ. rewrite Hrow. simpl. lia.
Qed.

Lemma guarded_spec maze end_ :
  guarded maze end_ = true →
  ∀ p nb, is_open maze p → p ≠ end_ → nb ∈ neighbors p →
    is_dash maze nb = Value (bool_decide (is_open maze nb)).
Proof.
  unfold guarded. rewrite forallb_forall. intros H p nb Hp Hne Hnb.
  specialize (H p). rewrite <- list_elem_of_In in H.
  assert (p ∈ grid_coords maze) as Hin.
  { apply elem_of_grid_coords. unfold is_open in Hp. rewrite Hp. eauto. }
  specialize (H Hin).
  rewrite (bool_decide_eq_true_2 _ Hp), (bool_decide_eq_true_2 _ Hne) in H.
  simpl in H. rewrite forallb_forall in H.
  specialize (H nb). rewrite <- list_elem_of_In in H.
  apply bool_decide_eq_true_1 in H; done.
Qed.

Lemma elem_of_neighbors node nb : nb ∈ neighbors node ↔ adjacent node nb.
Proof.
  destruct node as [r c], nb as [r' c']. unfold neighbors, adjacent. simpl.
  rewrite !elem_of_cons, elem_of_nil. split.
  - intros [[= -> ->]|[[= -> ->]|[[= -> ->]|[[= -> ->]|[]]]]]; lia.
  - intros [[-> H]|[-> H]].
    + destruct (decide (c' = c + 1)) as [->|]; [tauto|].
      assert (c' = c - 1) as -> by lia. tauto.
    + destruct (decide (r' = r + 1)) as [->|]; [tauto|].
      assert (r' = r - 1) as -> by lia. tauto.
Qed.

Lemma a_star_neighbors_perm node : a_star_neighbors node ≡ₚ neighbors node.
Proof.
  destruct node as [r c]. unfold a_star_neighbors, neighbors.
  rewrite (Permutation_swap (r - 1, c) (r + 1, c)).
  do 2 apply Permutation_skip. apply Permutation_swap.
Qed.

Lemma elem_of_a_star_neighbors node nb :
  nb ∈ a_star_neighbors node ↔ adjacent node nb.
Proof. rewrite a_star_neighbors_perm. apply elem_of_neighbors. Qed.

(** ** Facts about the frontier operations *)

Lemma pop_None {A} (l : list A) : pop l = None ↔ l = [].
Proof.
  unfold pop. destruct (reverse l) as [|x r] eqn:E.
  - split; [intros _|done].
    rewrite <- (reverse_involutive l), E. done.
  - split; [done|]. intros ->. done.
Qed.

Lemma pop_Some {A} (l : list A) (x : A) (r : list A) :
  pop l = Some (x, r) ↔ l = r ++ [x].
Proof.
  unfold pop. destruct (reverse l) as [|y r'] eqn:E.
  - split; [done|]. intros ->. rewrite reverse_snoc in E. done.
  - assert (l = reverse r' ++ [y]) as ->.
    { rewrite <- (reverse_involutive l), E, reverse_cons. done. }
    split.
    + intros [= -> <-]. done.
    + intros H. apply app_inj_tail in H as [-> ->]. done.
Qed.

Lemma least_elem_of e h : least e h ∈ e :: h.
Proof.
  revert e. induction h as [|x h IH]; intros e; simpl.
  - apply list_elem_of_here.
  - destruct (entry_ltb x e).
    + apply list_elem_of_further, IH.
    + specialize (IH e). apply elem_of_cons in IH as [->|IH].
      * apply list_elem_of_here.
      * do 2 apply list_elem_of_further. done.
Qed.

Lemma entry_ltb_priority e1 e2 : entry_ltb e1 e2 = true → priority e1 ≤ priority e2.
Proof.
  unfold entry_ltb. intros H. apply orb_true_iff in H as [H|H].
  - apply Z.ltb_lt in H. lia.
  - apply andb_true_iff in H as [H _]. apply Z.eqb_eq in H. lia.
Qed.

Lemma entry_ltb_false_priority e1 e2 :
  entry_ltb e1 e2 = false → priority e2 ≤ priority e1.
Proof.
  unfold entry_ltb. intros H. apply orb_false_iff in H as [H _].
  apply Z.ltb_ge in H. done.
Qed.

Lemma least_priority_aux e h :
  priority (least e h) ≤ priority e
  ∧ ∀ x, x ∈ h → priority (least e h) ≤ priority x.
Proof.
  revert e. induction h as [|y h IH]; intros e; simpl.
  - split; [done|]. intros x Hx. by apply elem_of_nil in Hx.
  - destruct (entry_ltb y e) eqn:E.
    + apply entry_ltb_priority in E. destruct (IH y) as [H1 H2].
      split; [lia|]. intros x Hx.
      apply elem_of_cons in Hx as [->|Hx]; [done|by apply H2].
    + apply entry_ltb_false_priority in E. destruct (IH e) as [H1 H2].
      split; [done|]. intros x Hx.
      apply elem_of_cons in Hx as [->|Hx]; [lia|by apply H2].
Qed.

(** The entry that [heappop] returns has the least priority of the heap. *)
Lemma least_priority e h x : x ∈ e :: h → priority (least e h) ≤ priority x.
Proof.
  intros Hx. destruct (least_priority_aux e h) as [H1 H2].
  apply elem_of_cons in Hx as [->|Hx]; [done|by apply H2].
Qed.

Lemma remove_one_perm e h : e ∈ h → h ≡ₚ e :: remove_one e h.
Proof.
  induction h as [|x h IH]; intros He; [by apply elem_of_nil in He|].
  simpl. destruct (decide (x = e)) as [->|Hne]; [done|].
  apply elem_of_cons in He as [->|He]; [done|].
  etrans; [|apply Permutation_swap]. apply Permutation_skip, IH. done.
Qed.

Lemma heappop_None h : heappop h = None ↔ h = [].
Proof. destruct h; simpl; split; done. Qed.

Lemma heappop_Some h m h' :
  heappop h = Some (m, h') →
  h ≡ₚ m :: h' ∧ ∀ x, x ∈ h → priority m ≤ priority x.
Proof.
  destruct h as [|x h]; [done|]. unfold heappop. intros [= <- <-]. split.
  - apply remove_one_perm, least_elem_of.
  - intros y. apply least_priority.
Qed.

(** ** Python's order on heap entries is a strict total order

    so the least entry of a heap is determined by what the heap holds, and
    [least] finds it. *)

Lemma coord_ltb_spec (a b : coord) :
  coord_ltb a b = true ↔ a.1 < b.1 ∨ (a.1 = b.1 ∧ a.2 < b.2).
Proof.
  unfold coord_ltb.
  rewrite orb_true_iff, andb_true_iff, Z.ltb_lt, Z.eqb_eq, Z.ltb_lt. done.
Qed.

Lemma coord_ltb_irrefl (a : coord) : coord_ltb a a = false.
Proof.
  apply not_true_is_false. rewrite coord_ltb_spec. lia.
Qed.

Lemma coord_ltb_trans (a b c : coord) :
  coord_ltb a b = true → coord_ltb b c = true → coord_ltb a c = true.
Proof. rewrite !coord_ltb_spec. lia. Qed.

Lemma coord_ltb_total (a b : coord) :
  a ≠ b → coord_ltb a b = true ∨ coord_ltb b a = true.
Proof.
  rewrite !coord_ltb_spec. destruct a as [r c], b as [r' c']. simpl. intros Hne.
  destruct (decide (r = r')) as [->|]; [|lia].
  destruct (decide (c = c')) as [->|]; [done|lia].
Qed.

Lemma path_ltb_irrefl (p : list coord) : path_ltb p p = false.
Proof.
  induction p as [|a p IH]; [done|]. simpl.
  rewrite coord_ltb_irrefl, IH. by rewrite andb_false_r.
Qed.

Lemma path_ltb_trans (p q r : list coord) :
  path_ltb p q = true → path_ltb q r = true → path_ltb p r = true.
Proof.
  revert q r. induction p as [|a p IH]; intros [|b q] [|c r]; simpl; try done.
  rewrite !orb_true_iff, !andb_true_iff, !bool_decide_eq_true.
  intros [Hab|[-> Hpq]] [Hbc|[-> Hqr]].
  - left. by eapply coord_ltb_trans.
  - by left.
  - by left.
  - right. split; [done|]. by eapply IH.
Qed.

Lemma path_ltb_total (p q : list coord) :
  p ≠ q → path_ltb p q = true ∨ path_ltb q p = true.
Proof.
  revert q. induction p as [|a p IH]; intros [|b q] Hne; simpl; try tauto.
  rewrite !orb_true_iff, !andb_true_iff, !bool_decide_eq_true.
  destruct (decide (a = b)) as [->|Hab].
  - destruct (IH q) as [H|H]; [congruence|tauto..].
  - destruct (coord_ltb_total a b Hab); tauto.
Qed.

Lemma entry_ltb_spec (e1 e2 : entry) :
  entry_ltb e1 e2 = true ↔
  priority e1 < priority e2
  ∨ (priority e1 = priority e2
     ∧ (cost e1 < cost e2
        ∨ (cost e1 = cost e2
           ∧ (coord_ltb (entry_node e1) (entry_node e2) = true
              ∨ (entry_node e1 = entry_node e2
                 ∧ path_ltb (entry_path e1) (entry_path e2) = true))))).
Proof.
  unfold entry_ltb.
  repeat (rewrite orb_true_iff || rewrite andb_true_iff).
  rewrite !Z.ltb_lt, !Z.eqb_eq, bool_decide_eq_true.
  done.
Qed.

Lemma entry_ltb_irrefl (e : entry) : entry_ltb e e = false.
Proof.
  apply not_true_is_false. rewrite entry_ltb_spec.
  rewrite coord_ltb_irrefl, path_ltb_irrefl. intros H.
  destruct H as [?|[_ [?|[_ [?|[_ ?]]]]]]; (lia || done).
Qed.

Lemma entry_ltb_trans (e1 e2 e3 : entry) :
  entry_ltb e1 e2 = true → entry_ltb e2 e3 = true → entry_ltb e1 e3 = true.
Proof.
  rewrite !entry_ltb_spec.
  intros [?|[Hf [?|[Hg [Hn|[Hn Hp]]]]]] [?|[Hf' [?|[Hg' [Hn'|[Hn' Hp']]]]]];
    try (left; lia); right; (split; [lia|]); try (left; lia);
    right; (split; [lia|]).
  - left. by eapply coord_ltb_trans.
  - left. by rewrite <- Hn'.
  - left. by rewrite Hn.
  - right. split; [congruence|]. by eapply path_ltb_trans.
Qed.

Lemma entry_ltb_total (e1 e2 : entry) :
  e1 ≠ e2 → entry_ltb e1 e2 = true ∨ entry_ltb e2 e1 = true.
Proof.
  rewrite !entry_ltb_spec.
  destruct e1 as [[[f1 g1] n1] p1], e2 as [[[f2 g2] n2] p2].
  unfold priority, cost, entry_node, entry_path. simpl. intros Hne.
  destruct (Z.lt_total f1 f2) as [?|[->|?]]; [tauto| |tauto].
  destruct (Z.lt_total g1 g2) as [?|[->|?]]; [tauto| |tauto].
  destruct (decide (n1 = n2)) as [->|Hn].
  - destruct (path_ltb_total p1 p2) as [?|?]; [congruence|tauto..].
  - destruct (coord_ltb_total n1 n2 Hn); tauto.
Qed.

(** No entry of the heap is less than the one [least] finds. *)
Lemma least_minimum e h x : x ∈ e :: h → entry_ltb x (least e h) = false.
Proof.
  revert e x. induction h as [|y h IH]; intros e x Hx; simpl.
  - apply list_elem_of_singleton in Hx as ->. apply entry_ltb_irrefl.
  - destruct (entry_ltb y e) eqn:Hye.
    + apply elem_of_cons in Hx as [->|Hx]; [|by apply IH].
      apply not_true_is_false. intros Hlt.
      pose proof (entry_ltb_trans _ _ _ Hye Hlt) as Hy.
      by rewrite (IH y y (list_elem_of_here _ _)) in Hy.
    + apply elem_of_cons in Hx as [->|Hx]; [by apply IH, list_elem_of_here|].
      apply elem_of_cons in Hx as [->|Hx]; [|by apply IH, list_elem_of_further].
      apply not_true_is_false. intros Hlt.
      pose proof (IH e e (list_elem_of_here _ _)) as He.
      destruct (decide (e = y)) as [->|Hne]; [congruence|].
      destruct (entry_ltb_total e y Hne) as [Hey|Hye']; [|congruence].
      by rewrite (entry_ltb_trans _ _ _ Hey Hlt) in He.
Qed.

(** [heappop] returns an entry of the heap that none is less than, and
    leaves the others. *)
Lemma heappop_least h m h' :
  heappop h = Some (m, h') →
  m ∈ h ∧ h ≡ₚ m :: h' ∧ ∀ x, x ∈ h → entry_ltb x m = false.
Proof.
  destruct h as [|x h]; [done|]. unfold heappop. intros [= <- <-].
  split; [apply least_elem_of|]. split.
  - apply remove_one_perm, least_elem_of.
  - intros y. apply least_minimum.
Qed.

(** ** What the three [for] loops add to the frontier *)

Lemma dfs_for_spec maze path nbs stack :
  match dfs_for maze path nbs stack with
  | Value stack' =>
      Forall (λ nb, is_dash maze nb ≠ IndexError) nbs
      ∧ stack' = stack ++ ((λ nb, (nb, path ++ [nb])) <$> filter (code_open maze) nbs)
  | IndexError => Exists (λ nb, is_dash maze nb = IndexError) nbs
  end.
Proof.
  revert stack. induction nbs as [|nb nbs IH]; intros stack; simpl.
  - split; [constructor|]. rewrite app_nil_r. done.
  - rewrite filter_cons.
    destruct (is_dash maze nb) as [[|]|] eqn:E; simpl.
    + specialize (IH (append stack (nb, path ++ [nb]))).
      destruct (dfs_for _ _ _ _); [|by apply Exists_cons_tl].
      destruct IH as [HF ->]. split; [constructor; [congruence|done]|].
      rewrite decide_True by exact E. unfold append. rewrite <- app_assoc. done.
    + specialize (IH stack).
      destruct (dfs_for _ _ _ _); [|by apply Exists_cons_tl].
      destruct IH as [HF ->]. split; [constructor; [congruence|done]|].
      rewrite decide_False by (unfold code_open; congruence). done.
    + apply Exists_cons_hd. done.
Qed.

Lemma bfs_for_spec maze vis path nbs queue :
  match bfs_for maze vis path nbs queue with
  | Value queue' =>
      Forall (λ nb, is_dash maze nb ≠ IndexError) nbs
      ∧ queue' = queue ++ ((λ nb, (nb, path ++ [nb]))
                           <$> filter (λ nb, code_open maze nb ∧ nb ∉ vis) nbs)
  | IndexError => Exists (λ nb, is_dash maze nb = IndexError) nbs
  end.
Proof.
  revert queue. induction nbs as [|nb nbs IH]; intros queue; simpl.
  - split; [constructor|]. rewrite app_nil_r. done.
  - rewrite filter_cons.
    destruct (is_dash maze nb) as [[|]|] eqn:E; simpl.
    + destruct (decide (nb ∉ vis)) as [Hv|Hv].
      * rewrite bool_decide_eq_true_2 by done.
        specialize (IH (append queue (nb, path ++ [nb]))).
        destruct (bfs_for _ _ _ _ _); [|by apply Exists_cons_tl].
        destruct IH as [HF ->]. split; [constructor; [congruence|done]|].
        rewrite decide_True by (split; [exact E|exact Hv]).
        unfold append. rewrite <- app_assoc. done.
      * rewrite bool_decide_eq_false_2 by done.
        specialize (IH queue).
        destruct (bfs_for _ _ _ _ _); [|by apply Exists_cons_tl].
        destruct IH as [HF ->]. split; [constructor; [congruence|done]|].
        rewrite decide_False by tauto. done.
    + specialize (IH queue).
      destruct (bfs_for _ _ _ _ _); [|by apply Exists_cons_tl].
      destruct IH as [HF ->]. split; [constructor; [congruence|done]|].
      rewrite decide_False by (unfold code_open; intros [? _]; congruence). done.
    + apply Exists_cons_hd. done.
Qed.

Lemma a_star_for_spec maze end_ g path nbs heap :
  match a_star_for maze end_ g path nbs heap with
  | Value heap' =>
      Forall (λ nb, is_dash maze nb ≠ IndexError) nbs
      ∧ heap' = heap ++ ((λ nb, (g + 1 + heuristic end_ nb, g + 1, nb, path ++ [nb]))
                         <$> filter (code_open maze) nbs)
  | IndexError => Exists (λ nb, is_dash maze nb = IndexError) nbs
  end.
Proof.
  revert heap. induction nbs as [|nb nbs IH]; intros heap; simpl.
  - split; [constructor|]. rewrite app_nil_r. done.
  - rewrite filter_cons.
    destruct (is_dash maze nb) as [[|]|] eqn:E; simpl.
    + specialize (IH (heappush heap (g + 1 + heuristic end_ nb, g + 1, nb, path ++ [nb]))).
      destruct (a_star_for _ _ _ _ _ _); [|by apply Exists_cons_tl].
      destruct IH as [HF ->]. split; [constructor; [congruence|done]|].
      rewrite decide_True by exact E. unfold heappush. rewrite <- app_assoc. done.
    + specialize (IH heap).
      destruct (a_star_for _ _ _ _ _ _); [|by apply Exists_cons_tl].
      destruct IH as [HF ->]. split; [constructor; [congruence|done]|].
      rewrite decide_False by (unfold code_open; congruence). done.
    + apply Exists_cons_hd. done.
Qed.

Lemma length_filter_neighbors (P : coord → Prop) `{∀ x, Decision (P x)} node :
  (length (filter P (neighbors node)) ≤ 4)%nat.
Proof. etrans; [apply length_filter|]. destruct node. simpl. lia. Qed.

Lemma length_filter_a_star_neighbors (P : coord → Prop) `{∀ x, Decision (P x)} node :
  (length (filter P (a_star_neighbors node)) ≤ 4)%nat.
Proof. etrans; [apply length_filter|]. destruct node. simpl. lia. Qed.

Lemma Exists_neighbors_fault maze node :
  Exists (λ nb, is_dash maze nb = IndexError) (neighbors node) →
  ∃ nb, adjacent node nb ∧ is_dash maze nb = IndexError.
Proof.
  intros (nb & Hin & Hnb)%Exists_exists. exists nb.
  split; [by apply elem_of_neighbors|done].
Qed.

Lemma Forall_neighbors_value maze node :
  Forall (λ nb, is_dash maze nb ≠ IndexError) (neighbors node) →
  ∀ nb, adjacent node nb → is_dash maze nb ≠ IndexError.
Proof.
  intros HF nb Hnb. rewrite Forall_forall in HF.
  apply HF, elem_of_neighbors. done.
Qed.

(** The pass of [dfs_algorithm] is a [gstep]. *)
Lemma dfs_body_gstep maze end_ s :
  gstep maze end_ s (fst <$> pop (frontier s)) (dfs_body maze end_ s).
Proof.
  unfold dfs_body. destruct (pop (frontier s)) as [[[node path] stack]|] eqn:Hpop.
  - apply pop_Some in Hpop. simpl.
    assert (frontier s ≡ₚ (node, path) :: stack) as Hperm.
    { rewrite Hpop. symmetry. apply Permutation_cons_append. }
    destruct (decide (node = end_)) as [->|Hne]; [by eapply gstep_found|].
    destruct (decide (node ∈ visited s)) as [Hv|Hv]; [by eapply gstep_stale|].
    pose proof (dfs_for_spec maze path (neighbors node) stack) as Hfor.
    destruct (dfs_for maze path (neighbors node) stack) as [stack'|].
    + destruct Hfor as [HF ->].
      eapply gstep_expand; simpl; try done.
      * by apply Forall_neighbors_value.
      * rewrite length_fmap. apply length_filter_neighbors.
      * intros e (nb & -> & Hnb)%list_elem_of_fmap.
        apply list_elem_of_filter in Hnb as [Ho Hnb].
        exists nb. split; [by apply elem_of_neighbors|done].
      * intros nb Hadj Ho. right.
        apply list_elem_of_fmap. exists nb. split; [done|].
        apply list_elem_of_filter. split; [done|by apply elem_of_neighbors].
    + apply Exists_neighbors_fault in Hfor as (nb & Hadj & Hnb).
      by eapply gstep_fault.
  - apply pop_None in Hpop. simpl. by apply gstep_exhausted.
Qed.

(** The pass of [bfs_algorithm] is a [gstep]. *)
Lemma bfs_body_gstep maze end_ s :
  gstep maze end_ s (fst <$> pop0 (frontier s)) (bfs_body maze end_ s).
Proof.
  unfold bfs_body. destruct (frontier s) as [|[node path] queue] eqn:Hpop; simpl.
  - by apply gstep_exhausted.
  - assert (frontier s ≡ₚ (node, path) :: queue) as Hperm by (by rewrite Hpop).
    destruct (decide (node = end_)) as [->|Hne]; [by eapply gstep_found|].
    destruct (decide (node ∈ visited s)) as [Hv|Hv]; [by eapply gstep_stale|].
    pose proof (bfs_for_spec maze ({[node]} ∪ visited s) path (neighbors node) queue)
      as Hfor.
    destruct (bfs_for maze ({[node]} ∪ visited s) path (neighbors node) queue)
      as [queue'|].
    + destruct Hfor as [HF ->].
      eapply gstep_expand; simpl; try done.
      * by apply Forall_neighbors_value.
      * rewrite length_fmap. apply length_filter_neighbors.
      * intros e (nb & -> & Hnb)%list_elem_of_fmap.
        apply list_elem_of_filter in Hnb as [[Ho _] Hnb].
        exists nb. split; [by apply elem_of_neighbors|done].
      * intros nb Hadj Ho.
        destruct (decide (nb ∈ ({[node]} ∪ visited s : gset coord))) as [Hin|Hin];
          [by left|right].
        apply list_elem_of_fmap. exists nb. split; [done|].
        apply list_elem_of_filter. split; [done|by apply elem_of_neighbors].
    + apply Exists_neighbors_fault in Hfor as (nb & Hadj & Hnb).
      by eapply gstep_fault.
Qed.

(** The pass of [a_star_algorithm] is a [gstep] on the view of its heap. *)
Lemma a_star_body_gstep maze end_ s :
  gstep maze end_ (a_star_view s)
    ((λ x, entry_view x.1) <$> heappop (frontier s))
    (control_map a_star_view (a_star_body maze end_ s)).
Proof.
  unfold a_star_body.
  destruct (heappop (frontier s)) as [[[[[f g] node] path] heap]|] eqn:Hpop.
  - apply heappop_Some in Hpop as [Hperm _]. simpl.
    assert (frontier (a_star_view s) ≡ₚ (node, path) :: (entry_view <$> heap))
      as Hperm'.
    { simpl. rewrite Hperm. done. }
    unfold entry_view at 1. simpl.
    destruct (decide (node = end_)) as [->|Hne]; [by eapply gstep_found|].
    destruct (decide (node ∈ visited s)) as [Hv|Hv]; [by eapply gstep_stale|].
    pose proof (a_star_for_spec maze end_ g path (a_star_neighbors node) heap) as Hfor.
    destruct (a_star_for maze end_ g path (a_star_neighbors node) heap) as [heap'|].
    + destruct Hfor as [HF ->]. simpl.
      eapply (gstep_expand _ _ _ _ _ _
                ((λ nb, (nb, path ++ [nb])) <$> filter (code_open maze) (a_star_neighbors node)));
        simpl; try done.
      * intros nb Hadj. rewrite Forall_forall in HF.
        apply HF, elem_of_a_star_neighbors. done.
      * rewrite fmap_app, <- list_fmap_compose. done.
      * rewrite length_fmap. apply length_filter_a_star_neighbors.
      * intros e (nb & -> & Hnb)%list_elem_of_fmap.
        apply list_elem_of_filter in Hnb as [Ho Hnb].
        exists nb. split; [by apply elem_of_a_star_neighbors|done].
      * intros nb Hadj Ho. right.
        apply list_elem_of_fmap. exists nb. split; [done|].
        apply list_elem_of_filter. split; [done|by apply elem_of_a_star_neighbors].
    + apply Exists_exists in Hfor as (nb & Hin & Hnb).
      apply elem_of_a_star_neighbors in Hin.
      by eapply gstep_fault.
  - apply heappop_None in Hpop. simpl. apply gstep_exhausted. simpl.
    rewrite Hpop. done.
Qed.

(** ** Reasoning about [while] *)

Lemma while_inv {St} (body : St → control St) (Inv : St → Prop) (Post : outcome → Prop) :
  (∀ s s', Inv s → body s = Continue s' → Inv s') →
  (∀ s o, Inv s → body s = Break o → Post o) →
  ∀ fuel s o, Inv s → while body fuel s = Some o → Post o.
Proof.
  intros Hstep Hexit fuel. induction fuel as [|fuel IH]; intros s o Hs; simpl; [done|].
  destruct (body s) as [s'|o'] eqn:E.
  - apply IH. by eapply Hstep.
  - intros [= <-]. by eapply Hexit.
Qed.

Lemma iter_inv {St} (body : St → control St) (Inv : St → Prop) :
  (∀ s s', Inv s → body s = Continue s' → Inv s') →
  ∀ n s s', Inv s → iter body n s = Some s' → Inv s'.
Proof.
  intros Hstep n. induction n as [|n IH]; intros s s' Hs; simpl.
  - intros [= <-]. done.
  - destruct (body s) as [s1|] eqn:E; [|done]. apply IH. by eapply Hstep.
Qed.

Lemma while_mono {St} (body : St → control St) fuel fuel' s o :
  while body fuel s = Some o → (fuel ≤ fuel')%nat → while body fuel' s = Some o.
Proof.
  revert fuel' s. induction fuel as [|fuel IH]; intros fuel' s; simpl; [done|].
  intros H Hle. destruct fuel' as [|fuel']; [lia|]. simpl.
  destruct (body s); [|done]. apply IH; [done|lia].
Qed.

(** A loop whose passes decrease a measure leaves the function. *)
Lemma while_terminates {St} (body : St → control St) (Inv : St → Prop) (μ : St → nat) :
  (∀ s s', Inv s → body s = Continue s' → Inv s' ∧ (μ s' < μ s)%nat) →
  ∀ s, Inv s → ∃ o, while body (S (μ s)) s = Some o.
Proof.
  intros Hstep s. remember (μ s) as m eqn:Hm. revert s Hm.
  induction (lt_wf m) as [m _ IH]. intros s -> Hs. simpl.
  destruct (body s) as [s'|o] eqn:E; [|by eexists].
  destruct (Hstep s s' Hs E) as [Hs' Hlt].
  destruct (IH (μ s') Hlt s' eq_refl Hs') as [o Ho].
  exists o. eapply while_mono; [exact Ho|lia].
Qed.

(** ** Walks and paths *)

Lemma walk_end_ok ok a p b : walk ok a p b → b = a ∨ ok b.
Proof. destruct 1; [by left|by right]. Qed.

Lemma walk_mono (ok ok' : coord → Prop) a p b :
  (∀ x, ok x → ok' x) → walk ok a p b → walk ok' a p b.
Proof. intros H. induction 1; [constructor|]. econstructor; eauto. Qed.

Lemma linked_snoc p c :
  linked (p ++ [c]) ↔
  linked p ∧ match last p with Some b => adjacent b c | None => True end.
Proof.
  induction p as [|a p IH]; [simpl; tauto|].
  destruct p as [|b p]; [simpl; tauto|].
  change (linked ((a :: b :: p) ++ [c])) with (adjacent a b ∧ linked ((b :: p) ++ [c])).
  change (linked (a :: b :: p)) with (adjacent a b ∧ linked (b :: p)).
  change (last (a :: b :: p)) with (last (b :: p)).
  tauto.
Qed.

Lemma walk_nonempty ok a p b : walk ok a p b → p ≠ [].
Proof. destruct 1; [done|]. by destruct p. Qed.

Lemma walk_head ok a p b : walk ok a p b → head p = Some a.
Proof.
  induction 1 as [|p b c Hw IH]; [done|].
  destruct p; [done|]. done.
Qed.

Lemma walk_last ok a p b : walk ok a p b → last p = Some b.
Proof. destruct 1; [done|]. apply last_snoc. Qed.

Lemma walk_linked ok a p b : walk ok a p b → linked p.
Proof.
  induction 1 as [|p b c Hw IH]; [done|].
  apply linked_snoc. split; [done|].
  rewrite (walk_last _ _ _ _ Hw). done.
Qed.

Lemma walk_Forall ok a p b : ok a → walk ok a p b → Forall ok p.
Proof.
  intros Ha. induction 1 as [|p b c Hw IH]; [by repeat constructor|].
  apply Forall_app. split; [done|by repeat constructor].
Qed.

(** A walk from an Open cell through Open cells is a valid path. *)
Lemma walk_valid_path maze start end_ p :
  is_open maze start → walk (is_open maze) start p end_ →
  valid_path maze start end_ p.
Proof.
  intros Hs Hw. repeat split.
  - by eapply walk_head.
  - by eapply walk_last.
  - by eapply walk_Forall.
  - by eapply walk_linked.
Qed.

Lemma valid_path_walk maze start end_ p :
  valid_path maze start end_ p → walk (is_open maze) start p end_.
Proof.
  intros (Hh & Hl & HF & Hlk). revert end_ Hh Hl HF Hlk.
  induction p as [|c p IH] using rev_ind; intros end_ Hh Hl HF Hlk; [done|].
  rewrite last_snoc in Hl. injection Hl as ->.
  apply Forall_app in HF as [HF Hc]. rewrite Forall_singleton in Hc.
  apply linked_snoc in Hlk as [Hlk Hadj].
  destruct (last p) as [b|] eqn:Eb.
  - apply walk_step with b; [|done..].
    apply IH; [|done..]. destruct p; [done|]. done.
  - apply last_None in Eb as ->. simpl in Hh. injection Hh as ->. constructor.
Qed.

Lemma valid_path_start_open maze start end_ p :
  valid_path maze start end_ p → is_open maze start.
Proof.
  intros (Hh & _ & HF & _). destruct p as [|a p]; [done|].
  injection Hh as ->. by apply Forall_cons in HF as [? _].
Qed.

Lemma edges_snoc p c : edges (p ++ [c]) = edges p + 1.
Proof. unfold edges. rewrite length_app. simpl. lia. Qed.

Lemma walk_edges_nonneg ok a p b : walk ok a p b → 0 ≤ edges p.
Proof.
  intros Hw. apply walk_nonempty in Hw. unfold edges. destruct p; [done|]. simpl. lia.
Qed.

(** The two ways a pass goes round again, and the two ways it returns. *)
Lemma gstep_Continue_inv maze end_ s e s' :
  gstep maze end_ s e (Continue s') →
  ∃ node path rest,
    e = Some (node, path) ∧ frontier s ≡ₚ ((node, path) :: rest) ∧ node ≠ end_ ∧
    ((node ∈ visited s ∧ frontier s' ≡ₚ rest ∧ visited s' = visited s
      ∧ node_count s' = node_count s)
     ∨ ((node ∉ visited s) ∧ visited s' = {[node]} ∪ visited s
        ∧ node_count s' = node_count s + 1
        ∧ (∀ nb, adjacent node nb → is_dash maze nb ≠ IndexError)
        ∧ ∃ new, frontier s' ≡ₚ (rest ++ new) ∧ (length new ≤ 4)%nat
            ∧ (∀ e, e ∈ new →
                 ∃ nb, adjacent node nb ∧ code_open maze nb ∧ e = (nb, path ++ [nb]))
            ∧ (∀ nb, adjacent node nb → code_open maze nb →
                 nb ∈ visited s' ∨ (nb, path ++ [nb]) ∈ new))).
Proof.
  inversion 1; subst; eexists _, _, _; (split; [done|]); (split; [done|]);
    (split; [done|]).
  - left. done.
  - right. repeat (split; [done|]). eexists. done.
Qed.

Lemma gstep_Return_inv maze end_ s e path n :
  gstep maze end_ s e (Break (Return path n)) →
  n = node_count s ∧
  ((e = None ∧ frontier s = [] ∧ path = [])
   ∨ (e = Some (end_, path) ∧ ∃ rest, frontier s ≡ₚ (end_, path) :: rest)).
Proof.
  inversion 1; subst; (split; [done|]).
  - left. done.
  - right. split; [done|]. eexists. done.
Qed.

Lemma gstep_Raise_inv maze end_ s e :
  gstep maze end_ s e (Break Raise_IndexError) →
  ∃ node path rest nb,
    e = Some (node, path) ∧ frontier s ≡ₚ ((node, path) :: rest) ∧ node ≠ end_
    ∧ (node ∉ visited s) ∧ adjacent node nb ∧ is_dash maze nb = IndexError.
Proof. inversion 1; subst. eexists _, _, _, _. done. Qed.

(** ** The invariants are kept by every pass *)

Section Invariants.

Context (maze : maze_t) (start end_ : coord).

Lemma sound_ginit ok : sound start end_ ok (ginit start).
Proof.
  split; simpl.
  - intros node path [= -> ->]%list_elem_of_singleton. constructor.
  - intros v Hv. by apply elem_of_empty in Hv.
  - reflexivity.
Qed.

Lemma complete_ginit : complete maze start (ginit start).
Proof.
  split; simpl; [by right|].
  intros v w Hv. by apply elem_of_empty in Hv.
Qed.

Lemma size_visited_insert (node : coord) (vis : gset coord) :
  node ∉ vis → size ({[node]} ∪ vis) = S (size vis).
Proof.
  intros Hn. rewrite size_union by (by apply disjoint_singleton_l).
  rewrite size_singleton. done.
Qed.

Lemma popped_start_only s (node : coord) (path : list coord) rest :
  frontier s = [(start, [start])] → frontier s ≡ₚ (node, path) :: rest →
  node = start.
Proof.
  intros -> Hperm. apply Permutation_singleton_l in Hperm. by injection Hperm.
Qed.

Lemma sound_step ok s e s' :
  extends maze start end_ ok → sound start end_ ok s →
  gstep maze end_ s e (Continue s') → sound start end_ ok s'.
Proof.
  intros Hext [Hf Hv Hc] Hstep.
  apply gstep_Continue_inv in Hstep
    as (node & path & rest & -> & Hperm & Hne &
        [(Hin & Hfr & Hvis & Hcnt)
        |(Hnin & Hvis & Hcnt & _ & new & Hfr & _ & Hnew & _)]).
  - (* a stale entry is dropped *)
    split.
    + intros n p Hnp. apply Hf. rewrite Hperm. apply list_elem_of_further.
      by rewrite <- Hfr.
    + by rewrite Hvis.
    + by rewrite Hcnt, Hvis.
  - (* a node is expanded *)
    assert (walk ok start path node) as Hw.
    { apply Hf. rewrite Hperm. apply list_elem_of_here. }
    split.
    + intros n p Hnp. rewrite Hfr in Hnp. apply elem_of_app in Hnp as [Hnp|Hnp].
      * apply Hf. rewrite Hperm. by apply list_elem_of_further.
      * destruct (Hnew _ Hnp) as (nb & Hadj & Ho & [= -> ->]).
        apply walk_step with node; [done..|].
        eapply Hext; [|done..]. by eapply walk_end_ok.
    + intros v. rewrite Hvis, elem_of_union, elem_of_singleton.
      intros [->|Hin]; [|by apply Hv].
      split; [done|]. by eapply walk_end_ok.
    + rewrite Hcnt, Hvis, Hc, size_visited_insert by done. lia.
Qed.

Lemma complete_step s e s' :
  complete maze start s → gstep maze end_ s e (Continue s') → complete maze start s'.
Proof.
  intros [Hs Hcl] Hstep.
  apply gstep_Continue_inv in Hstep
    as (node & path & rest & -> & Hperm & Hne &
        [(Hin & Hfr & Hvis & Hcnt)
        |(Hnin & Hvis & Hcnt & _ & new & Hfr & _ & _ & Hnew)]).
  - (* a stale entry is dropped *)
    split.
    + left. rewrite Hvis. destruct Hs as [Hs|Hs]; [done|].
      by rewrite <- (popped_start_only s node path rest Hs Hperm).
    + intros v w. rewrite Hvis. intros Hv Hadj Ho.
      destruct (Hcl v w Hv Hadj Ho) as [Hw|[p Hw]]; [by left|].
      rewrite Hperm in Hw. apply elem_of_cons in Hw as [[= -> ->]|Hw]; [by left|].
      right. exists p. by rewrite Hfr.
  - (* a node is expanded *)
    split.
    + left. rewrite Hvis. apply elem_of_union.
      destruct Hs as [Hs|Hs]; [by right|left].
      apply elem_of_singleton. symmetry.
      exact (popped_start_only s node path rest Hs Hperm).
    + intros v w Hv Hadj Ho.
      rewrite Hvis, elem_of_union, elem_of_singleton in Hv.
      destruct Hv as [->|Hv].
      * destruct (Hnew w Hadj Ho) as [Hw|Hw]; [by left|].
        right. exists (path ++ [w]). rewrite Hfr. apply elem_of_app. by right.
      * destruct (Hcl v w Hv Hadj Ho) as [Hw|[p Hw]].
        { left. rewrite Hvis. apply elem_of_union. by right. }
        rewrite Hperm in Hw. apply elem_of_cons in Hw as [[= -> ->]|Hw].
        { left. rewrite Hvis. apply elem_of_union. left. by apply elem_of_singleton. }
        right. exists p. rewrite Hfr. apply elem_of_app. by left.
Qed.

(** Once the frontier is empty, everything the code could move to from
    [start] has been visited. *)
Lemma complete_exhausted s p n :
  complete maze start s → frontier s = [] → walk (code_open maze) start p n → n ∈ visited s.
Proof.
  intros [Hs Hcl] Hnil. induction 1 as [|p b c Hw IH Hadj Ho].
  - destruct Hs as [Hs|Hs]; [done|]. by rewrite Hnil in Hs.
  - destruct (Hcl b c IH Hadj Ho) as [Hc|[q Hc]]; [done|].
    rewrite Hnil in Hc. by apply elem_of_nil in Hc.
Qed.

(** A returned non-empty path is a walk from [start] to [end_]. *)
Lemma gstep_return_walk ok s e path n :
  sound start end_ ok s → gstep maze end_ s e (Break (Return path n)) → path ≠ [] →
  walk ok start path end_.
Proof.
  intros [Hf _ _] Hstep Hne.
  apply gstep_Return_inv in Hstep as [_ [(_ & _ & ->)|(_ & rest & Hperm)]]; [done|].
  apply Hf. rewrite Hperm. apply list_elem_of_here.
Qed.

Lemma gstep_return_count ok s e path n :
  sound start end_ ok s → gstep maze end_ s e (Break (Return path n)) →
  n = Z.of_nat (size (visited s)).
Proof.
  intros [_ _ Hc] Hstep. apply gstep_Return_inv in Hstep as [-> _]. done.
Qed.

(** With [start ≠ end_], a path is only returned after [start] was expanded. *)
Lemma gstep_return_started s e path n :
  complete maze start s → gstep maze end_ s e (Break (Return path n)) →
  path ≠ [] → start ≠ end_ → start ∈ visited s.
Proof.
  intros [Hs _] Hstep Hne Hse.
  apply gstep_Return_inv in Hstep as [_ [(_ & _ & ->)|(_ & rest & Hperm)]]; [done|].
  destruct Hs as [Hs|Hs]; [done|].
  by pose proof (popped_start_only s end_ path rest Hs Hperm).
Qed.

(** An empty path is only returned when the code has no way from [start]
    to [end_]. *)
Lemma gstep_return_empty s e n q :
  sound start end_ (code_open maze) s → complete maze start s →
  gstep maze end_ s e (Break (Return [] n)) →
  ¬ walk (code_open maze) start q end_.
Proof.
  intros Hsound Hcomp Hstep Hw.
  apply gstep_Return_inv in Hstep as [_ [(_ & Hnil & _)|(_ & rest & Hperm)]].
  - pose proof (complete_exhausted s q end_ Hcomp Hnil Hw) as Hin.
    by destruct (sound_visited _ _ _ _ Hsound _ Hin).
  - assert (walk (code_open maze) start [] end_) as Hnil.
    { apply (sound_frontier _ _ _ _ Hsound). rewrite Hperm. apply list_elem_of_here. }
    by apply walk_nonempty in Hnil.
Qed.

(** On a guarded grid the coordinates the code moves to are Open cells. *)
Lemma guarded_extends :
  guarded maze end_ = true → is_open maze start → extends maze start end_ (is_open maze).
Proof.
  intros Hg Hs node nb Hnode Hne Hadj Ho.
  assert (is_open maze node) as Hopen by (by destruct Hnode as [->|?]).
  pose proof (guarded_spec maze end_ Hg node nb Hopen Hne) as Hnb.
  rewrite elem_of_neighbors in Hnb. specialize (Hnb Hadj).
  unfold code_open in Ho. rewrite Hnb in Ho. injection Ho as Ho.
  by apply bool_decide_eq_true_1 in Ho.
Qed.

Lemma code_open_extends : extends maze start end_ (code_open maze).
Proof. intros node nb _ _ _ Ho. done. Qed.

(** On a guarded grid no probe raises. *)
Lemma gstep_guarded_no_fault s e o :
  guarded maze end_ = true → is_open maze start → sound start end_ (is_open maze) s →
  gstep maze end_ s e (Break o) → o ≠ Raise_IndexError.
Proof.
  intros Hg Hs [Hf _ _] Hstep ->.
  apply gstep_Raise_inv in Hstep
    as (node & path & rest & nb & _ & Hperm & Hne & _ & Hadj & Hnb).
  assert (walk (is_open maze) start path node) as Hw.
  { apply Hf. rewrite Hperm. apply list_elem_of_here. }
  assert (is_open maze node) as Hopen.
  { by destruct (walk_end_ok _ _ _ _ Hw) as [->|?]. }
  pose proof (guarded_spec maze end_ Hg node nb Hopen Hne) as Hnb'.
  rewrite elem_of_neighbors in Hnb'. rewrite (Hnb' Hadj) in Hnb. done.
Qed.

End Invariants.

(** ** The measure decreases *)

Lemma getitem_Value_range {A} (l : list A) (i : Z) (x : A) :
  getitem l i = Value x →
  - Z.of_nat (length l) ≤ i < Z.of_nat (length l) ∧ x ∈ l.
Proof.
  intros [[Hi Hl]|[Hi Hl]]%getitem_Value.
  - split; [|by eapply list_elem_of_lookup_2].
    apply lookup_lt_Some in Hl. lia.
  - split; [lia|by eapply list_elem_of_lookup_2].
Qed.

Lemma code_open_universe maze start w : code_open maze w → w ∈ universe maze start.
Proof.
  unfold code_open, is_dash. destruct w as [r c]. simpl.
  destruct (getitem maze r) as [row|] eqn:Er; [|done]. simpl.
  destruct (getitem row c) as [cell|] eqn:Ec; [|done]. intros _.
  apply getitem_Value_range in Er as [Hr Hrow].
  apply getitem_Value_range in Ec as [Hc _].
  assert (length row ≤ max_list (length <$> maze))%nat as Hmax.
  { apply max_list_elem_of_le, list_elem_of_fmap. eauto. }
  unfold universe. apply elem_of_union. right. apply elem_of_list_to_set.
  apply list_elem_of_bind. exists r. split; [|apply elem_of_seqZ; lia].
  apply list_elem_of_bind. exists c. split; [apply list_elem_of_singleton; done|].
  apply elem_of_seqZ. lia.
Qed.

Lemma sound_visited_universe maze start end_ s :
  sound start end_ (code_open maze) s → visited s ⊆ universe maze start.
Proof.
  intros Hs v Hv. destruct (sound_visited _ _ _ _ Hs v Hv) as [_ [->|Ho]].
  - unfold universe. apply elem_of_union. left. by apply elem_of_singleton.
  - by apply code_open_universe.
Qed.

Lemma measure_decreases maze start end_ s e s' :
  sound start end_ (code_open maze) s →
  gstep maze end_ s e (Continue s') →
  (measure maze start s' < measure maze start s)%nat.
Proof.
  intros Hs Hstep.
  pose proof (sound_step _ _ _ _ _ _ _ (code_open_extends maze start end_) Hs Hstep)
    as Hs'.
  apply sound_visited_universe, subseteq_size in Hs'.
  apply gstep_Continue_inv in Hstep
    as (node & path & rest & -> & Hperm & Hne &
        [(Hin & Hfr & Hvis & Hcnt)
        |(Hnin & Hvis & Hcnt & _ & new & Hfr & Hlen & _ & _)]);
    unfold measure; apply Permutation_length in Hperm, Hfr;
    rewrite Hperm, Hfr, Hvis.
  - simpl. lia.
  - rewrite Hvis, size_visited_insert in Hs' by done.
    rewrite size_visited_insert, length_app by done. simpl. lia.
Qed.

(** ** From passes to whole runs

    Everything below holds for a loop whose passes are [gstep]s on some view
    of its state and that starts from [ginit]. *)

Section Engine.

Context {St : Type} (body : St → control St) (view : St → search_state node_path).
Context (popped : St → option node_path).
Context (maze : maze_t) (start end_ : coord).
Context (Hsim : ∀ s, gstep maze end_ (view s) (popped s) (control_map view (body s))).
Context (init : St) (Hinit : view init = ginit start).

Lemma engine_Continue s s' :
  body s = Continue s' → gstep maze end_ (view s) (popped s) (Continue (view s')).
Proof. intros E. pose proof (Hsim s) as H. by rewrite E in H. Qed.

Lemma engine_Break s o :
  body s = Break o → gstep maze end_ (view s) (popped s) (Break o).
Proof. intros E. pose proof (Hsim s) as H. by rewrite E in H. Qed.

Lemma engine_sound_step ok s s' :
  extends maze start end_ ok → sound start end_ ok (view s) →
  body s = Continue s' → sound start end_ ok (view s').
Proof. intros Hext Hs E. eapply sound_step; [done..|by apply engine_Continue]. Qed.

Lemma engine_complete_step s s' :
  complete maze start (view s) → body s = Continue s' → complete maze start (view s').
Proof. intros Hs E. eapply complete_step; [done|by apply engine_Continue]. Qed.

Lemma engine_sound_init ok : sound start end_ ok (view init).
Proof. rewrite Hinit. apply sound_ginit. Qed.

Lemma engine_complete_init : complete maze start (view init).
Proof. rewrite Hinit. apply complete_ginit. Qed.

(** A non-empty path that is returned is a walk from [start] to [end_]. *)
Lemma engine_return_walk ok fuel p n :
  extends maze start end_ ok →
  while body fuel init = Some (Return p n) → p ≠ [] → walk ok start p end_.
Proof.
  intros Hext Hrun.
  enough (∀ o, while body fuel init = Some o →
               ∀ p n, o = Return p n → p ≠ [] → walk ok start p end_) as H
    by (by eapply H).
  intros o Ho. pattern o.
  eapply (while_inv body (λ s, sound start end_ ok (view s))); [| | |exact Ho].
  - intros s s'. by apply engine_sound_step.
  - intros s o' Hs E p' n' -> Hne. apply engine_Break in E.
    by eapply gstep_return_walk.
  - apply engine_sound_init.
Qed.

(** [node_count] is never negative, and positive when a path is returned
    for [start ≠ end_]. *)
Lemma engine_return_count fuel p n :
  while body fuel init = Some (Return p n) →
  0 ≤ n ∧ (p ≠ [] → start ≠ end_ → 1 ≤ n).
Proof.
  intros Hrun.
  enough (∀ o, while body fuel init = Some o →
               ∀ p n, o = Return p n →
                      0 ≤ n ∧ (p ≠ [] → start ≠ end_ → 1 ≤ n)) as H
    by (by eapply H).
  intros o Ho. pattern o.
  eapply (while_inv body
            (λ s, sound start end_ (code_open maze) (view s)
                  ∧ complete maze start (view s))); [| | |exact Ho].
  - intros s s' [Hs Hc] E. split.
    + eapply engine_sound_step; [apply code_open_extends|done..].
    + by eapply engine_complete_step.
  - intros s o' [Hs Hc] E p' n' ->. apply engine_Break in E.
    rewrite (gstep_return_count _ _ _ _ _ _ _ _ Hs E). split; [lia|].
    intros Hne Hse.
    pose proof (gstep_return_started _ _ _ _ _ _ _ Hc E Hne Hse) as Hin.
    destruct (size (visited (view s))) eqn:Esz; [|lia].
    apply size_empty_iff in Esz. by apply Esz in Hin.
  - split; [apply engine_sound_init|apply engine_complete_init].
Qed.

(** An empty path is returned only if the code has no way to [end_]. *)
Lemma engine_return_empty fuel n q :
  while body fuel init = Some (Return [] n) →
  ¬ walk (code_open maze) start q end_.
Proof.
  intros Hrun.
  enough (∀ o, while body fuel init = Some o →
               ∀ n, o = Return [] n → ¬ walk (code_open maze) start q end_) as H
    by (by eapply H).
  intros o Ho. pattern o.
  eapply (while_inv body
            (λ s, sound start end_ (code_open maze) (view s)
                  ∧ complete maze start (view s))); [| | |exact Ho].
  - intros s s' [Hs Hc] E. split.
    + eapply engine_sound_step; [apply code_open_extends|done..].
    + by eapply engine_complete_step.
  - intros s o' [Hs Hc] E n' ->. apply engine_Break in E.
    by eapply gstep_return_empty.
  - split; [apply engine_sound_init|apply engine_complete_init].
Qed.

(** The loop is left after at most [5 * size universe + 2] passes. *)
Lemma engine_terminates :
  ∃ o, while body (S (measure maze start (ginit start))) init = Some o.
Proof.
  rewrite <- Hinit.
  apply (while_terminates body (λ s, sound start end_ (code_open maze) (view s))
           (λ s, measure maze start (view s))); [|apply engine_sound_init].
  intros s s' Hs E. split.
  - eapply engine_sound_step; [apply code_open_extends|done..].
  - eapply measure_decreases; [done|by apply engine_Continue].
Qed.

(** On a guarded grid with an Open start the loop does not raise. *)
Lemma engine_guarded fuel o :
  guarded maze end_ = true → is_open maze start →
  while body fuel init = Some o → o ≠ Raise_IndexError.
Proof.
  intros Hg Hopen Hrun. pattern o.
  eapply (while_inv body (λ s, sound start end_ (is_open maze) (view s)));
    [| | |exact Hrun].
  - intros s s'. apply engine_sound_step. by apply guarded_extends.
  - intros s o' Hs E. apply engine_Break in E.
    by eapply gstep_guarded_no_fault.
  - apply engine_sound_init.
Qed.

(** On a guarded grid with an Open start: the loop returns, the path is
    empty exactly when [end_] is unreachable, and a non-empty path is a
    valid path. *)
Lemma engine_guarded_result :
  guarded maze end_ = true → is_open maze start →
  ∃ p n,
    (∀ fuel, (S (measure maze start (ginit start)) ≤ fuel)%nat →
       while body fuel init = Some (Return p n))
    ∧ (p = [] ↔ ¬ reachable maze start end_)
    ∧ (p ≠ [] → valid_path maze start end_ p)
    ∧ 0 ≤ n.
Proof.
  intros Hg Hopen. destruct engine_terminates as [o Ho].
  pose proof (engine_guarded _ _ Hg Hopen Ho) as Hno.
  destruct o as [p n|]; [|done]. exists p, n.
  assert (p ≠ [] → valid_path maze start end_ p) as Hvalid.
  { intros Hne. apply walk_valid_path; [done|].
    eapply engine_return_walk; [by apply guarded_extends|done..]. }
  split; [|split; [|split]].
  - intros fuel Hle. by eapply while_mono.
  - split.
    + intros -> [q Hq]. apply valid_path_walk in Hq.
      eapply engine_return_empty; [done|].
      eapply walk_mono; [apply is_open_code_open|done].
    + intros Hnr. destruct p as [|a p]; [done|].
      destruct Hnr. eexists. by apply Hvalid.
  - done.
  - by destruct (engine_return_count _ _ _ Ho).
Qed.

End Engine.

Lemma control_map_id {St} (c : control St) : control_map (λ s, s) c = c.
Proof. by destruct c. Qed.

Lemma dfs_sim maze end_ s :
  gstep maze end_ s (fst <$> pop (frontier s)) (control_map (λ s, s) (dfs_body maze end_ s)).
Proof. rewrite control_map_id. apply dfs_body_gstep. Qed.

Lemma bfs_sim maze end_ s :
  gstep maze end_ s (fst <$> pop0 (frontier s)) (control_map (λ s, s) (bfs_body maze end_ s)).
Proof. rewrite control_map_id. apply bfs_body_gstep. Qed.

Lemma a_star_view_init start end_ : a_star_view (a_star_init start end_) = ginit start.
Proof. reflexivity. Qed.

(** ** Runs of the three searches *)

Lemma search_return_walk alg ok fuel maze start end_ p n :
  extends maze start end_ ok →
  search alg fuel maze start end_ = Some (Return p n) → p ≠ [] →
  walk ok start p end_.
Proof.
  destruct alg.
  - exact (engine_return_walk _ _ _ maze start end_ (dfs_sim maze end_)
             (dfs_init start) eq_refl ok fuel p n).
  - exact (engine_return_walk _ _ _ maze start end_ (a_star_body_gstep maze end_)
             (a_star_init start end_) eq_refl ok fuel p n).
  - exact (engine_return_walk _ _ _ maze start end_ (bfs_sim maze end_)
             (bfs_init start) eq_refl ok fuel p n).
Qed.

Lemma search_return_count alg fuel maze start end_ p n :
  search alg fuel maze start end_ = Some (Return p n) →
  0 ≤ n ∧ (p ≠ [] → start ≠ end_ → 1 ≤ n).
Proof.
  destruct alg.
  - exact (engine_return_count _ _ _ maze start end_ (dfs_sim maze end_)
             (dfs_init start) eq_refl fuel p n).
  - exact (engine_return_count _ _ _ maze start end_ (a_star_body_gstep maze end_)
             (a_star_init start end_) eq_refl fuel p n).
  - exact (engine_return_count _ _ _ maze start end_ (bfs_sim maze end_)
             (bfs_init start) eq_refl fuel p n).
Qed.

Lemma search_return_empty alg fuel maze start end_ n q :
  search alg fuel maze start end_ = Some (Return [] n) →
  ¬ walk (code_open maze) start q end_.
Proof.
  destruct alg.
  - exact (engine_return_empty _ _ _ maze start end_ (dfs_sim maze end_)
             (dfs_init start) eq_refl fuel n q).
  - exact (engine_return_empty _ _ _ maze start end_ (a_star_body_gstep maze end_)
             (a_star_init start end_) eq_refl fuel n q).
  - exact (engine_return_empty _ _ _ maze start end_ (bfs_sim maze end_)
             (bfs_init start) eq_refl fuel n q).
Qed.

Lemma search_terminates alg maze start end_ :
  ∃ o, search alg (enough_fuel maze start) maze start end_ = Some o.
Proof.
  destruct alg.
  - exact (engine_terminates _ _ _ maze start end_ (dfs_sim maze end_)
             (dfs_init start) eq_refl).
  - exact (engine_terminates _ _ _ maze start end_ (a_star_body_gstep maze end_)
             (a_star_init start end_) eq_refl).
  - exact (engine_terminates _ _ _ maze start end_ (bfs_sim maze end_)
             (bfs_init start) eq_refl).
Qed.

Lemma search_mono alg fuel fuel' maze start end_ o :
  search alg fuel maze start end_ = Some o → (fuel ≤ fuel')%nat →
  search alg fuel' maze start end_ = Some o.
Proof. destruct alg; apply while_mono. Qed.

Lemma search_guarded_result alg maze start end_ :
  guarded maze end_ = true → is_open maze start →
  ∃ p n,
    (∀ fuel, (enough_fuel maze start ≤ fuel)%nat →
       search alg fuel maze start end_ = Some (Return p n))
    ∧ (p = [] ↔ ¬ reachable maze start end_)
    ∧ (p ≠ [] → valid_path maze start end_ p)
    ∧ 0 ≤ n.
Proof.
  destruct alg.
  - exact (engine_guarded_result _ _ _ maze start end_ (dfs_sim maze end_)
             (dfs_init start) eq_refl).
  - exact (engine_guarded_result _ _ _ maze start end_ (a_star_body_gstep maze end_)
             (a_star_init start end_) eq_refl).
  - exact (engine_guarded_result _ _ _ maze start end_ (bfs_sim maze end_)
             (bfs_init start) eq_refl).
Qed.

(** ** Lower bounds on the length of valid paths *)

Lemma adjacent_sym a b : adjacent a b → adjacent b a.
Proof. unfold adjacent. lia. Qed.

Lemma walk_reach_within maze a p b :
  walk (is_open maze) a p b →
  ∀ k, edges p ≤ Z.of_nat k → reach_within maze k a b = true.
Proof.
  induction 1 as [|p b c Hw IH Hadj Ho]; intros k Hk.
  - destruct k; simpl; apply orb_true_intro; left; by apply bool_decide_eq_true_2.
  - rewrite edges_snoc in Hk. pose proof (walk_edges_nonneg _ _ _ _ Hw).
    destruct k as [|k]; [lia|]. simpl.
    rewrite (bool_decide_eq_true_2 (is_open maze c)) by done. simpl.
    apply orb_true_intro. right. apply existsb_exists. exists b. split.
    + apply list_elem_of_In, elem_of_neighbors, adjacent_sym. done.
    + apply IH. lia.
Qed.

(** No valid path is shorter than the least [k] with [reach_within]. *)
Lemma valid_path_edges_bound maze start end_ q k :
  reach_within maze k start end_ = false →
  valid_path maze start end_ q → Z.of_nat k < edges q.
Proof.
  intros Hk Hq. apply valid_path_walk in Hq.
  destruct (Z.lt_ge_cases (Z.of_nat k) (edges q)) as [|Hle]; [done|].
  rewrite (walk_reach_within _ _ _ _ Hq k Hle) in Hk. done.
Qed.

(** ** The subscripts are not guarded *)

(** The probe raises exactly when one of the two subscripts lies outside
    Python's range for its list. *)
Lemma is_dash_IndexError maze nb :
  is_dash maze nb = IndexError ↔
  getitem maze nb.1 = IndexError
  ∨ ∃ row, getitem maze nb.1 = Value row ∧ getitem row nb.2 = IndexError.
Proof.
  unfold is_dash. destruct (getitem maze nb.1) as [row|]; simpl.
  - destruct (getitem row nb.2) eqn:E; simpl.
    + split; [done|]. intros [?|(row' & [= <-] & ?)]; congruence.
    + split; [|done]. intros _. right. eauto.
  - split; [by left|done].
Qed.

(** A negative subscript within range reads from the end of the list. *)
Lemma getitem_negative {A} (l : list A) (i : Z) :
  - Z.of_nat (length l) ≤ i < 0 → getitem l i = getitem l (i + Z.of_nat (length l)).
Proof.
  intros Hi. unfold getitem. cbv zeta.
  destruct (Z.ltb_spec i 0); [|lia].
  do 2 (destruct (Z.ltb_spec (i + Z.of_nat (length l)) 0); [lia|]). done.
Qed.

(** The row below the last row is probed like any other, and the probe
    raises: expanding a coordinate of the last row ends each of the three
    [for] loops with [IndexError]. *)
Lemma is_dash_below_last_row maze (node : coord) :
  node.1 = Z.of_nat (length maze) - 1 → is_dash maze (node.1 + 1, node.2) = IndexError.
Proof.
  intros Hrow. unfold is_dash. simpl.
  assert (getitem maze (node.1 + 1) = IndexError) as ->; [|done].
  apply getitem_IndexError. lia.
Qed.

Lemma for_loops_raise_in_last_row maze end_ (node : coord) path :
  node.1 = Z.of_nat (length maze) - 1 →
  (∀ stack, dfs_for maze path (neighbors node) stack = IndexError)
  ∧ (∀ vis queue, bfs_for maze vis path (neighbors node) queue = IndexError)
  ∧ (∀ g heap, a_star_for maze end_ g path (a_star_neighbors node) heap = IndexError).
Proof.
  intros Hrow. pose proof (is_dash_below_last_row maze node Hrow) as Hbelow.
  destruct node as [row col]. simpl in Hbelow. split; [|split].
  - intros stack. simpl. by rewrite Hbelow.
  - intros vis queue. simpl. by rewrite Hbelow.
  - intros g heap. simpl.
    destruct (is_dash maze (row - 1, col)) as [[|]|]; simpl; [| |done];
      by rewrite Hbelow.
Qed.

(** ** What a run has expanded *)

(** A pass adds to [visited] the coordinate it expands, and nothing else. *)
Lemma gstep_visited maze end_ s e s' :
  gstep maze end_ s e (Continue s') →
  visited s' = list_to_set (expands end_ e (visited s)) ∪ visited s.
Proof.
  intros Hstep.
  apply gstep_Continue_inv in Hstep
    as (node & path & rest & -> & Hperm & Hne &
        [(Hin & _ & Hvis & _)|(Hnin & Hvis & _)]);
    unfold expands; rewrite decide_False by done.
  - rewrite decide_True by done. rewrite Hvis. simpl.
    by rewrite (left_id_L ∅ (∪)).
  - rewrite decide_False by done. rewrite Hvis. simpl.
    by rewrite (right_id_L ∅ (∪)).
Qed.

Lemma union_shuffle (A B V : gset coord) : A ∪ (B ∪ V) = (B ∪ A) ∪ V.
Proof. by rewrite (assoc_L (∪)), (comm_L (∪) A B). Qed.

Section Expanded.

Context {E : Type} (body : search_state E → control (search_state E)).
Context (view : search_state E → search_state node_path).
Context (popped : search_state E → option node_path).
Context (maze : maze_t) (start end_ : coord).
Context (Hsim : ∀ s, gstep maze end_ (view s) (popped s) (control_map view (body s))).
Context (Hvis : ∀ s, visited (view s) = visited s).
Context (Hcnt : ∀ s, node_count (view s) = node_count s).

Lemma pass_visited s s' :
  body s = Continue s' →
  visited s' = list_to_set (expands end_ (popped s) (visited s)) ∪ visited s.
Proof.
  intros Hb. pose proof (engine_Continue _ _ _ _ _ Hsim _ _ Hb) as Hstep.
  apply gstep_visited in Hstep. by rewrite !Hvis in Hstep.
Qed.

Lemma iter_visited n s s' :
  iter body n s = Some s' →
  visited s' = list_to_set (expanded body popped end_ n s) ∪ visited s.
Proof.
  revert s. induction n as [|n IH]; intros s; simpl.
  - intros [= <-]. by rewrite (left_id_L ∅ (∪)).
  - destruct (body s) as [s1|] eqn:Hb; [|done]. intros Hit.
    rewrite (IH _ Hit), (pass_visited _ _ Hb), list_to_set_app_L.
    apply union_shuffle.
Qed.

Lemma iter_node_count n init s :
  view init = ginit start → iter body n init = Some s →
  node_count s = Z.of_nat (size (visited s)).
Proof.
  intros Hinit Hit. rewrite <- Hvis, <- Hcnt.
  apply (sound_count start end_ (code_open maze)).
  eapply (iter_inv body (λ s, sound start end_ (code_open maze) (view s)));
    [| |exact Hit].
  - intros s1 s2 Hs Hb.
    eapply engine_sound_step; [exact Hsim|apply code_open_extends|done..].
  - rewrite Hinit. apply sound_ginit.
Qed.

End Expanded.

(** ** Cheapest paths are expanded first

    A search that always takes from the frontier an entry that minimises
    moves made plus a consistent estimate [h] of the moves left expands
    every coordinate with the least number of moves that lead to it. *)

Section Cheapest.

Context (maze : maze_t) (start end_ : coord).
Context (h : coord → Z) (Hh : ∀ a b, adjacent a b → h a ≤ h b + 1).

Lemma closed_cost_ginit : closed_cost maze start (ginit start).
Proof. intros v w q Hv. by apply elem_of_empty in Hv. Qed.

(** Every walk to a coordinate that is not visited yet is matched by an
    entry of the frontier that is no worse. *)
Lemma frontier_bound s q n :
  complete maze start s → closed_cost maze start s →
  walk (code_open maze) start q n → n ∉ visited s →
  ∃ m p, (m, p) ∈ frontier s ∧ edges p + h m ≤ edges q + h n.
Proof.
  intros [Hs _] Hcl. induction 1 as [|q b c Hw IH Hadj Ho]; intros Hn.
  - destruct Hs as [Hs|Hs]; [done|]. exists start, [start].
    rewrite Hs. split; [apply list_elem_of_here|done].
  - rewrite edges_snoc. destruct (decide (b ∈ visited s)) as [Hb|Hb].
    + destruct (Hcl b c q Hb Hw Hadj Ho) as [Hc|(p & Hp & Hle)]; [done|].
      exists c, p. split; [done|lia].
    + destruct (IH Hb) as (m & p & Hp & Hle). exists m, p. split; [done|].
      pose proof (Hh b c Hadj). lia.
Qed.

(** The least entry of the frontier, if not visited, carries a cheapest
    path to its coordinate. *)
Lemma popped_cheapest s node path q :
  complete maze start s → closed_cost maze start s → popped_min h s node path →
  node ∉ visited s → walk (code_open maze) start q node →
  edges path ≤ edges q.
Proof.
  intros Hc Hcl Hmin Hn Hq.
  destruct (frontier_bound s q node Hc Hcl Hq Hn) as (m & p & Hp & Hle).
  pose proof (Hmin m p Hp). lia.
Qed.

Lemma closed_cost_step s node path s' :
  complete maze start s → closed_cost maze start s → popped_min h s node path →
  gstep maze end_ s (Some (node, path)) (Continue s') → closed_cost maze start s'.
Proof.
  intros Hc Hcl Hmin Hstep.
  apply gstep_Continue_inv in Hstep
    as (node' & path' & rest & [= <- <-] & Hperm & Hne &
        [(Hin & Hfr & Hvis & Hcnt)
        |(Hnin & Hvis & Hcnt & _ & new & Hfr & _ & _ & Hnew)]).
  - (* a stale entry is dropped *)
    intros v w q. rewrite Hvis. intros Hv Hq Hadj Ho.
    destruct (Hcl v w q Hv Hq Hadj Ho) as [Hw|(p & Hp & Hle)]; [by left|].
    rewrite Hperm in Hp. apply elem_of_cons in Hp as [[= -> ->]|Hp]; [by left|].
    right. exists p. by rewrite Hfr.
  - (* a node is expanded *)
    intros v w q Hv Hq Hadj Ho.
    rewrite Hvis, elem_of_union, elem_of_singleton in Hv.
    destruct Hv as [->|Hv].
    + destruct (Hnew w Hadj Ho) as [Hw|Hw]; [by left|].
      right. exists (path ++ [w]). split.
      * rewrite Hfr. apply elem_of_app. by right.
      * rewrite edges_snoc.
        pose proof (popped_cheapest s node path q Hc Hcl Hmin Hnin Hq). lia.
    + destruct (Hcl v w q Hv Hq Hadj Ho) as [Hw|(p & Hp & Hle)].
      { left. rewrite Hvis. apply elem_of_union. by right. }
      rewrite Hperm in Hp. apply elem_of_cons in Hp as [[= -> ->]|Hp].
      { left. rewrite Hvis. apply elem_of_union. left. by apply elem_of_singleton. }
      right. exists p. split; [|done]. rewrite Hfr. apply elem_of_app. by left.
Qed.

End Cheapest.

(** ** The heap of A-star *)

(** The Manhattan distance changes by at most one per move. *)
Lemma heuristic_adjacent end_ a b :
  adjacent a b → heuristic end_ a ≤ heuristic end_ b + 1.
Proof.
  unfold adjacent, heuristic. destruct a as [r c], b as [r' c'], end_ as [er ec].
  simpl. lia.
Qed.

Lemma heuristic_end end_ : heuristic end_ end_ = 0.
Proof. unfold heuristic. lia. Qed.

Lemma entries_ok_init start end_ : entries_ok end_ (frontier (a_star_init start end_)).
Proof.
  intros e ->%list_elem_of_singleton. unfold cost, priority, entry_path, entry_node.
  simpl. split; [done|lia].
Qed.

Lemma entries_ok_step maze end_ s s' :
  entries_ok end_ (frontier s) → a_star_body maze end_ s = Continue s' →
  entries_ok end_ (frontier s').
Proof.
  intros Hok. unfold a_star_body.
  destruct (heappop (frontier s)) as [[[[[f g] node] path] heap]|] eqn:Hpop; [|done].
  apply heappop_Some in Hpop as [Hperm _].
  assert (g = edges path) as Hg.
  { destruct (Hok (f, g, node, path)) as [Hc _]; [|done].
    rewrite Hperm. apply list_elem_of_here. }
  assert (entries_ok end_ heap) as Hheap.
  { intros e He. apply Hok. rewrite Hperm. by apply list_elem_of_further. }
  destruct (decide (node = end_)); [done|].
  destruct (decide (node ∈ visited s)); [by intros [= <-]|].
  pose proof (a_star_for_spec maze end_ g path (a_star_neighbors node) heap) as Hfor.
  destruct (a_star_for _ _ _ _ _ _); [|done].
  destruct Hfor as [_ ->]. intros [= <-]. simpl.
  intros e [He|He]%elem_of_app; [by apply Hheap|].
  apply list_elem_of_fmap in He as (nb & -> & _).
  unfold cost, priority, entry_path, entry_node. simpl.
  rewrite edges_snoc. split; lia.
Qed.

(** The entry that [heappop] returns is least in the view of the heap. *)
Lemma heappop_popped_min end_ s e heap :
  entries_ok end_ (frontier s) → heappop (frontier s) = Some (e, heap) →
  popped_min (heuristic end_) (a_star_view s) (entry_node e) (entry_path e).
Proof.
  intros Hok Hpop m p Hmp. simpl in Hmp.
  apply list_elem_of_fmap in Hmp as (x & [= -> ->] & Hx).
  apply heappop_Some in Hpop as [Hperm Hmin].
  specialize (Hmin x Hx).
  destruct (Hok x Hx) as [Hcx Hpx].
  destruct (Hok e) as [Hce Hpe]; [rewrite Hperm; apply list_elem_of_here|].
  lia.
Qed.

Lemma a_star_inv_init maze start end_ : a_star_inv maze start end_ (a_star_init start end_).
Proof.
  split; [apply sound_ginit|]. split; [apply complete_ginit|].
  split; [apply closed_cost_ginit|apply entries_ok_init].
Qed.

Lemma a_star_inv_step maze start end_ s s' :
  a_star_inv maze start end_ s → a_star_body maze end_ s = Continue s' →
  a_star_inv maze start end_ s'.
Proof.
  intros (Hs & Hc & Hcl & Hok) Hb.
  pose proof (a_star_body_gstep maze end_ s) as Hstep. rewrite Hb in Hstep.
  simpl in Hstep.
  split; [|split; [|split]].
  - eapply sound_step; [apply code_open_extends|done..].
  - eapply complete_step; done.
  - destruct (heappop (frontier s)) as [[e heap]|] eqn:Hpop.
    + eapply (closed_cost_step maze start end_ (heuristic end_));
        [apply heuristic_adjacent|exact Hc|exact Hcl| |exact Hstep].
      by eapply heappop_popped_min.
    + simpl in Hstep. by apply gstep_Continue_inv in Hstep as (? & ? & ? & ? & _).
  - by eapply entries_ok_step.
Qed.

(** A path returned by [a_star_algorithm] has no more moves than any walk
    from [start] to [end_] that the code could take. *)
Lemma a_star_return_cheapest maze start end_ fuel p n q :
  a_star_algorithm fuel maze start end_ = Some (Return p n) →
  walk (code_open maze) start q end_ → edges p ≤ edges q.
Proof.
  intros Hrun Hq. unfold a_star_algorithm in Hrun.
  enough (∀ o, while (a_star_body maze end_) fuel (a_star_init start end_) = Some o →
               ∀ p n, o = Return p n → edges p ≤ edges q) as H
    by (by eapply H).
  clear Hrun. intros o Ho. pattern o.
  eapply (while_inv (a_star_body maze end_) (a_star_inv maze start end_));
    [| |apply a_star_inv_init|exact Ho].
  - intros s s'. apply a_star_inv_step.
  - intros s o' (Hs & Hc & Hcl & Hok) Hb p' n' ->.
    pose proof (a_star_body_gstep maze end_ s) as Hstep. rewrite Hb in Hstep.
    simpl in Hstep.
    destruct (heappop (frontier s)) as [[e heap]|] eqn:Hpop; simpl in Hstep.
    + apply gstep_Return_inv in Hstep as [_ [(? & _)|([= Hn Hp] & _)]]; [done|].
      pose proof (heappop_popped_min end_ s e heap Hok Hpop) as Hmin.
      rewrite Hn, Hp in Hmin.
      eapply (popped_cheapest maze start (heuristic end_));
        [apply heuristic_adjacent|exact Hc|exact Hcl|exact Hmin| |exact Hq].
      intros Hin. by destruct (sound_visited _ _ _ _ Hs _ Hin).
    + apply gstep_Return_inv in Hstep as [_ [(_ & _ & ->)|([=] & _)]].
      pose proof (walk_edges_nonneg _ _ _ _ Hq). unfold edges at 1. simpl. lia.
Qed.

(** ** The queue of the breadth-first search *)

Lemma queue_levels_init start : queue_levels (frontier (bfs_init start)).
Proof.
  exists 0, [(start, [start])], []. split; [done|].
  split; [by repeat constructor|constructor].
Qed.

(** The front of the queue is a shortest of its paths. *)
Lemma queue_levels_front node path queue :
  queue_levels ((node, path) :: queue) →
  ∀ m p, (m, p) ∈ (node, path) :: queue → edges path ≤ edges p.
Proof.
  intros (k & l1 & l2 & Heq & H1 & H2) m p Hin.
  rewrite Forall_forall in H1. rewrite Forall_forall in H2.
  rewrite Heq in Hin. apply elem_of_app in Hin as [Hin|Hin].
  - pose proof (H1 _ Hin) as Hp.
    destruct l1 as [|x l1]; [by apply elem_of_nil in Hin|].
    injection Heq as <- _.
    pose proof (H1 _ (list_elem_of_here _ _)) as Hx. simpl in *. lia.
  - pose proof (H2 _ Hin) as Hp.
    destruct l1 as [|x l1].
    + simpl in Heq. subst l2.
      pose proof (H2 _ (list_elem_of_here _ _)) as Hx. simpl in *. lia.
    + injection Heq as <- _.
      pose proof (H1 _ (list_elem_of_here _ _)) as Hx. simpl in *. lia.
Qed.

(** Dropping the front and appending paths one move longer than it keeps
    the two levels. *)
Lemma queue_levels_step node path queue new :
  queue_levels ((node, path) :: queue) →
  Forall (λ e, edges e.2 = edges path + 1) new →
  queue_levels (queue ++ new).
Proof.
  intros (k & l1 & l2 & Heq & H1 & H2) Hnew.
  destruct l1 as [|x l1].
  - simpl in Heq. subst l2. apply Forall_cons in H2 as [Hp H2]. simpl in Hp.
    exists (k + 1), queue, new. split; [done|]. split; [done|].
    eapply Forall_impl; [exact Hnew|]. intros e He. simpl in He. lia.
  - injection Heq as <- ->. apply Forall_cons in H1 as [Hp H1]. simpl in Hp.
    exists k, l1, (l2 ++ new). split; [by rewrite app_assoc|]. split; [done|].
    apply Forall_app. split; [done|].
    eapply Forall_impl; [exact Hnew|]. intros e He. simpl in He. lia.
Qed.

Lemma queue_levels_body maze end_ s s' :
  queue_levels (frontier s) → bfs_body maze end_ s = Continue s' →
  queue_levels (frontier s').
Proof.
  intros Hq. unfold bfs_body.
  destruct (frontier s) as [|[node path] queue] eqn:Hfr; [done|]. simpl.
  destruct (decide (node = end_)); [done|].
  destruct (decide (node ∈ visited s)).
  - intros [= <-]. simpl. rewrite <- (app_nil_r queue).
    eapply queue_levels_step; [exact Hq|constructor].
  - pose proof (bfs_for_spec maze ({[node]} ∪ visited s) path (neighbors node) queue)
      as Hfor.
    destruct (bfs_for _ _ _ _ _); [|done].
    destruct Hfor as [_ ->]. intros [= <-]. simpl.
    eapply queue_levels_step; [exact Hq|].
    apply Forall_fmap, Forall_forall. intros nb _. simpl. apply edges_snoc.
Qed.

Lemma bfs_popped_min s node path queue :
  queue_levels (frontier s) → frontier s = (node, path) :: queue →
  popped_min (λ _, 0) s node path.
Proof.
  intros Hq Hfr m p Hin. rewrite Hfr in Hq, Hin.
  pose proof (queue_levels_front node path queue Hq m p Hin). lia.
Qed.

Lemma bfs_inv_step maze start end_ s s' :
  bfs_inv maze start end_ s → bfs_body maze end_ s = Continue s' →
  bfs_inv maze start end_ s'.
Proof.
  intros (Hs & Hc & Hcl & Hq) Hb.
  pose proof (bfs_body_gstep maze end_ s) as Hstep. rewrite Hb in Hstep.
  split; [|split; [|split]].
  - eapply sound_step; [apply code_open_extends|done..].
  - eapply complete_step; done.
  - destruct (frontier s) as [|[node path] queue] eqn:Hfr; simpl in Hstep.
    + by apply gstep_Continue_inv in Hstep as (? & ? & ? & ? & _).
    + eapply (closed_cost_step maze start end_ (λ _, 0));
        [intros; lia|exact Hc|exact Hcl| |exact Hstep].
      eapply bfs_popped_min; [|exact Hfr]. by rewrite Hfr.
  - by eapply queue_levels_body.
Qed.

(** A path returned by [bfs_algorithm] has no more moves than any walk
    from [start] to [end_] that the code could take. *)
Lemma bfs_return_shortest maze start end_ fuel p n q :
  bfs_algorithm fuel maze start end_ = Some (Return p n) →
  walk (code_open maze) start q end_ → edges p ≤ edges q.
Proof.
  intros Hrun Hq. unfold bfs_algorithm in Hrun.
  enough (∀ o, while (bfs_body maze end_) fuel (bfs_init start) = Some o →
               ∀ p n, o = Return p n → edges p ≤ edges q) as H
    by (by eapply H).
  clear Hrun. intros o Ho. pattern o.
  eapply (while_inv (bfs_body maze end_) (bfs_inv maze start end_));
    [| | |exact Ho].
  - intros s s'. apply bfs_inv_step.
  - intros s o' (Hs & Hc & Hcl & Hlv) Hb p' n' ->.
    pose proof (bfs_body_gstep maze end_ s) as Hstep. rewrite Hb in Hstep.
    destruct (frontier s) as [|[node path] queue] eqn:Hfr; simpl in Hstep.
    + apply gstep_Return_inv in Hstep as [_ [(_ & _ & ->)|([=] & _)]].
      pose proof (walk_edges_nonneg _ _ _ _ Hq). unfold edges at 1. simpl. lia.
    + apply gstep_Return_inv in Hstep as [_ [(? & _)|([= -> ->] & _)]]; [done|].
      eapply (popped_cheapest maze start (λ _, 0));
        [intros; lia|exact Hc|exact Hcl| | |exact Hq].
      * eapply bfs_popped_min; [|exact Hfr]. by rewrite Hfr.
      * intros Hin. by destruct (sound_visited _ _ _ _ Hs _ Hin).
  - split; [apply sound_ginit|]. split; [apply complete_ginit|].
    split; [apply closed_cost_ginit|apply queue_levels_init].
Qed.

(** On a guarded grid, with [end_] reachable, [bfs_algorithm] returns a
    valid path with the least number of moves. *)
Lemma bfs_guarded_shortest maze start end_ :
  guarded maze end_ = true → reachable maze start end_ →
  ∃ p n,
    (∀ fuel, (enough_fuel maze start ≤ fuel)%nat →
       bfs_algorithm fuel maze start end_ = Some (Return p n))
    ∧ valid_path maze start end_ p
    ∧ ∀ q, valid_path maze start end_ q → edges p ≤ edges q.
Proof.
  intros Hg [q Hq].
  destruct (search_guarded_result bfs maze start end_ Hg
              (valid_path_start_open _ _ _ _ Hq))
    as (p & n & Hrun & Hiff & Hvalid & _).
  exists p, n. split; [exact Hrun|].
  assert (p ≠ []) as Hne.
  { intros Hp. apply Hiff in Hp. apply Hp. by exists q. }
  split; [by apply Hvalid|].
  intros q' Hq'. eapply bfs_return_shortest; [exact (Hrun _ (le_n _))|].
  eapply walk_mono; [apply is_open_code_open|by apply valid_path_walk].
Qed.

(** The first pass of each search finds [start] on the frontier; when it is
    [end_] the path [[start]] is returned at once. *)
Lemma search_start_is_end alg fuel maze start :
  search alg (S fuel) maze start start = Some (Return [start] 0).
Proof.
  destruct alg; unfold search, dfs_algorithm, a_star_algorithm, bfs_algorithm;
    simpl; unfold dfs_body, a_star_body, bfs_body; simpl;
    destruct (decide (start = start)) as [_|Hne]; done.
Qed.

(** ** What holds when a search is left *)

Lemma simple_ginit start : simple (ginit start).
Proof.
  intros node path [= -> ->]%list_elem_of_singleton. exists [].
  split; [done|]. split; [constructor|].
  intros x Hx. by apply elem_of_nil in Hx.
Qed.

Lemma simple_step maze end_ s e s' :
  simple s → gstep maze end_ s e (Continue s') → simple s'.
Proof.
  intros Hs Hstep.
  apply gstep_Continue_inv in Hstep
    as (node & path & rest & -> & Hperm & Hne &
        [(Hin & Hfr & Hvis & Hcnt)
        |(Hnin & Hvis & Hcnt & _ & new & Hfr & _ & Hnew & _)]).
  - intros n p Hnp. rewrite Hvis. apply Hs. rewrite Hperm.
    apply list_elem_of_further. by rewrite <- Hfr.
  - destruct (Hs node path) as (pre & -> & Hnd & Hpre).
    { rewrite Hperm. apply list_elem_of_here. }
    intros n p Hnp. rewrite Hfr in Hnp. apply elem_of_app in Hnp as [Hnp|Hnp].
    + destruct (Hs n p) as (pre' & -> & Hnd' & Hpre').
      { rewrite Hperm. by apply list_elem_of_further. }
      exists pre'. split; [done|]. split; [done|].
      intros x Hx. rewrite Hvis. apply elem_of_union. right. by apply Hpre'.
    + destruct (Hnew _ Hnp) as (nb & _ & _ & [= -> ->]).
      exists (pre ++ [node]). split; [done|]. split.
      * apply NoDup_app. split; [done|]. split; [|apply NoDup_singleton].
        intros x Hx ->%list_elem_of_singleton. apply Hnin. by apply Hpre.
      * intros x [Hx|Hx]%elem_of_app; rewrite Hvis; apply elem_of_union.
        -- right. by apply Hpre.
        -- left. apply list_elem_of_singleton in Hx. by apply elem_of_singleton.
Qed.

Lemma reached_ginit start ok : reached start ok (ginit start).
Proof. intros v Hv. by apply elem_of_empty in Hv. Qed.

Lemma reached_step maze start end_ ok s e s' :
  sound start end_ ok s → reached start ok s →
  gstep maze end_ s e (Continue s') → reached start ok s'.
Proof.
  intros [Hf _ _] Hr Hstep.
  apply gstep_Continue_inv in Hstep
    as (node & path & rest & -> & Hperm & Hne &
        [(Hin & Hfr & Hvis & Hcnt)
        |(Hnin & Hvis & Hcnt & _)]).
  - intros v. rewrite Hvis. apply Hr.
  - intros v. rewrite Hvis, elem_of_union, elem_of_singleton.
    intros [->|Hv]; [|by apply Hr].
    exists path. apply Hf. rewrite Hperm. apply list_elem_of_here.
Qed.

(** The path that a pass returns holds no coordinate twice, and all of
    its coordinates but the last have been expanded. *)
Lemma gstep_return_simple maze start end_ ok s e path n :
  sound start end_ ok s → simple s →
  gstep maze end_ s e (Break (Return path n)) →
  NoDup path ∧ Z.of_nat (length path) ≤ n + 1.
Proof.
  intros [Hf Hv Hc] Hs Hstep.
  apply gstep_Return_inv in Hstep as [-> [(_ & _ & ->)|(_ & rest & Hperm)]].
  - split; [constructor|]. rewrite Hc. simpl. lia.
  - destruct (Hs end_ path) as (pre & -> & Hnd & Hpre).
    { rewrite Hperm. apply list_elem_of_here. }
    split.
    + apply NoDup_app. split; [done|]. split; [|apply NoDup_singleton].
      intros x Hx ->%list_elem_of_singleton.
      by destruct (Hv _ (Hpre _ Hx)).
    + rewrite Hc, length_app. simpl.
      assert (length pre ≤ size (visited s))%nat; [|lia].
      rewrite <- (size_list_to_set (C := gset coord) pre) by done.
      apply subseteq_size. intros x Hx. apply Hpre.
      by apply elem_of_list_to_set in Hx.
Qed.

(** When the empty path is returned, [visited] holds exactly what can be
    reached from [start]. *)
Lemma gstep_return_empty_visited maze start end_ ok s e n :
  (∀ x, ok x → code_open maze x) →
  sound start end_ ok s → complete maze start s → reached start ok s →
  gstep maze end_ s e (Break (Return [] n)) →
  n = Z.of_nat (size (visited s))
  ∧ ∀ v, v ∈ visited s ↔ ∃ q, walk ok start q v.
Proof.
  intros Hok Hsound Hcomp Hr Hstep.
  apply gstep_Return_inv in Hstep as [-> [(_ & Hnil & _)|(_ & rest & Hperm)]].
  - split; [apply (sound_count _ _ _ _ Hsound)|].
    intros v. split; [apply Hr|].
    intros [q Hq]. eapply complete_exhausted; [done..|].
    eapply walk_mono; [exact Hok|exact Hq].
  - assert (walk ok start [] end_) as Hw.
    { apply (sound_frontier _ _ _ _ Hsound). rewrite Hperm. apply list_elem_of_here. }
    by apply walk_nonempty in Hw.
Qed.

(** The first pass raises when a probe around [start] does. *)
Lemma gstep_first_fault maze start end_ e c nb :
  start ≠ end_ → adjacent start nb → is_dash maze nb = IndexError →
  gstep maze end_ (ginit start) e c → c = Break Raise_IndexError.
Proof.
  intros Hne Hadj Hnb Hstep. destruct c as [s'|[p n|]]; [| |done].
  - apply gstep_Continue_inv in Hstep
      as (node & path & rest & -> & Hperm & _ &
          [(Hin & _)|(_ & _ & _ & Hall & _)]).
    + by apply elem_of_empty in Hin.
    + simpl in Hperm. symmetry in Hperm. apply Permutation_singleton_r in Hperm.
      injection Hperm as -> _ _. by destruct (Hall nb Hadj).
  - apply gstep_Return_inv in Hstep as [_ [(_ & Hnil & _)|(_ & rest & Hperm)]];
      [done|].
    simpl in Hperm. symmetry in Hperm. apply Permutation_singleton_r in Hperm.
    by injection Hperm as <- _ _.
Qed.

Section Final.

Context {St : Type} (body : St → control St) (view : St → search_state node_path).
Context (popped : St → option node_path).
Context (maze : maze_t) (start end_ : coord).
Context (Hsim : ∀ s, gstep maze end_ (view s) (popped s) (control_map view (body s))).
Context (init : St) (Hinit : view init = ginit start).

(** The state in which the loop is left, and the pass that leaves it. *)
Lemma engine_final ok fuel o :
  extends maze start end_ ok →
  while body fuel init = Some o →
  ∃ s e, sound start end_ ok s ∧ complete maze start s ∧ simple s
         ∧ reached start ok s ∧ gstep maze end_ s e (Break o).
Proof.
  intros Hext Hrun. pattern o.
  eapply (while_inv body
            (λ s, sound start end_ ok (view s) ∧ complete maze start (view s)
                  ∧ simple (view s) ∧ reached start ok (view s)));
    [| | |exact Hrun].
  - intros s s' (Hs & Hc & Hp & Hr) E.
    pose proof (engine_Continue _ _ _ _ _ Hsim _ _ E) as Hstep.
    split; [by eapply sound_step|]. split; [by eapply complete_step|].
    split; [by eapply simple_step|by eapply reached_step].
  - intros s o' (Hs & Hc & Hp & Hr) E.
    pose proof (engine_Break _ _ _ _ _ Hsim _ _ E) as Hstep.
    exists (view s), (popped s). done.
  - rewrite Hinit. split; [apply sound_ginit|]. split; [apply complete_ginit|].
    split; [apply simple_ginit|apply reached_ginit].
Qed.

Lemma engine_first_fault fuel nb :
  start ≠ end_ → adjacent start nb → is_dash maze nb = IndexError →
  while body (S fuel) init = Some Raise_IndexError.
Proof.
  intros Hne Hadj Hnb. simpl.
  pose proof (Hsim init) as Hstep. rewrite Hinit in Hstep.
  apply (gstep_first_fault _ _ _ _ _ nb Hne Hadj Hnb) in Hstep.
  destruct (body init); [done|]. by injection Hstep as ->.
Qed.

End Final.

Lemma search_final alg ok fuel maze start end_ o :
  extends maze start end_ ok →
  search alg fuel maze start end_ = Some o →
  ∃ s e, sound start end_ ok s ∧ complete maze start s ∧ simple s
         ∧ reached start ok s ∧ gstep maze end_ s e (Break o).
Proof.
  destruct alg.
  - exact (engine_final _ _ _ maze start end_ (dfs_sim maze end_)
             (dfs_init start) eq_refl ok fuel o).
  - exact (engine_final _ _ _ maze start end_ (a_star_body_gstep maze end_)
             (a_star_init start end_) eq_refl ok fuel o).
  - exact (engine_final _ _ _ maze start end_ (bfs_sim maze end_)
             (bfs_init start) eq_refl ok fuel o).
Qed.

Lemma search_first_fault alg fuel maze start end_ nb :
  start ≠ end_ → adjacent start nb → is_dash maze nb = IndexError →
  search alg (S fuel) maze start end_ = Some Raise_IndexError.
Proof.
  destruct alg.
  - exact (engine_first_fault _ _ _ maze start end_ (dfs_sim maze end_)
             (dfs_init start) eq_refl fuel nb).
  - exact (engine_first_fault _ _ _ maze start end_ (a_star_body_gstep maze end_)
             (a_star_init start end_) eq_refl fuel nb).
  - exact (engine_first_fault _ _ _ maze start end_ (bfs_sim maze end_)
             (bfs_init start) eq_refl fuel nb).
Qed.

(** A returned path holds no coordinate twice and is at most one longer
    than the count returned with it. *)
Lemma search_return_simple alg fuel maze start end_ p n :
  search alg fuel maze start end_ = Some (Return p n) →
  NoDup p ∧ Z.of_nat (length p) ≤ n + 1.
Proof.
  intros Hrun.
  destruct (search_final alg _ _ _ _ _ _ (code_open_extends maze start end_) Hrun)
    as (s & e & Hs & _ & Hp & _ & Hstep).
  by eapply gstep_return_simple.
Qed.

(** With the empty path comes the number of coordinates that can be
    reached from [start]. *)
Lemma search_return_empty_cells alg ok fuel maze start end_ n :
  extends maze start end_ ok → (∀ x, ok x → code_open maze x) →
  search alg fuel maze start end_ = Some (Return [] n) →
  ∃ cells : gset coord,
    n = Z.of_nat (size cells) ∧ ∀ v, v ∈ cells ↔ ∃ q, walk ok start q v.
Proof.
  intros Hext Hok Hrun.
  destruct (search_final alg _ _ _ _ _ _ Hext Hrun)
    as (s & e & Hs & Hc & _ & Hr & Hstep).
  exists (visited s). by eapply gstep_return_empty_visited.
Qed.

(** A path returned by the breadth-first search or by A-star has no more
    moves than any walk that the code could take. *)
Lemma search_return_shortest alg maze start end_ fuel p n q :
  alg ≠ dfs →
  search alg fuel maze start end_ = Some (Return p n) →
  walk (code_open maze) start q end_ → edges p ≤ edges q.
Proof.
  destruct alg; [done| |]; intros _.
  - apply a_star_return_cheapest.
  - apply bfs_return_shortest.
Qed.

Lemma reachable_walk maze start v :
  is_open maze start →
  reachable maze start v ↔ ∃ q, walk (is_open maze) start q v.
Proof.
  intros Hs. split.
  - intros [q Hq]. exists q. by apply valid_path_walk.
  - intros [q Hq]. exists q. by apply walk_valid_path.
Qed.

Lemma size_le_length (vis : gset coord) (l : list coord) :
  (∀ v, v ∈ vis → v ∈ l) → (size vis ≤ length l)%nat.
Proof.
  intros Hsub. unfold size, set_size. simpl.
  apply submseteq_length, NoDup_submseteq; [apply NoDup_elements|].
  intros x Hx. apply Hsub. by apply elem_of_elements.
Qed.

(** On a guarded grid the count returned is at most the number of Open
    cells, and less when a path is returned. *)
Lemma search_count_open_cells alg fuel maze start end_ p n :
  guarded maze end_ = true → is_open maze start →
  search alg fuel maze start end_ = Some (Return p n) →
  n ≤ Z.of_nat (length (open_cells maze))
  ∧ (p ≠ [] → n < Z.of_nat (length (open_cells maze))).
Proof.
  intros Hg Hs Hrun.
  destruct (search_final alg _ _ _ _ _ _ (guarded_extends _ _ _ Hg Hs) Hrun)
    as (s & e & Hsound & _ & _ & _ & Hstep).
  rewrite (gstep_return_count _ _ _ _ _ _ _ _ Hsound Hstep).
  assert (∀ v, v ∈ visited s → v ∈ open_cells maze) as Hsub.
  { intros v Hv. destruct (sound_visited _ _ _ _ Hsound v Hv) as [_ Hor].
    assert (is_open maze v) as Hopen by (by destruct Hor as [->|?]).
    apply list_elem_of_filter. split; [done|].
    apply elem_of_grid_coords. unfold is_open in Hopen. rewrite Hopen. eauto. }
  split.
  - apply inj_le, size_le_length, Hsub.
  - intros Hne.
    pose proof (gstep_return_walk _ _ _ _ _ _ _ _ Hsound Hstep Hne) as Hw.
    assert (is_open maze end_) as Hend.
    { by destruct (walk_end_ok _ _ _ _ Hw) as [->|?]. }
    assert (end_ ∉ visited s) as Hnin.
    { intros Hin. by destruct (sound_visited _ _ _ _ Hsound _ Hin). }
    assert (size ({[end_]} ∪ visited s) ≤ length (open_cells maze))%nat as Hle.
    { apply size_le_length. intros v [Hv|Hv]%elem_of_union; [|by apply Hsub].
      apply elem_of_singleton in Hv as ->.
      apply list_elem_of_filter. split; [done|].
      apply elem_of_grid_coords. unfold is_open in Hend. rewrite Hend. eauto. }
    rewrite size_visited_insert in Hle by done. lia.
Qed.

Lemma heuristic_walk ok end_ node q :
  walk ok node q end_ → heuristic end_ node ≤ edges q.
Proof.
  induction 1 as [|q b c Hw IH Hadj _].
  - unfold heuristic, edges. simpl. lia.
  - rewrite edges_snoc.
    unfold heuristic in *. unfold adjacent in Hadj.
    destruct node as [r0 c0], b as [r1 c1], c as [r2 c2]. simpl in *. lia.
Qed.

Lemma linked_walk (ok : coord → Prop) a b p :
  head p = Some a → last p = Some b → Forall ok p → linked p → walk ok a p b.
Proof.
  revert b. induction p as [|c p IH] using rev_ind; intros b Hh Hl HF Hlk; [done|].
  rewrite last_snoc in Hl. injection Hl as ->.
  apply Forall_app in HF as [HF Hc]. rewrite Forall_singleton in Hc.
  apply linked_snoc in Hlk as [Hlk Hadj].
  destruct (last p) as [x|] eqn:Ex.
  - apply walk_step with x; [|done..].
    apply IH; [|done..]. destruct p; [done|]. done.
  - apply last_None in Ex as ->. simpl in Hh. injection Hh as ->. constructor.
Qed.

Lemma a_star_inv_iter maze start end_ k s :
  iter (a_star_body maze end_) k (a_star_init start end_) = Some s →
  a_star_inv maze start end_ s.
Proof.
  apply (iter_inv (a_star_body maze end_) (a_star_inv maze start end_)).
  - intros s1 s2. apply a_star_inv_step.
  - apply a_star_inv_init.
Qed.

Lemma bfs_inv_iter maze start end_ k s :
  iter (bfs_body maze end_) k (bfs_init start) = Some s →
  bfs_inv maze start end_ s.
Proof.
  apply (iter_inv (bfs_body maze end_) (bfs_inv maze start end_)).
  - intros s1 s2. apply bfs_inv_step.
  - split; [apply sound_ginit|]. split; [apply complete_ginit|].
    split; [apply closed_cost_ginit|apply queue_levels_init].
Qed.

(** In a queue of two levels the paths come in the order of their length. *)
Lemma queue_levels_ordered queue i j (e1 e2 : node_path) :
  queue_levels queue → (i ≤ j)%nat →
  queue !! i = Some e1 → queue !! j = Some e2 →
  (length e1.2 ≤ length e2.2 ≤ length e1.2 + 1)%nat.
Proof.
  intros (k & l1 & l2 & -> & H1 & H2) Hij Hi Hj.
  apply lookup_app_Some in Hi as [Hi|[Hli Hi]];
    apply lookup_app_Some in Hj as [Hj|[Hlj Hj]].
  - pose proof (Forall_lookup_1 _ _ _ _ H1 Hi) as E1.
    pose proof (Forall_lookup_1 _ _ _ _ H1 Hj) as E2.
    unfold edges in *. simpl in *. lia.
  - pose proof (Forall_lookup_1 _ _ _ _ H1 Hi) as E1.
    pose proof (Forall_lookup_1 _ _ _ _ H2 Hj) as E2.
    unfold edges in *. simpl in *. lia.
  - apply lookup_lt_Some in Hj. lia.
  - pose proof (Forall_lookup_1 _ _ _ _ H2 Hi) as E1.
    pose proof (Forall_lookup_1 _ _ _ _ H2 Hj) as E2.
    unfold edges in *. simpl in *. lia.
Qed.

(** The probe raises exactly when the row subscript or the column
    subscript lies outside Python's range for its list. *)
Lemma is_dash_IndexError_range maze nb :
  is_dash maze nb = IndexError ↔
  (nb.1 < - Z.of_nat (length maze) ∨ Z.of_nat (length maze) ≤ nb.1)
  ∨ ∃ row, getitem maze nb.1 = Value row
           ∧ (nb.2 < - Z.of_nat (length row) ∨ Z.of_nat (length row) ≤ nb.2).
Proof.
  rewrite is_dash_IndexError, getitem_IndexError.
  split; (intros [H|(row & Hrow & H)]; [by left|right]); exists row;
    (split; [done|]); by apply getitem_IndexError.
Qed.

(** ** Text *)

Lemma lstrip_app_space ws s :
  Forall (λ c, isspace c = true) ws → lstrip (ws ++ s) = lstrip s.
Proof.
  induction 1 as [|c ws Hc _ IH]; [done|]. simpl. by rewrite Hc.
Qed.

Lemma lstrip_blank s : Forall (λ c, isspace c = true) s → lstrip s = [].
Proof. intros H. rewrite <- (app_nil_r s). by rewrite lstrip_app_space. Qed.

Lemma lstrip_nonspace c s : isspace c = false → lstrip (c :: s) = c :: s.
Proof. intros H. simpl. by rewrite H. Qed.

Lemma lstrip_nil_inv s : lstrip s = [] → Forall (λ c, isspace c = true) s.
Proof.
  induction s as [|c s IH]; [constructor|]. simpl.
  destruct (isspace c) eqn:E; [|done]. intros H. constructor; [done|by apply IH].
Qed.

(** What [lstrip] leaves is a suffix that does not start with whitespace. *)
Lemma lstrip_spec s :
  ∃ ws, s = ws ++ lstrip s ∧ Forall (λ c, isspace c = true) ws
        ∧ match lstrip s with c :: _ => isspace c = false | [] => True end.
Proof.
  induction s as [|c s (ws & Hs & Hws & Hhd)]; [by exists []|]. simpl.
  destruct (isspace c) eqn:E.
  - exists (c :: ws). split; [simpl; by f_equal|]. split; [by constructor|done].
  - exists []. done.
Qed.

Lemma rstrip_snoc_space s ws :
  Forall (λ c, isspace c = true) ws → rstrip (s ++ ws) = rstrip s.
Proof.
  intros H. unfold rstrip. rewrite reverse_app, lstrip_app_space; [done|].
  by apply Forall_reverse.
Qed.

Lemma rstrip_snoc_nonspace s c : isspace c = false → rstrip (s ++ [c]) = s ++ [c].
Proof.
  intros H. unfold rstrip. rewrite reverse_snoc, lstrip_nonspace by done.
  by rewrite reverse_cons, reverse_involutive.
Qed.

Lemma strip_blank s : Forall (λ c, isspace c = true) s → strip s = [].
Proof. intros H. unfold strip. by rewrite lstrip_blank. Qed.

Lemma strip_nil_inv s : strip s = [] → Forall (λ c, isspace c = true) s.
Proof.
  unfold strip, rstrip. intros H.
  apply (f_equal reverse) in H. rewrite reverse_involutive in H. simpl in H.
  apply lstrip_nil_inv, Forall_reverse in H. rewrite reverse_involutive in H.
  destruct (lstrip_spec s) as (ws & Hs & Hws & Hhd).
  destruct (lstrip s) as [|c t].
  - rewrite app_nil_r in Hs. by subst.
  - apply Forall_cons in H as [Hc _]. congruence.
Qed.

(** Characters that are not whitespace survive [strip]. *)
Lemma elem_of_lstrip c s : c ∈ s → isspace c = false → c ∈ lstrip s.
Proof.
  induction s as [|x s IH]; [done|]. intros Hin Hc. simpl.
  destruct (isspace x) eqn:E; [|done].
  apply elem_of_cons in Hin as [->|Hin]; [congruence|by apply IH].
Qed.

Lemma elem_of_strip c s : c ∈ s → isspace c = false → c ∈ strip s.
Proof.
  intros Hin Hc. unfold strip, rstrip.
  rewrite elem_of_reverse. apply elem_of_lstrip; [|done].
  rewrite elem_of_reverse. by apply elem_of_lstrip.
Qed.

Lemma lstrip_app_nonspace a t :
  Exists (λ x, isspace x = false) a → lstrip (a ++ t) = lstrip a ++ t.
Proof.
  induction a as [|x a IH]; intros H; [by apply Exists_nil in H|].
  simpl. destruct (isspace x) eqn:E; [|done].
  apply IH. apply Exists_cons in H as [H|H]; [congruence|done].
Qed.

Lemma replace_spaces_blank line :
  Forall (λ c, isspace c = true) line →
  Forall (λ c, isspace c = true) (replace_spaces line).
Proof.
  intros H. apply Forall_forall. intros c Hc.
  apply list_elem_of_filter in Hc as [_ Hc]. rewrite Forall_forall in H. by apply H.
Qed.

(** A line is blank exactly when nothing of it is left. *)
Lemma blank_strip line : blank line = true ↔ strip (replace_spaces line) = [].
Proof.
  unfold blank. rewrite forallb_forall. split.
  - intros H. apply strip_blank, replace_spaces_blank, Forall_forall.
    intros c Hc. by apply H, list_elem_of_In.
  - intros H c Hc%list_elem_of_In. apply strip_nil_inv in H.
    rewrite Forall_forall in H.
    destruct (decide (c = ord " ")) as [->|Hne]; [done|].
    apply H, list_elem_of_filter. done.
Qed.

(** Whitespace between two characters that are not whitespace is not
    stripped. *)
Lemma inner_whitespace_stays a c b :
  Exists (λ x, isspace x = false) a → Exists (λ x, isspace x = false) b →
  c ≠ ord " " → c ∈ strip (replace_spaces (a ++ [c] ++ b)).
Proof.
  intros Ha Hb Hc.
  assert (∀ s, Exists (λ x, isspace x = false) s →
               Exists (λ x, isspace x = false) (replace_spaces s)) as Hkeep.
  { intros s (x & Hx & Hsp)%Exists_exists. apply Exists_exists. exists x.
    split; [|done]. apply list_elem_of_filter. split; [|done]. by intros ->. }
  unfold replace_spaces at 1. rewrite !filter_app, filter_cons, decide_True by done.
  rewrite filter_nil.
  fold (replace_spaces a). fold (replace_spaces b).
  apply Hkeep in Ha, Hb. revert Ha Hb.
  generalize (replace_spaces a) (replace_spaces b). clear. intros a b Ha Hb.
  unfold strip, rstrip. rewrite lstrip_app_nonspace by done.
  rewrite !reverse_app, <- app_assoc.
  rewrite lstrip_app_nonspace.
  2:{ apply Exists_exists in Hb as (x & Hx & Hsp). apply Exists_exists.
      exists x. split; [by apply elem_of_reverse|done]. }
  rewrite elem_of_reverse, !elem_of_app. right. left.
  rewrite reverse_singleton. apply list_elem_of_here.
Qed.

(** ** [convert_to_list] *)

Lemma elem_of_hash_dash c : c ∈ [ord "#"; ord "-"] ↔ c = ord "#" ∨ c = ord "-".
Proof. rewrite !elem_of_cons, elem_of_nil. tauto. Qed.

Lemma chr_cell c :
  c = ord "#" ∨ c = ord "-" →
  (chr c = "#" ∨ chr c = "-")%string ∧ str_of (chr c) = [c].
Proof. intros [->| ->]; (split; [|reflexivity]); [by left|by right]. Qed.

Lemma ord_cell (cell : string) :
  cell = "#"%string ∨ cell = "-"%string →
  (ord cell = ord "#" ∨ ord cell = ord "-") ∧ chr (ord cell) = cell
  ∧ str_of cell = [ord cell].
Proof. intros [->| ->]; (split; [|done]); [by left|by right]. Qed.

Lemma convert_chars_spec chars row :
  convert_chars chars row =
    if decide (Forall (λ c, c = ord "#" ∨ c = ord "-") chars)
    then Some (row ++ (chr <$> chars)) else None.
Proof.
  revert row. induction chars as [|c chars IH]; intros row.
  - destruct (decide _) as [_|H]; [|by destruct H].
    simpl. by rewrite app_nil_r.
  - cbn [convert_chars]. rewrite IH.
    destruct (decide (c ∈ [ord "#"; ord "-"])) as [Hc|Hc].
    + rewrite bool_decide_eq_true_2 by done.
      apply elem_of_hash_dash in Hc.
      destruct (decide (Forall _ chars)) as [HF|HF];
        destruct (decide (Forall _ (c :: chars))) as [HF'|HF'].
      * unfold append. rewrite <- app_assoc. done.
      * destruct HF'. by constructor.
      * by apply Forall_cons in HF' as [_ ?].
      * done.
    + rewrite bool_decide_eq_false_2 by done.
      destruct (decide (Forall _ (c :: chars))) as [HF'|HF']; [|done].
      apply Forall_cons in HF' as [? _]. by destruct Hc; apply elem_of_hash_dash.
Qed.

(** The rows that the lines stand for: one for each line that is not
    blank. *)
Lemma convert_lines_spec maze_lines maze :
  convert_lines maze_lines maze =
    if decide (Forall (λ line, Forall (λ c, c = ord "#" ∨ c = ord "-")
                                 (strip (replace_spaces line))) maze_lines)
    then Converted (maze ++ ((λ line, chr <$> strip (replace_spaces line))
                             <$> filter (λ line, blank line = false) maze_lines))
    else Restart.
Proof.
  revert maze. induction maze_lines as [|line lines IH]; intros maze.
  - destruct (decide _) as [_|H]; [|by destruct H].
    simpl. by rewrite app_nil_r.
  - cbn [convert_lines]. rewrite convert_chars_spec.
    destruct (decide (Forall _ (strip (replace_spaces line)))) as [Hl|Hl].
    + rewrite IH.
      destruct (decide (Forall _ lines)) as [HF|HF];
        destruct (decide (Forall _ (line :: lines))) as [HF'|HF'].
      * rewrite filter_cons. f_equal.
        destruct (strip (replace_spaces line)) as [|c chars] eqn:E.
        -- apply blank_strip in E. rewrite decide_False by congruence. done.
        -- assert (blank line = false) as Hb.
           { destruct (blank line) eqn:Eb; [|done].
             apply blank_strip in Eb. congruence. }
           rewrite decide_True by done. simpl. rewrite E.
           unfold append. rewrite <- app_assoc. done.
      * destruct HF'. by constructor.
      * by apply Forall_cons in HF' as [_ ?].
      * done.
    + destruct (decide (Forall _ (line :: lines))) as [HF'|HF']; [|done].
      by apply Forall_cons in HF' as [? _].
Qed.

Lemma spell_cons cell row : spell (cell :: row) = str_of cell ++ spell row.
Proof. reflexivity. Qed.

Lemma spell_chr chars :
  Forall (λ c, c = ord "#" ∨ c = ord "-") chars → spell (chr <$> chars) = chars.
Proof.
  induction 1 as [|c chars Hc _ IH]; [done|].
  rewrite fmap_cons, spell_cons, (proj2 (chr_cell c Hc)), IH. done.
Qed.

Lemma convert_to_list_Restart maze_lines :
  convert_to_list maze_lines = Restart ↔
  ∃ line c, line ∈ maze_lines ∧ c ∈ strip (replace_spaces line)
            ∧ c ≠ ord "#" ∧ c ≠ ord "-".
Proof.
  unfold convert_to_list. rewrite convert_lines_spec.
  destruct (decide _) as [HF|HF].
  - split; [done|]. intros (line & c & Hline & Hc & H1 & H2).
    rewrite Forall_forall in HF. specialize (HF _ Hline).
    rewrite Forall_forall in HF. destruct (HF _ Hc); done.
  - split; [intros _|done].
    apply not_Forall_Exists in HF; [|apply _].
    apply Exists_exists in HF as (line & Hline & Hl).
    apply not_Forall_Exists in Hl; [|apply _].
    apply Exists_exists in Hl as (c & Hc & Hne).
    exists line, c. split; [done|]. split; [done|].
    split; intros ?; apply Hne; [by left|by right].
Qed.

Lemma filter_idemp {A} (P : A → Prop) `{∀ x, Decision (P x)} (l : list A) :
  filter P (filter P l) = filter P l.
Proof.
  induction l as [|x l IH]; [done|]. rewrite filter_cons.
  destruct (decide (P x)) as [Hx|Hx]; [|done].
  rewrite filter_cons, decide_True by done. by f_equal.
Qed.

Lemma filter_all_false {A} (P : A → Prop) `{∀ x, Decision (P x)} (l : list A) :
  (∀ x, x ∈ l → ¬ P x) → filter P l = [].
Proof.
  induction l as [|x l IH]; intros H0; [done|].
  rewrite filter_cons, decide_False by (apply H0, list_elem_of_here).
  apply IH. intros y Hy. by apply H0, list_elem_of_further.
Qed.

Lemma convert_to_list_empty maze_lines :
  convert_to_list maze_lines = Converted [] ↔
  Forall (λ line, blank line = true) maze_lines.
Proof.
  unfold convert_to_list. rewrite convert_lines_spec. split.
  - destruct (decide _) as [_|]; [|done]. intros [= H].
    apply fmap_nil_inv in H. apply Forall_forall. intros line Hline.
    destruct (blank line) eqn:Hb; [done|].
    by destruct (filter_nil_not_elem_of _ _ line H Hb).
  - intros Hb. rewrite Forall_forall in Hb. rewrite decide_True.
    + rewrite filter_all_false; [done|]. intros line Hline. rewrite (Hb _ Hline). done.
    + apply Forall_forall. intros line Hline.
      rewrite (proj1 (blank_strip line) (Hb _ Hline)). constructor.
Qed.

(** ** [write_path_to_file] and [read_file] *)

Lemma write_cells_spec path i j row file :
  write_cells path i j row file = file ++ cells_text path i j row.
Proof.
  revert j file. induction row as [|cell row IH]; intros j file; simpl.
  - by rewrite app_nil_r.
  - rewrite IH, <- app_assoc. done.
Qed.

Lemma write_rows_spec path i maze file :
  write_rows path i maze file = file ++ mjoin (rows_lines path i maze).
Proof.
  revert i file. induction maze as [|row maze IH]; intros i file; simpl.
  - by rewrite app_nil_r.
  - rewrite IH, write_cells_spec, <- !app_assoc. done.
Qed.

(** [readlines] gives back the lines of a text made of lines. *)
Lemma readlines_app line text acc :
  newline ∉ line →
  readlines (line ++ newline :: text) acc = (acc ++ line ++ [newline]) :: readlines text [].
Proof.
  revert acc. induction line as [|c line IH]; intros acc Hn.
  - cbn [readlines app]. by destruct (decide (newline = newline)).
  - apply not_elem_of_cons in Hn as [Hc Hn]. cbn [readlines app].
    destruct (decide (c = newline)) as [->|_]; [done|].
    rewrite IH by done. by rewrite <- app_assoc.
Qed.

Lemma cells_text_marks path i j row :
  Forall (λ cell, cell = "#" ∨ cell = "-")%string row →
  cells_text path i j row = mjoin ((λ m, [m; ord " "]) <$> marks path i j row).
Proof.
  intros H. revert j. induction H as [|cell row Hc _ IH]; intros j; [done|].
  simpl. rewrite IH. unfold mark.
  destruct (bool_decide ((i, j) ∈ path)); [done|].
  destruct (ord_cell cell Hc) as (_ & _ & ->). done.
Qed.

Lemma marks_no_space path i j row :
  Forall (λ cell, cell = "#" ∨ cell = "-")%string row →
  Forall (λ c, isspace c = false ∧ c ≠ newline ∧ c ≠ ord " ") (marks path i j row).
Proof.
  intros H. revert j. induction H as [|cell row Hc _ IH]; intros j; [constructor|].
  simpl. constructor; [|apply IH]. unfold mark.
  destruct (bool_decide ((i, j) ∈ path)); [done|].
  by destruct Hc as [->| ->].
Qed.

Lemma replace_spaces_interleave ms :
  Forall (λ c, c ≠ ord " ") ms →
  replace_spaces (mjoin ((λ m, [m; ord " "]) <$> ms)) = ms.
Proof.
  unfold replace_spaces. induction 1 as [|m ms Hm _ IH]; [done|]. simpl.
  rewrite filter_cons, decide_True by done.
  rewrite filter_cons, decide_False by (intros H; by apply H).
  by f_equal.
Qed.

(** What [convert_to_list] reads in a written line. *)
Lemma written_line_cells path i j row :
  Forall (λ cell, cell = "#" ∨ cell = "-")%string row →
  strip (replace_spaces (cells_text path i j row ++ [newline])) = marks path i j row.
Proof.
  intros H. pose proof (marks_no_space path i j row H) as Hm.
  rewrite (cells_text_marks _ _ _ _ H).
  unfold replace_spaces at 1. rewrite filter_app.
  fold (replace_spaces (mjoin ((λ m, [m; ord " "]) <$> marks path i j row))).
  rewrite replace_spaces_interleave
    by (eapply Forall_impl; [exact Hm|]; simpl; tauto).
  rewrite filter_cons, decide_True by done. rewrite filter_nil.
  generalize dependent (marks path i j row). intros ms Hm.
  destruct ms as [|c ms]; [done|]. unfold strip.
  assert (lstrip ((c :: ms) ++ [newline]) = (c :: ms) ++ [newline]) as ->.
  { apply Forall_cons in Hm as [[Hc _] _]. simpl. by rewrite Hc. }
  rewrite rstrip_snoc_space by (by repeat constructor).
  revert Hm. generalize (c :: ms). clear. intros ms Hm.
  destruct ms as [|c ms _] using rev_ind; [done|].
  apply Forall_app in Hm as [_ Hc]. rewrite Forall_singleton in Hc.
  apply rstrip_snoc_nonspace. tauto.
Qed.

Lemma newline_not_in_cells_text path i j row :
  Forall (λ cell, cell = "#" ∨ cell = "-")%string row →
  newline ∉ cells_text path i j row.
Proof.
  intros H. revert j. induction H as [|cell row Hc _ IH]; intros j; simpl.
  - apply not_elem_of_nil.
  - intros [Hin|Hin]%elem_of_app; [|by apply (IH (j + 1))].
    destruct (bool_decide ((i, j) ∈ path)).
    + by repeat (apply elem_of_cons in Hin as [Hin|Hin]; [done|]);
        apply elem_of_nil in Hin.
    + destruct Hc as [->| ->];
        by repeat (apply elem_of_cons in Hin as [Hin|Hin]; [done|]);
          apply elem_of_nil in Hin.
Qed.

(** The lines read from the written text are the lines written. *)
Lemma read_written path i maze :
  well_formed maze →
  read_file (mjoin (rows_lines path i maze)) = rows_lines path i maze.
Proof.
  unfold read_file. intros H. revert i.
  induction H as [|row maze [_ Hrow] _ IH]; intros i; [done|].
  cbn [rows_lines].
  change (mjoin ((?b ++ [newline]) :: ?l)) with ((b ++ [newline]) ++ mjoin l).
  rewrite <- app_assoc. cbn [app].
  rewrite readlines_app by (by apply newline_not_in_cells_text).
  cbn [app]. by rewrite IH.
Qed.

Lemma read_file_written maze path :
  well_formed maze →
  read_file (write_path_to_file maze path) = rows_lines path 0 maze.
Proof.
  intros H. unfold write_path_to_file. rewrite write_rows_spec. cbn [app].
  by apply read_written.
Qed.

Lemma marks_none path i j row :
  (∀ k, (k < length row)%nat → (i, j + Z.of_nat k) ∉ path) →
  marks path i j row = ord <$> row.
Proof.
  revert j. induction row as [|cell row IH]; intros j H; [done|]. simpl.
  unfold mark. rewrite bool_decide_eq_false_2.
  - f_equal. apply IH. intros k Hk.
    replace (j + 1 + Z.of_nat k) with (j + Z.of_nat (S k)) by lia.
    apply H. simpl. lia.
  - replace j with (j + Z.of_nat 0) by lia. apply H. simpl. lia.
Qed.

Lemma marks_some path i j row k :
  (k < length row)%nat → (i, j + Z.of_nat k) ∈ path →
  ord "@" ∈ marks path i j row.
Proof.
  revert j k. induction row as [|cell row IH]; intros j k Hk Hin; [simpl in Hk; lia|].
  simpl. destruct k as [|k].
  - replace (j + Z.of_nat 0) with j in Hin by lia.
    unfold mark. rewrite bool_decide_eq_true_2 by done. apply list_elem_of_here.
  - apply list_elem_of_further, (IH (j + 1) k); [simpl in Hk; lia|].
    by replace (j + 1 + Z.of_nat k) with (j + Z.of_nat (S k)) by lia.
Qed.

Lemma chr_ord_row row :
  Forall (λ cell, cell = "#" ∨ cell = "-")%string row →
  Forall (λ c, c = ord "#" ∨ c = ord "-") (ord <$> row)
  ∧ chr <$> (ord <$> row) = row.
Proof.
  induction 1 as [|cell row Hc _ [IH1 IH2]]; [by split|].
  destruct (ord_cell cell Hc) as (Ho & Hchr & _).
  rewrite !fmap_cons, Hchr, IH2. split; [by constructor|done].
Qed.

Lemma convert_written path i maze acc :
  well_formed maze →
  (∀ k row j, maze !! k = Some row → (j < length row)%nat →
     (i + Z.of_nat k, Z.of_nat j) ∉ path) →
  convert_lines (rows_lines path i maze) acc = Converted (acc ++ maze).
Proof.
  intros H. revert i acc.
  induction H as [|row maze [Hne Hrow] _ IH]; intros i acc Hpath.
  - simpl. by rewrite app_nil_r.
  - cbn [rows_lines convert_lines].
    rewrite written_line_cells by done.
    rewrite marks_none.
    + destruct (chr_ord_row row Hrow) as [HF Hchr].
      rewrite convert_chars_spec, decide_True by done. rewrite Hchr. cbn [app].
      destruct row as [|cell row]; [done|].
      rewrite IH.
      * unfold append. by rewrite <- app_assoc.
      * intros k row' j Hk Hj.
        replace (i + 1 + Z.of_nat k) with (i + Z.of_nat (S k)) by lia.
        by apply (Hpath (S k) row' j).
    + intros k Hk. replace i with (i + Z.of_nat 0) by lia.
      rewrite Z.add_0_l. by apply (Hpath 0%nat row k).
Qed.

Lemma convert_written_Restart path i maze acc k row j :
  well_formed maze → maze !! k = Some row → (j < length row)%nat →
  (i + Z.of_nat k, Z.of_nat j) ∈ path →
  convert_lines (rows_lines path i maze) acc = Restart.
Proof.
  intros H. revert i acc k.
  induction H as [|row0 maze [Hne Hrow] _ IH]; intros i acc k Hk Hj Hin; [done|].
  cbn [rows_lines convert_lines].
  rewrite written_line_cells by done. rewrite convert_chars_spec.
  destruct k as [|k].
  - injection Hk as ->. rewrite decide_False; [done|].
    intros HF. rewrite Forall_forall in HF.
    replace (i + Z.of_nat 0) with i in Hin by lia.
    destruct (HF (ord "@")); [|done..].
    apply (marks_some path i 0 row j); [done|]. by rewrite Z.add_0_l.
  - destruct (decide _); [|done].
    apply (IH (i + 1) _ k); [done..|].
    by replace (i + 1 + Z.of_nat k) with (i + Z.of_nat (S k)) by lia.
Qed.

Lemma elem_of_grid_coords_lookup maze (p : coord) :
  p ∈ grid_coords maze ↔
  ∃ k row j, p = (Z.of_nat k, Z.of_nat j) ∧ maze !! k = Some row ∧ (j < length row)%nat.
Proof.
  rewrite elem_of_grid_coords. unfold cell_at. destruct p as [r c]. simpl. split.
  - destruct (Z.leb_spec 0 r); [|by intros [? ?]].
    destruct (Z.leb_spec 0 c); [|by intros [? ?]]. simpl.
    destruct (maze !! Z.to_nat r) as [row|] eqn:Hrow; [|by intros [? ?]]. simpl.
    intros Hc%lookup_lt_is_Some_1.
    exists (Z.to_nat r), row, (Z.to_nat c). split; [f_equal; lia|done].
  - intros (k & row & j & [= -> ->] & Hrow & Hj).
    destruct (Z.leb_spec 0 (Z.of_nat k)); [|lia].
    destruct (Z.leb_spec 0 (Z.of_nat j)); [|lia]. simpl.
    rewrite !Nat2Z.id, Hrow. simpl. by apply lookup_lt_is_Some_2.
Qed.

(** A maze written with a path that marks none of its cells is read back
    as it was. *)
Lemma convert_read_written maze path :
  well_formed maze → (∀ c, c ∈ path → c ∉ grid_coords maze) →
  convert_to_list (read_file (write_path_to_file maze path)) = Converted maze.
Proof.
  intros Hwf Hpath. rewrite read_file_written by done.
  unfold convert_to_list. rewrite convert_written; [done..|].
  intros k row j Hk Hj Hin. apply (Hpath _ Hin).
  apply elem_of_grid_coords_lookup. exists k, row, j. by rewrite Z.add_0_l.
Qed.

(** A maze written with a path that marks one of its cells is rejected
    when it is read back. *)
Lemma written_solution_rejected maze path c :
  well_formed maze → c ∈ path → c ∈ grid_coords maze →
  convert_to_list (read_file (write_path_to_file maze path)) = Restart.
Proof.
  intros Hwf Hin (k & row & j & -> & Hk & Hj)%elem_of_grid_coords_lookup.
  rewrite read_file_written by done.
  apply (convert_written_Restart path 0 maze [] k row j); [done..|].
  by rewrite Z.add_0_l.
Qed.

Lemma rows_lines_lookup path i maze k :
  rows_lines path i maze !! k
  = (λ row, cells_text path (i + Z.of_nat k) 0 row ++ [newline]) <$> maze !! k.
Proof.
  revert i k. induction maze as [|row maze IH]; intros i k; [done|].
  destruct k as [|k]; simpl.
  - by rewrite Z.add_0_r.
  - rewrite IH. by replace (i + 1 + Z.of_nat k) with (i + Z.pos (Pos.of_succ_nat k)) by lia.
Qed.

Lemma length_rows_lines path i maze : length (rows_lines path i maze) = length maze.
Proof. revert i. induction maze as [|row maze IH]; intros i; simpl; [done|]. by rewrite IH. Qed.

Lemma marks_lookup path i j row k :
  marks path i j row !! k = mark path i (j + Z.of_nat k) <$> row !! k.
Proof.
  revert j k. induction row as [|cell row IH]; intros j k; [done|].
  destruct k as [|k]; simpl.
  - by rewrite Z.add_0_r.
  - rewrite IH. by replace (j + 1 + Z.of_nat k) with (j + Z.pos (Pos.of_succ_nat k)) by lia.
Qed.

Lemma length_marks path i j row : length (marks path i j row) = length row.
Proof. revert j. induction row as [|cell row IH]; intros j; simpl; [done|]. by rewrite IH. Qed.

Lemma interleave_lookup (sep : Z) ms k m :
  ms !! k = Some m →
  mjoin ((λ m, [m; sep]) <$> ms) !! (2 * k)%nat = Some m
  ∧ mjoin ((λ m, [m; sep]) <$> ms) !! (2 * k + 1)%nat = Some sep.
Proof.
  revert k. induction ms as [|x ms IH]; intros k Hk; [done|].
  destruct k as [|k].
  - injection Hk as ->. done.
  - replace (2 * S k)%nat with (S (S (2 * k))) by lia.
    replace (S (S (2 * k)) + 1)%nat with (S (S (2 * k + 1))) by lia.
    simpl in Hk. exact (IH k Hk).
Qed.

Lemma length_interleave (sep : Z) ms :
  length (mjoin ((λ m, [m; sep]) <$> ms)) = (2 * length ms)%nat.
Proof.
  induction ms as [|x ms IH]; [done|].
  rewrite fmap_cons.
  change (mjoin ([x; sep] :: ?l)) with (x :: sep :: mjoin l).
  cbn [length]. rewrite IH. simpl. lia.
Qed.

(** ** Counting the marks *)

Lemma elem_of_grid_from i maze (p : coord) :
  p ∈ grid_from i maze ↔
  ∃ k row j, p = (i + Z.of_nat k, Z.of_nat j) ∧ maze !! k = Some row
             ∧ (j < length row)%nat.
Proof.
  revert i. induction maze as [|row maze IH]; intros i; simpl.
  - split; [by intros ?%elem_of_nil|]. by intros (k & r & j & _ & ? & _).
  - rewrite elem_of_app, list_elem_of_fmap, IH. split.
    + intros [(c & -> & Hc%elem_of_seqZ)|(k & r & j & -> & Hk & Hj)].
      * exists 0%nat, row, (Z.to_nat c). split; [f_equal; lia|]. split; [done|lia].
      * exists (S k), r, j. split; [f_equal; lia|done].
    + intros (k & r & j & -> & Hk & Hj). destruct k as [|k].
      * injection Hk as ->. left. exists (Z.of_nat j).
        split; [f_equal; lia|]. apply elem_of_seqZ. lia.
      * right. exists k, r, j. split; [f_equal; lia|done].
Qed.

Lemma NoDup_grid_from i maze : NoDup (grid_from i maze).
Proof.
  revert i. induction maze as [|row maze IH]; intros i; simpl; [constructor|].
  apply NoDup_app. split; [|split; [|apply IH]].
  - apply NoDup_fmap_2; [|apply NoDup_seqZ]. by intros c c' [= ->].
  - intros p (c & -> & _)%list_elem_of_fmap
      (k & r & j & [= Hi _] & _)%elem_of_grid_from. lia.
Qed.

Lemma elem_of_grid_from_coords maze p : p ∈ grid_from 0 maze ↔ p ∈ grid_coords maze.
Proof.
  rewrite elem_of_grid_from, elem_of_grid_coords_lookup.
  split; intros (k & r & j & -> & H); exists k, r, j; (split; [f_equal; lia|done]).
Qed.

Lemma occurrences_app c s t :
  occurrences c (s ++ t) = (occurrences c s + occurrences c t)%nat.
Proof. unfold occurrences. by rewrite filter_app, length_app. Qed.

Lemma occurrences_cells_text path i j row :
  Forall (λ cell, cell = "#" ∨ cell = "-")%string row →
  occurrences (ord "@") (cells_text path i j row)
  = length (filter (λ p, p ∈ path) ((λ c, (i, c)) <$> seqZ j (Z.of_nat (length row)))).
Proof.
  intros H. revert j. induction H as [|cell row Hc _ IH]; intros j; [done|].
  cbn [cells_text length]. rewrite seqZ_cons by lia.
  replace (Z.pred (Z.of_nat (S (length row)))) with (Z.of_nat (length row)) by lia.
  rewrite fmap_cons, filter_cons, occurrences_app, IH.
  replace (Z.succ j) with (j + 1) by lia.
  destruct (decide ((i, j) ∈ path)) as [Hin|Hin].
  - rewrite bool_decide_eq_true_2 by done. done.
  - rewrite bool_decide_eq_false_2 by done. by destruct Hc as [->| ->].
Qed.

Lemma occurrences_written path i maze :
  well_formed maze →
  occurrences (ord "@") (mjoin (rows_lines path i maze))
  = length (filter (λ p, p ∈ path) (grid_from i maze)).
Proof.
  intros H. revert i. induction H as [|row maze [_ Hrow] _ IH]; intros i; [done|].
  cbn [rows_lines grid_from].
  change (mjoin ((?b ++ [newline]) :: ?l)) with ((b ++ [newline]) ++ mjoin l).
  rewrite !occurrences_app, IH, filter_app, length_app.
  rewrite occurrences_cells_text by done.
  change (occurrences (ord "@") [newline]) with 0%nat. lia.
Qed.

Lemma marks_at_most_path maze path :
  well_formed maze →
  (occurrences (ord "@") (write_path_to_file maze path) ≤ length path)%nat.
Proof.
  intros H. unfold write_path_to_file. rewrite write_rows_spec. cbn [app].
  rewrite occurrences_written by done.
  apply submseteq_length, NoDup_submseteq.
  - apply NoDup_filter, NoDup_grid_from.
  - intros p Hp. by apply list_elem_of_filter in Hp as [? _].
Qed.

Lemma marks_equal_path maze path :
  well_formed maze → NoDup path → (∀ p, p ∈ path → p ∈ grid_coords maze) →
  occurrences (ord "@") (write_path_to_file maze path) = length path.
Proof.
  intros H Hnd Hgrid. apply Nat.le_antisymm; [by apply marks_at_most_path|].
  unfold write_path_to_file. rewrite write_rows_spec. cbn [app].
  rewrite occurrences_written by done.
  apply submseteq_length, NoDup_submseteq; [done|].
  intros p Hp. apply list_elem_of_filter. split; [done|].
  by apply elem_of_grid_from_coords, Hgrid.
Qed.

(** ** [solve_maze] *)

Lemma getitem_first {A} (l : list A) :
  getitem l 0 = match head l with Some x => Value x | None => IndexError end.
Proof. destruct l as [|x l]; [done|]. unfold getitem. simpl. done. Qed.

Lemma getitem_last {A} (l : list A) :
  getitem l (-1) = match last l with Some x => Value x | None => IndexError end.
Proof.
  destruct (last l) as [x|] eqn:E.
  - apply getitem_Value. right.
    assert (l ≠ []) as Hne by (by intros ->).
    assert (0 < length l)%nat by (destruct l; [done|simpl; lia]).
    split; [lia|]. rewrite last_lookup in E.
    by replace (Z.to_nat (-1 + Z.of_nat (length l))) with (pred (length l)) by lia.
  - apply last_None in E as ->. done.
Qed.

Lemma index_dash_Some row col :
  index_dash row = Some col →
  0 ≤ col ∧ row !! Z.to_nat col = Some "-"%string
  ∧ ∀ c, 0 ≤ c < col → row !! Z.to_nat c ≠ Some "-"%string.
Proof.
  revert col. induction row as [|cell row IH]; intros col; [done|]. simpl.
  destruct (String.eqb_spec cell "-") as [->|Hne].
  - intros [= <-]. split; [done|]. split; [done|]. intros c Hc. lia.
  - destruct (index_dash row) as [col'|]; [|done]. intros [= <-].
    destruct (IH col' eq_refl) as (H0 & Hl & Hleft).
    split; [lia|]. split.
    + replace (Z.to_nat (Z.succ col')) with (S (Z.to_nat col')) by lia. done.
    + intros c Hc. destruct (decide (c = 0)) as [->|Hc0].
      * simpl. congruence.
      * replace (Z.to_nat c) with (S (Z.to_nat (c - 1))) by lia. simpl.
        apply Hleft. lia.
Qed.

Lemma index_dash_None row : index_dash row = None ↔ "-"%string ∉ row.
Proof.
  induction row as [|cell row IH]; simpl.
  - split; [intros _; apply not_elem_of_nil|done].
  - rewrite not_elem_of_cons. destruct (String.eqb_spec cell "-") as [->|Hne].
    + split; [done|]. by intros [? _].
    + destruct (index_dash row); simpl.
      * split; [done|]. intros [_ H]. by apply IH in H.
      * split; [|done]. intros _. split; [congruence|]. by apply IH.
Qed.

(** The start handed to the searches is the leftmost Open cell of the
    first row. *)
Lemma maze_start_spec maze start :
  maze_start maze = Some start →
  start.1 = 0 ∧ is_open maze start
  ∧ ∀ c, 0 ≤ c < start.2 → ¬ is_open maze (0, c).
Proof.
  unfold maze_start. destruct maze as [|row maze]; [done|]. simpl.
  destruct (index_dash row) as [col|] eqn:E; [|done]. intros [= <-]. simpl.
  destruct (index_dash_Some _ _ E) as (H0 & Hl & Hleft).
  split; [done|]. unfold is_open, cell_at. simpl. split.
  - destruct (Z.leb_spec 0 col); [|lia]. done.
  - intros c Hc. destruct (Z.leb_spec 0 c); [|lia]. simpl. apply Hleft. lia.
Qed.

(** The end handed to the searches is the leftmost Open cell of the last
    row. *)
Lemma maze_end_spec maze end_ :
  maze_end maze = Some end_ →
  end_.1 = Z.of_nat (length maze) - 1 ∧ is_open maze end_
  ∧ ∀ c, 0 ≤ c < end_.2 → ¬ is_open maze (end_.1, c).
Proof.
  unfold maze_end. destruct (last maze) as [row|] eqn:Hlast; [|done]. simpl.
  destruct (index_dash row) as [col|] eqn:E; [|done]. intros [= <-]. simpl.
  destruct (index_dash_Some _ _ E) as (H0 & Hl & Hleft).
  assert (0 < length maze)%nat as Hlen.
  { destruct maze; [done|simpl; lia]. }
  rewrite last_lookup in Hlast.
  assert (maze !! Z.to_nat (Z.of_nat (length maze) - 1) = Some row) as Hrow.
  { by replace (Z.to_nat (Z.of_nat (length maze) - 1)) with (pred (length maze)) by lia. }
  split; [done|]. unfold is_open, cell_at. simpl. split.
  - destruct (Z.leb_spec 0 (Z.of_nat (length maze) - 1)); [|lia].
    destruct (Z.leb_spec 0 col); [|lia]. simpl. rewrite Hrow. done.
  - intros c Hc.
    destruct (Z.leb_spec 0 (Z.of_nat (length maze) - 1)); [|lia].
    destruct (Z.leb_spec 0 c); [|lia]. simpl. rewrite Hrow. simpl. apply Hleft. lia.
Qed.

Lemma algorithm_name_inv algorithm :
  algorithm ∈ ["dfs"; "astar"; "bfs"]%string ↔ ∃ alg, algorithm = algorithm_name alg.
Proof.
  rewrite !elem_of_cons, elem_of_nil. split.
  - intros [->|[->|[->|[]]]]; [by exists dfs|by exists astar|by exists bfs].
  - intros [[] ->]; simpl; tauto.
Qed.

(** [solve_maze] as a whole: which exception, or which search. *)
Lemma solve_maze_spec fuel maze algorithm :
  solve_maze fuel maze algorithm =
    match maze with
    | [] => Some (Raised Index_Error)
    | _ :: _ =>
        match maze_start maze, maze_end maze with
        | Some start, Some end_ =>
            if String.eqb algorithm "dfs"
            then result_of <$> search dfs fuel maze start end_
            else if String.eqb algorithm "astar"
            then result_of <$> search astar fuel maze start end_
            else if String.eqb algorithm "bfs"
            then result_of <$> search bfs fuel maze start end_
            else Some (Raised Unbound_Local_Error)
        | _, _ => Some (Raised Value_Error)
        end
    end.
Proof.
  unfold solve_maze, maze_start, maze_end. rewrite getitem_first, getitem_last.
  destruct maze as [|row maze]; [done|].
  change (head (row :: maze)) with (Some row). cbn [mbind option_bind].
  destruct (index_dash row) as [c0|]; [|done]. cbn [mbind option_bind].
  destruct (last (row :: maze)) as [lrow|] eqn:El.
  - cbn [mbind option_bind]. destruct (index_dash lrow) as [c1|]; done.
  - by apply last_None in El.
Qed.

Lemma solve_maze_search fuel maze alg start end_ :
  maze_start maze = Some start → maze_end maze = Some end_ →
  solve_maze fuel maze (algorithm_name alg)
  = result_of <$> search alg fuel maze start end_.
Proof.
  intros Hs He. rewrite solve_maze_spec, Hs, He.
  destruct maze; [done|]. by destruct alg.
Qed.

Lemma solve_maze_Solved fuel maze algorithm p n :
  solve_maze fuel maze algorithm = Some (Solved p n) →
  ∃ alg start end_,
    algorithm = algorithm_name alg ∧ maze_start maze = Some start
    ∧ maze_end maze = Some end_
    ∧ search alg fuel maze start end_ = Some (Return p n).
Proof.
  rewrite solve_maze_spec. destruct maze as [|row maze]; [done|].
  destruct (maze_start (row :: maze)) as [start|]; [|done].
  destruct (maze_end (row :: maze)) as [end_|]; [|done].
  assert (∀ alg, result_of <$> search alg fuel (row :: maze) start end_
                 = Some (Solved p n) →
                 search alg fuel (row :: maze) start end_ = Some (Return p n)) as Hinv.
  { intros alg. destruct (search alg fuel _ _ _) as [[p' n'|]|]; [|done..].
    by intros [= -> ->]. }
  destruct (String.eqb_spec algorithm "dfs") as [->|_].
  { intros H. exists dfs, start, end_. by rewrite (Hinv dfs H). }
  destruct (String.eqb_spec algorithm "astar") as [->|_].
  { intros H. exists astar, start, end_. by rewrite (Hinv astar H). }
  destruct (String.eqb_spec algorithm "bfs") as [->|_]; [|done].
  intros H. exists bfs, start, end_. by rewrite (Hinv bfs H).
Qed.

Lemma maze_start_None maze :
  maze_start maze = None ↔ maze = [] ∨ ∃ row, head maze = Some row ∧ "-"%string ∉ row.
Proof.
  unfold maze_start. destruct maze as [|row maze]; simpl.
  - split; [by left|done].
  - destruct (index_dash row) as [c|] eqn:E; simpl.
    + split; [done|]. intros [?|(r & [= <-] & Hr)]; [done|].
      apply index_dash_None in Hr. congruence.
    + split; [|done]. intros _. right. exists row. split; [done|].
      by apply index_dash_None.
Qed.

Lemma maze_end_None maze :
  maze_end maze = None ↔ maze = [] ∨ ∃ row, last maze = Some row ∧ "-"%string ∉ row.
Proof.
  unfold maze_end. destruct (last maze) as [row|] eqn:El; simpl.
  - destruct (index_dash row) as [c|] eqn:E; simpl.
    + split; [done|]. intros [->|(r & [= <-] & Hr)]; [done|].
      apply index_dash_None in Hr. congruence.
    + split; [|done]. intros _. right. exists row. split; [done|].
      by apply index_dash_None.
  - apply last_None in El as ->. split; [by left|done].
Qed.

Lemma result_of_Raised o e :
  result_of <$> o = Some (Raised e) ↔ e = Index_Error ∧ o = Some Raise_IndexError.
Proof.
  destruct o as [[p n|]|]; simpl; split; try done.
  - by intros [_ ?].
  - by intros [= <-].
  - by intros [-> _].
  - by intros [_ ?].
Qed.

(** On a guarded maze [solve_maze] returns what the search returns. *)
Lemma solve_maze_guarded_result alg maze start end_ :
  maze_start maze = Some start → maze_end maze = Some end_ →
  guarded maze end_ = true →
  ∃ p n,
    (∀ fuel, (enough_fuel maze start ≤ fuel)%nat →
       solve_maze fuel maze (algorithm_name alg) = Some (Solved p n))
    ∧ (p = [] ↔ ¬ reachable maze start end_)
    ∧ (p ≠ [] → valid_path maze start end_ p)
    ∧ 0 ≤ n ≤ Z.of_nat (length (open_cells maze)).
Proof.
  intros Hs He Hg. destruct (maze_start_spec _ _ Hs) as (_ & Hopen & _).
  destruct (search_guarded_result alg maze start end_ Hg Hopen)
    as (p & n & Hrun & Hiff & Hvalid & Hn).
  exists p, n. split; [|split; [done|split; [done|]]].
  - intros fuel Hfuel. rewrite (solve_maze_search _ _ alg start end_) by done.
    by rewrite (Hrun fuel Hfuel).
  - split; [done|].
    by destruct (search_count_open_cells alg _ _ _ _ _ _ Hg Hopen (Hrun _ (le_n _))).
Qed.

(** ** Mazes with a solid border *)

Lemma is_open_in_grid maze (p : coord) :
  is_open maze p →
  ∃ row, maze !! Z.to_nat p.1 = Some row ∧ 0 ≤ p.1 < Z.of_nat (length maze)
         ∧ 0 ≤ p.2 < Z.of_nat (length row) ∧ row !! Z.to_nat p.2 = Some "-"%string.
Proof.
  unfold is_open, cell_at.
  destruct (Z.leb_spec 0 p.1); [|done]. destruct (Z.leb_spec 0 p.2); [|done]. simpl.
  destruct (maze !! Z.to_nat p.1) as [row|] eqn:Hrow; [|done]. simpl. intros Hc.
  exists row. split; [done|].
  apply lookup_lt_Some in Hrow. apply lookup_lt_Some in Hc as Hlt. split; [lia|].
  split; [lia|done].
Qed.

(** Inside the grid the probe answers whether the cell is Open. *)
Lemma is_dash_in_grid maze (p : coord) row :
  0 ≤ p.1 → maze !! Z.to_nat p.1 = Some row → 0 ≤ p.2 < Z.of_nat (length row) →
  is_dash maze p = Value (bool_decide (is_open maze p)).
Proof.
  intros Hr Hrow Hc. unfold is_dash.
  assert (getitem maze p.1 = Value row) as -> by (apply getitem_Value; left; done).
  simpl.
  destruct (lookup_lt_is_Some_2 row (Z.to_nat p.2)) as [cell Hcell]; [lia|].
  assert (getitem row p.2 = Value cell) as ->.
  { apply getitem_Value. left. split; [lia|done]. }
  simpl. f_equal.
  assert (cell_at maze p = Some cell) as Hat.
  { unfold cell_at.
    destruct (Z.leb_spec 0 p.1); [|lia]. destruct (Z.leb_spec 0 p.2); [|lia]. simpl.
    rewrite Hrow. done. }
  destruct (String.eqb_spec cell "-") as [->|Hne]; symmetry.
  - by apply bool_decide_eq_true_2.
  - apply bool_decide_eq_false_2. unfold is_open. rewrite Hat. congruence.
Qed.

Lemma bordered_guarded maze start end_ :
  bordered maze start end_ = true → guarded maze end_ = true.
Proof.
  unfold bordered. rewrite !andb_true_iff.
  intros [[[Hrows Hrect] Hopen] Hcols].
  apply bool_decide_eq_true_1 in Hrows.
  rewrite forallb_forall in Hrect. rewrite forallb_forall in Hopen.
  apply negb_true_iff, Z.eqb_neq in Hcols.
  set (width := length (default [] (head maze))) in *.
  assert (∀ k row, maze !! k = Some row → length row = width) as Hwidth.
  { intros k row Hk. apply list_elem_of_lookup_2, list_elem_of_In, Hrect in Hk.
    by apply bool_decide_eq_true_1 in Hk. }
  assert (∀ p, is_open maze p →
            0 < p.2 < Z.of_nat width - 1
            ∧ (p.1 = 0 → p = start)
            ∧ (p.1 = Z.of_nat (length maze) - 1 → p = end_)) as Hcell.
  { intros p Hp. specialize (Hopen p).
    rewrite <- list_elem_of_In, (bool_decide_eq_true_2 _ Hp) in Hopen.
    assert (p ∈ grid_coords maze) as Hin.
    { apply elem_of_grid_coords. unfold is_open in Hp. rewrite Hp. eauto. }
    apply Hopen in Hin. rewrite !andb_true_iff in Hin.
    destruct Hin as [[[H1 H2] H3] H4].
    apply Z.ltb_lt in H1, H2. split; [lia|]. split.
    - intros H0. apply Z.eqb_eq in H0. rewrite H0 in H3.
      by apply bool_decide_eq_true_1 in H3.
    - intros H0. apply Z.eqb_eq in H0. rewrite H0 in H4.
      by apply bool_decide_eq_true_1 in H4. }
  unfold guarded. apply forallb_forall. intros p _.
  destruct (decide (is_open maze p)) as [Hp|Hp];
    [|by rewrite (bool_decide_eq_false_2 _ Hp)].
  rewrite (bool_decide_eq_true_2 _ Hp).
  destruct (decide (p = end_)) as [->|Hne];
    [by rewrite (bool_decide_eq_false_2 (end_ ≠ end_)) by (intros H; by apply H)|].
  rewrite (bool_decide_eq_true_2 _ Hne). simpl.
  apply forallb_forall. intros nb Hnb%list_elem_of_In%elem_of_neighbors.
  apply bool_decide_eq_true_2.
  destruct (is_open_in_grid _ _ Hp) as (row & Hrow & Hr & Hc & _).
  destruct (Hcell p Hp) as (Hcol & Hfirst & Hlast).
  assert (p.1 < Z.of_nat (length maze) - 1) as Hr'.
  { destruct (decide (p.1 = Z.of_nat (length maze) - 1)) as [H|H]; [|lia].
    by destruct (Hne (Hlast H)). }
  destruct (decide (nb.1 = -1)) as [Hneg|Hneg].
  - (* the probe above the first row reads the last row *)
    assert (p.1 = 0 ∧ nb.2 = p.2) as [Hp0 Hnb2].
    { unfold adjacent in Hnb. lia. }
    assert (p = start) as -> by (by apply Hfirst).
    destruct nb as [r c]. simpl in *. subst r c.
    assert (¬ is_open maze (-1, start.2)) as Hno by (by unfold is_open, cell_at).
    rewrite (bool_decide_eq_false_2 _ Hno).
    destruct (lookup_lt_is_Some_2 maze (Z.to_nat (Z.of_nat (length maze) - 1)))
      as [lrow Hlrow]; [lia|].
    pose proof (Hwidth _ _ Hlrow) as Hlen. pose proof (Hwidth _ _ Hrow) as Hlen0.
    unfold is_dash. simpl.
    rewrite getitem_negative by lia.
    assert (getitem maze (-1 + Z.of_nat (length maze)) = Value lrow) as ->.
    { apply getitem_Value. left. split; [lia|].
      by replace (-1 + Z.of_nat (length maze)) with (Z.of_nat (length maze) - 1) by lia. }
    simpl.
    pose proof (is_dash_in_grid maze (Z.of_nat (length maze) - 1, start.2) lrow) as Hd.
    simpl in Hd. specialize (Hd ltac:(lia) Hlrow ltac:(lia)).
    unfold is_dash in Hd. simpl in Hd.
    assert (getitem maze (Z.of_nat (length maze) - 1) = Value lrow) as Hg.
    { apply getitem_Value. left. split; [lia|done]. }
    rewrite Hg in Hd. simpl in Hd. rewrite Hd. f_equal.
    apply bool_decide_eq_false_2. intros Ho.
    destruct (Hcell _ Ho) as (_ & _ & He). simpl in He.
    specialize (He eq_refl). rewrite <- He in Hcols. simpl in Hcols. done.
  - (* every other probe stays inside the grid *)
    assert (0 ≤ nb.1 < Z.of_nat (length maze)) as Hnr.
    { unfold adjacent in Hnb. lia. }
    destruct (lookup_lt_is_Some_2 maze (Z.to_nat nb.1)) as [nrow Hnrow]; [lia|].
    pose proof (Hwidth _ _ Hnrow) as Hlen. pose proof (Hwidth _ _ Hrow) as Hlen0.
    apply (is_dash_in_grid maze nb nrow); [lia|done|].
    unfold adjacent in Hnb. lia.
Qed.

(** Every coordinate of a walk but its first satisfies [ok]. *)
Lemma walk_elem_of ok a p b : walk ok a p b → ∀ c, c ∈ p → c = a ∨ ok c.
Proof.
  induction 1 as [|p b c Hw IH Hadj Ho]; intros x Hx.
  - apply list_elem_of_singleton in Hx. by left.
  - apply elem_of_app in Hx as [Hx|Hx]; [by apply IH|].
    apply list_elem_of_singleton in Hx as ->. by right.
Qed.

(** On a guarded grid, with [end_] reachable, [a_star_algorithm] returns a
    valid path with the least number of moves. *)
Lemma a_star_guarded_cheapest maze start end_ :
  guarded maze end_ = true → reachable maze start end_ →
  ∃ p n,
    (∀ fuel, (enough_fuel maze start ≤ fuel)%nat →
       a_star_algorithm fuel maze start end_ = Some (Return p n))
    ∧ valid_path maze start end_ p
    ∧ ∀ q, valid_path maze start end_ q → edges p ≤ edges q.
Proof.
  intros Hg [q Hq].
  destruct (search_guarded_result astar maze start end_ Hg
              (valid_path_start_open _ _ _ _ Hq))
    as (p & n & Hrun & Hiff & Hvalid & _).
  exists p, n. split; [exact Hrun|].
  assert (p ≠ []) as Hne.
  { intros Hp. apply Hiff in Hp. apply Hp. by exists q. }
  split; [by apply Hvalid|].
  intros q' Hq'. eapply a_star_return_cheapest; [exact (Hrun _ (le_n _))|].
  eapply walk_mono; [apply is_open_code_open|by apply valid_path_walk].
Qed.

(** * The properties of the searches *)

(** C1 at the corridor maze and at the open grid.  [solve_maze] hands the
    depth-first search the entrance [(0, 1)] and the exit [(2, 1)] of the
    corridor; the probe above the entrance reads the exit row through the
    negative subscript, the search climbs through rows -1, -2, -3, and the
    probe of row -4 raises [IndexError], which leaves [dfs_algorithm].  On
    the grid of three by three Open cells, from [(0, 0)] to [(2, 2)], each
    of the three searches is left by the exception.  And on every grid,
    the [for] loop of each search raises when the coordinate expanded lies
    in the last row: nothing guards the probe of the row below. *)
Theorem probes_raise_IndexError :
  maze_start corridor = Some (0, 1) ∧ maze_end corridor = Some (2, 1)
  ∧ is_dash corridor (-1, 1) = Value true
  ∧ is_dash corridor (-4, 1) = IndexError
  ∧ dfs_algorithm 4 corridor (0, 1) (2, 1) = Some Raise_IndexError
  ∧ dfs_algorithm 20 open_grid (0, 0) (2, 2) = Some Raise_IndexError
  ∧ bfs_algorithm 20 open_grid (0, 0) (2, 2) = Some Raise_IndexError
  ∧ a_star_algorithm 20 open_grid (0, 0) (2, 2) = Some Raise_IndexError
  ∧ (∀ maze end_ (node : coord) path,
       node.1 = Z.of_nat (length maze) - 1 →
       (∀ stack, dfs_for maze path (neighbors node) stack = IndexError)
       ∧ (∀ vis queue, bfs_for maze vis path (neighbors node) queue = IndexError)
       ∧ (∀ g heap,
            a_star_for maze end_ g path (a_star_neighbors node) heap = IndexError)).
Proof.
  repeat (split; [vm_compute; reflexivity|]).
  apply for_loops_raise_in_last_row.
Qed.

(** C2 at the [detour] maze.  [solve_maze] hands the breadth-first search
    the entrance [(0, 0)] and the exit [(3, 1)].  The shortest path through
    Open cells takes eight moves; the search comes back with six moves,
    three of them through column -1, which the unguarded subscript reads
    as the last column. *)
Theorem bfs_detour_shorter_than_shortest :
  maze_start detour = Some (0, 0) ∧ maze_end detour = Some (3, 1)
  ∧ bfs_algorithm 40 detour (0, 0) (3, 1)
    = Some (Return [(0, 0); (0, -1); (1, -1); (2, -1); (2, 0); (2, 1); (3, 1)] 20)
  ∧ edges [(0, 0); (0, -1); (1, -1); (2, -1); (2, 0); (2, 1); (3, 1)] = 6
  ∧ valid_path detour (0, 0) (3, 1)
      [(0, 0); (0, 1); (0, 2); (0, 3); (1, 3); (2, 3); (2, 2); (2, 1); (3, 1)]
  ∧ (∀ q, valid_path detour (0, 0) (3, 1) q → 8 ≤ edges q).
Proof.
  split; [reflexivity|]. split; [reflexivity|].
  split; [vm_compute; reflexivity|]. split; [reflexivity|]. split.
  - split; [reflexivity|]. split; [reflexivity|]. split.
    + repeat constructor.
    + simpl. unfold adjacent. simpl. repeat split; lia.
  - intros q Hq.
    enough (Z.of_nat 7 < edges q) by lia.
    eapply valid_path_edges_bound; [|exact Hq]. vm_compute. reflexivity.
Qed.

(** C3 at the [detour] maze and at the open grid.  [solve_maze] hands
    A-star the entrance [(0, 0)] and the exit [(3, 1)] of [detour]; the
    exit is reachable, and the valid paths to it have eight moves or more.
    A-star comes back with six moves, three of them through column -1,
    which the unguarded subscript reads as the last column: what it
    returns is no valid path, and so not a valid path of least cost.  On
    the grid of three by three Open cells, from [(0, 0)] to [(2, 2)], the
    end is reachable and A-star returns no path at all: it is left by
    [IndexError]. *)
Theorem a_star_returns_no_valid_path :
  maze_start detour = Some (0, 0) ∧ maze_end detour = Some (3, 1)
  ∧ a_star_algorithm 40 detour (0, 0) (3, 1)
    = Some (Return [(0, 0); (0, -1); (1, -1); (2, -1); (2, 0); (2, 1); (3, 1)] 9)
  ∧ ¬ valid_path detour (0, 0) (3, 1)
        [(0, 0); (0, -1); (1, -1); (2, -1); (2, 0); (2, 1); (3, 1)]
  ∧ valid_path detour (0, 0) (3, 1)
      [(0, 0); (0, 1); (0, 2); (0, 3); (1, 3); (2, 3); (2, 2); (2, 1); (3, 1)]
  ∧ (∀ q, valid_path detour (0, 0) (3, 1) q → 8 ≤ edges q)
  ∧ a_star_algorithm 20 open_grid (0, 0) (2, 2) = Some Raise_IndexError
  ∧ valid_path open_grid (0, 0) (2, 2) [(0, 0); (0, 1); (0, 2); (1, 2); (2, 2)].
Proof.
  split; [reflexivity|]. split; [reflexivity|].
  split; [vm_compute; reflexivity|]. split; [|split; [|split; [|split]]].
  - intros (_ & _ & HF & _). apply Forall_cons in HF as [_ HF].
    apply Forall_cons in HF as [HF _]. by vm_compute in HF.
  - split; [reflexivity|]. split; [reflexivity|]. split.
    + repeat constructor.
    + simpl. unfold adjacent. simpl. repeat split; lia.
  - intros q Hq.
    enough (Z.of_nat 7 < edges q) by lia.
    eapply valid_path_edges_bound; [|exact Hq]. vm_compute. reflexivity.
  - vm_compute. reflexivity.
  - split; [reflexivity|]. split; [reflexivity|]. split.
    + repeat constructor.
    + simpl. unfold adjacent. simpl. repeat split; lia.
Qed.

(** C4 at the [walled_off] maze.  [solve_maze] hands the searches the
    entrance [(0, 0)], an Open cell, and the exit [(3, 1)], which cannot be
    reached from it through Open cells.  Each of the three searches comes
    back with a path all the same: it leaves the grid through column -1,
    which the unguarded subscript reads as the last column.  One half of
    the claim holds on every grid: when a search returns the empty path,
    [end_] is unreachable; and the count returned is never negative. *)
Theorem path_returned_to_unreachable_exit :
  maze_start walled_off = Some (0, 0) ∧ maze_end walled_off = Some (3, 1)
  ∧ is_open walled_off (0, 0)
  ∧ (∀ alg, search alg 20 walled_off (0, 0) (3, 1)
            = Some (Return [(0, 0); (0, -1); (1, -1); (2, -1); (2, 0); (2, 1); (3, 1)] 6))
  ∧ ¬ reachable walled_off (0, 0) (3, 1)
  ∧ (∀ alg fuel maze start end_ n,
       search alg fuel maze start end_ = Some (Return [] n) →
       ¬ reachable maze start end_)
  ∧ (∀ alg fuel maze start end_ p n,
       search alg fuel maze start end_ = Some (Return p n) → 0 ≤ n).
Proof.
  split; [reflexivity|]. split; [reflexivity|]. split; [reflexivity|].
  split; [|split; [|split]].
  - intros []; vm_compute; reflexivity.
  - intros [q Hq]. apply valid_path_walk in Hq.
    enough (∀ p b, walk (is_open walled_off) (0, 0) p b → b = (0, 0)) as H
      by (by apply H in Hq).
    clear. induction 1 as [|p b c Hw IH Hadj Ho]; [done|]. subst b.
    apply elem_of_neighbors in Hadj. simpl in Hadj.
    rewrite !elem_of_cons, elem_of_nil in Hadj.
    destruct Hadj as [->|[->|[->|[->|[]]]]]; by vm_compute in Ho.
  - intros alg fuel maze start end_ n Hrun [q Hq]. apply valid_path_walk in Hq.
    eapply search_return_empty; [exact Hrun|].
    eapply walk_mono; [apply is_open_code_open|exact Hq].
  - intros alg fuel maze start end_ p n Hrun.
    by destruct (search_return_count _ _ _ _ _ _ _ Hrun).
Qed.

(** C5 at the corridor maze.  Every loop is left: with [enough_fuel] each
    of the three searches ends, on every input, in a return or in the
    exception.  But a loop is not always left in one of the two ways the
    code provides for, [end_] reached or the frontier empty: in the
    corridor the loop of [dfs_algorithm] is left on its fourth pass by
    [IndexError], and more fuel changes nothing. *)
Theorem loop_left_by_exception :
  (∀ alg maze start end_,
     ∃ o, search alg (enough_fuel maze start) maze start end_ = Some o)
  ∧ (∀ fuel, dfs_algorithm (4 + fuel) corridor (0, 1) (2, 1) = Some Raise_IndexError).
Proof.
  split; [apply search_terminates|].
  intros fuel. apply (while_mono _ 4); [|lia]. vm_compute. reflexivity.
Qed.

(** C6 at the [walled_off] maze.  [solve_maze] hands the searches the
    entrance [(0, 0)], an Open cell, and the exit [(3, 1)].  The path that
    each of the three searches returns holds [(0, -1)], [(1, -1)] and
    [(2, -1)], which are no cells of the grid: the unguarded subscript
    reads column -1 as the last column.  The other half of the claim holds
    on every grid: a path that is returned runs from [start] to [end_],
    consecutive coordinates differ by exactly one unit in exactly one
    axis, and every coordinate but [start] passes the test of the code. *)
Theorem returned_path_leaves_grid :
  maze_start walled_off = Some (0, 0) ∧ maze_end walled_off = Some (3, 1)
  ∧ is_open walled_off (0, 0)
  ∧ (∀ alg, search alg 20 walled_off (0, 0) (3, 1)
            = Some (Return [(0, 0); (0, -1); (1, -1); (2, -1); (2, 0); (2, 1); (3, 1)] 6))
  ∧ cell_at walled_off (0, -1) = None
  ∧ ¬ Forall (is_open walled_off)
        [(0, 0); (0, -1); (1, -1); (2, -1); (2, 0); (2, 1); (3, 1)]
  ∧ (∀ alg fuel maze start end_ p n,
       search alg fuel maze start end_ = Some (Return p n) → p ≠ [] →
       head p = Some start ∧ last p = Some end_ ∧ linked p
       ∧ ∀ c, c ∈ p → c = start ∨ code_open maze c).
Proof.
  split; [reflexivity|]. split; [reflexivity|]. split; [reflexivity|].
  split; [|split; [|split]].
  - intros []; vm_compute; reflexivity.
  - reflexivity.
  - intros H. apply Forall_cons in H as [_ H]. apply Forall_cons in H as [H _].
    by vm_compute in H.
  - intros alg fuel maze start end_ p n Hrun Hne.
    pose proof (search_return_walk alg _ _ _ _ _ _ _
                  (code_open_extends maze start end_) Hrun Hne) as Hw.
    split; [by eapply walk_head|]. split; [by eapply walk_last|].
    split; [by eapply walk_linked|by eapply walk_elem_of].
Qed.

(** C7, as the code has it.  Whenever a search returns, the count is at
    least 0; when it returns a non-empty path and [start] differs from
    [end_], the count is at least 1, [start] having been expanded. *)
Theorem nodes_explored_bounds alg fuel maze start end_ p n :
  search alg fuel maze start end_ = Some (Return p n) →
  0 ≤ n ∧ (p ≠ [] → start ≠ end_ → 1 ≤ n).
Proof. apply search_return_count. Qed.

(** The breadth-first search in the corridor returns a path of three
    coordinates and a count of 3. *)
Lemma nodes_explored_bounds_witness :
  bfs_algorithm 10 corridor (0, 1) (2, 1) = Some (Return [(0, 1); (1, 1); (2, 1)] 3)
  ∧ 0 ≤ 3 ∧ 1 ≤ 3.
Proof.
  assert (bfs_algorithm 10 corridor (0, 1) (2, 1)
          = Some (Return [(0, 1); (1, 1); (2, 1)] 3)) as Hrun
    by (vm_compute; reflexivity).
  split; [exact Hrun|].
  destruct (nodes_explored_bounds bfs 10 corridor (0, 1) (2, 1) _ _ Hrun) as [H0 H1].
  split; [exact H0|]. apply H1; discriminate.
Defined.

(** C7 as stated fails: with [start = end_] a non-empty path comes back
    with a count of 0, from each of the three searches. *)
Lemma nodes_explored_zero_with_path :
  (∃ p n, dfs_algorithm 1 [["-"]] (0, 0) (0, 0) = Some (Return p n) ∧ p ≠ [] ∧ n < 1)
  ∧ (∃ p n, bfs_algorithm 1 [["-"]] (0, 0) (0, 0) = Some (Return p n) ∧ p ≠ [] ∧ n < 1)
  ∧ (∃ p n, a_star_algorithm 1 [["-"]] (0, 0) (0, 0) = Some (Return p n)
            ∧ p ≠ [] ∧ n < 1).
Proof.
  repeat split; exists [(0, 0)], 0; (split; [|split; [done|lia]]).
  - apply (search_start_is_end dfs).
  - apply (search_start_is_end bfs).
  - apply (search_start_is_end astar).
Qed.



(** C9. In each of the three searches a pass changes [visited] only by
    adding the coordinate it takes off the frontier and expands (what it
    puts on the frontier is not added); so after any number of passes
    [visited] holds exactly the coordinates expanded so far, and
    [node_count] is the number of its elements. *)
Theorem visited_is_expanded maze start end_ n :
  (∀ s, iter (dfs_body maze end_) n (dfs_init start) = Some s →
     visited s = list_to_set (expanded (dfs_body maze end_) dfs_popped end_ n (dfs_init start))
     ∧ node_count s = Z.of_nat (size (visited s)))
  ∧ (∀ s, iter (bfs_body maze end_) n (bfs_init start) = Some s →
       visited s = list_to_set (expanded (bfs_body maze end_) bfs_popped end_ n (bfs_init start))
       ∧ node_count s = Z.of_nat (size (visited s)))
  ∧ (∀ s, iter (a_star_body maze end_) n (a_star_init start end_) = Some s →
       visited s = list_to_set (expanded (a_star_body maze end_) a_star_popped end_ n
                                  (a_star_init start end_))
       ∧ node_count s = Z.of_nat (size (visited s)))
  ∧ (∀ s s', dfs_body maze end_ s = Continue s' →
       visited s' = list_to_set (expands end_ (dfs_popped s) (visited s)) ∪ visited s)
  ∧ (∀ s s', bfs_body maze end_ s = Continue s' →
       visited s' = list_to_set (expands end_ (bfs_popped s) (visited s)) ∪ visited s)
  ∧ (∀ s s', a_star_body maze end_ s = Continue s' →
       visited s' = list_to_set (expands end_ (a_star_popped s) (visited s)) ∪ visited s).
Proof.
  repeat split.
  - rewrite (iter_visited _ _ dfs_popped maze end_ (dfs_sim maze end_)
               (λ _, eq_refl) n _ _ H).
    simpl. by rewrite (right_id_L ∅ (∪)).
  - by apply (iter_node_count _ _ dfs_popped maze start end_ (dfs_sim maze end_)
                (λ _, eq_refl) (λ _, eq_refl) n (dfs_init start) s eq_refl).
  - rewrite (iter_visited _ _ bfs_popped maze end_ (bfs_sim maze end_)
               (λ _, eq_refl) n _ _ H).
    simpl. by rewrite (right_id_L ∅ (∪)).
  - by apply (iter_node_count _ _ bfs_popped maze start end_ (bfs_sim maze end_)
                (λ _, eq_refl) (λ _, eq_refl) n (bfs_init start) s eq_refl).
  - rewrite (iter_visited _ _ a_star_popped maze end_ (a_star_body_gstep maze end_)
               (λ _, eq_refl) n _ _ H).
    simpl. by rewrite (right_id_L ∅ (∪)).
  - by apply (iter_node_count _ _ a_star_popped maze start end_
                (a_star_body_gstep maze end_)
                (λ _, eq_refl) (λ _, eq_refl) n (a_star_init start end_) s eq_refl).
  - intros s s'.
    apply (pass_visited _ _ dfs_popped maze end_ (dfs_sim maze end_) (λ _, eq_refl)).
  - intros s s'.
    apply (pass_visited _ _ bfs_popped maze end_ (bfs_sim maze end_) (λ _, eq_refl)).
  - intros s s'.
    apply (pass_visited _ _ a_star_popped maze end_ (a_star_body_gstep maze end_)
             (λ _, eq_refl)).
Qed.

(** Two passes of the breadth-first search in the corridor: the entrance
    and the cell below it have been expanded, and nothing else is in
    [visited], although the frontier holds two more coordinates. *)
Lemma visited_is_expanded_witness :
  ∃ s, iter (bfs_body corridor (2, 1)) 2 (bfs_init (0, 1)) = Some s
       ∧ frontier s = [((-1, 1), [(0, 1); (-1, 1)]); ((2, 1), [(0, 1); (1, 1); (2, 1)])]
       ∧ expanded (bfs_body corridor (2, 1)) bfs_popped (2, 1) 2 (bfs_init (0, 1))
         = [(0, 1); (1, 1)]
       ∧ visited s = list_to_set [(0, 1); (1, 1)]
       ∧ node_count s = 2.
Proof.
  eexists. split; [vm_compute; reflexivity|].
  split; [vm_compute; reflexivity|]. split; [vm_compute; reflexivity|].
  destruct (proj1 (proj2 (visited_is_expanded corridor (0, 1) (2, 1) 2)) _ eq_refl)
    as [Hv Hc].
  split; [exact Hv|]. etrans; [exact Hc|]. vm_compute. reflexivity.
Defined.

(** C10. When [start] is [end_], each of the three searches returns the
    single-element path [[start]] on its first pass, whatever the grid;
    no coordinate has been expanded by then, so the count returned is 0. *)
Theorem start_is_end_returns_start alg fuel maze start :
  search alg (S fuel) maze start start = Some (Return [start] 0).
Proof. apply search_start_is_end. Qed.

(** * Further properties of the searches *)

(** X1. A path returned by any of the three searches, on any grid, holds
    no coordinate twice; all of its coordinates but the last have been
    expanded, so that it has at most [nodes_explored + 1] coordinates. *)
Theorem returned_path_is_simple alg fuel maze start end_ p n :
  search alg fuel maze start end_ = Some (Return p n) →
  NoDup p ∧ Z.of_nat (length p) ≤ n + 1.
Proof. apply search_return_simple. Qed.

(** The path of A-star in the [bend] maze: six coordinates, five nodes
    explored. *)
Lemma returned_path_is_simple_witness :
  NoDup [(0, 1); (1, 1); (1, 2); (1, 3); (2, 3); (3, 3)]
  ∧ Z.of_nat (length [(0, 1); (1, 1); (1, 2); (1, 3); (2, 3); (3, 3)]) ≤ 5 + 1.
Proof.
  apply (returned_path_is_simple astar 10 bend (0, 1) (3, 3)).
  vm_compute. reflexivity.
Defined.

(** X2. Two searches that both return on the same maze, start and end
    agree on whether there is a path; when there is none they return the
    same count; a path of the breadth-first search or of A-star is never
    longer than the path of another search, so these two return paths of
    the same length. *)
Theorem searches_agree alg alg' fuel fuel' maze start end_ p n p' n' :
  search alg fuel maze start end_ = Some (Return p n) →
  search alg' fuel' maze start end_ = Some (Return p' n') →
  (p = [] ↔ p' = [])
  ∧ (p = [] → n = n')
  ∧ (alg ≠ dfs → (length p ≤ length p')%nat)
  ∧ (alg ≠ dfs → alg' ≠ dfs → length p = length p').
Proof.
  intros Hrun Hrun'.
  assert (∀ a f x m, search a f maze start end_ = Some (Return x m) → x ≠ [] →
                     walk (code_open maze) start x end_) as Hwalk.
  { intros a f x m Hx Hne. eapply search_return_walk; [|exact Hx|exact Hne].
    apply code_open_extends. }
  assert (p = [] ↔ p' = []) as Hiff.
  { split; intros ->.
    - destruct p' as [|c p']; [done|].
      destruct (search_return_empty _ _ _ _ _ _ (c :: p') Hrun).
      by eapply Hwalk.
    - destruct p as [|c p]; [done|].
      destruct (search_return_empty _ _ _ _ _ _ (c :: p) Hrun').
      by eapply Hwalk. }
  assert (∀ a a' f f' x m x' m',
            search a f maze start end_ = Some (Return x m) →
            search a' f' maze start end_ = Some (Return x' m') →
            (x = [] ↔ x' = []) → a ≠ dfs → (length x ≤ length x')%nat) as Hle.
  { intros a a' f f' x m x' m' Hx Hx' Hxx' Ha.
    destruct x' as [|c x'].
    - rewrite (proj2 Hxx' eq_refl). done.
    - pose proof (search_return_shortest a maze start end_ f x m (c :: x') Ha Hx
                    (Hwalk _ _ _ _ Hx' ltac:(done))) as H.
      unfold edges in H. lia. }
  split; [exact Hiff|]. split; [|split].
  - intros ->. rewrite (proj1 Hiff eq_refl) in Hrun'.
    destruct (search_return_empty_cells alg (code_open maze) _ _ _ _ _
                (code_open_extends maze start end_) (λ _ H, H) Hrun)
      as (cells & -> & Hcells).
    destruct (search_return_empty_cells alg' (code_open maze) _ _ _ _ _
                (code_open_extends maze start end_) (λ _ H, H) Hrun')
      as (cells' & -> & Hcells').
    assert (cells = cells') as ->; [|done].
    apply set_eq. intros v. by rewrite Hcells, Hcells'.
  - intros Ha. by eapply Hle.
  - intros Ha Ha'. apply Nat.le_antisymm.
    + by eapply Hle.
    + eapply (Hle alg' alg); [exact Hrun'|exact Hrun|by symmetry|done].
Qed.

(** In the [room] A-star and the breadth-first search go round different
    sides; both paths have six coordinates. *)
Lemma searches_agree_witness :
  ([(0, 1); (1, 1); (1, 2); (1, 3); (2, 3); (3, 3)] = []
   ↔ [(0, 1); (1, 1); (2, 1); (2, 2); (2, 3); (3, 3)] = [])
  ∧ ([(0, 1); (1, 1); (1, 2); (1, 3); (2, 3); (3, 3)] = [] → 7 = 7)
  ∧ (astar ≠ dfs → (6 ≤ 6)%nat)
  ∧ (astar ≠ dfs → bfs ≠ dfs → 6%nat = 6%nat).
Proof.
  apply (searches_agree astar bfs 12 12 room (0, 1) (3, 3)
           [(0, 1); (1, 1); (1, 2); (1, 3); (2, 3); (3, 3)] 7
           [(0, 1); (1, 1); (2, 1); (2, 2); (2, 3); (3, 3)] 7).
  - vm_compute. reflexivity.
  - vm_compute. reflexivity.
Defined.

(** X3. When a search returns the empty path, the count it returns is the
    number of coordinates that the code can reach from [start] (every one
    of them has been expanded, and nothing else); on a grid where the
    probes are guarded, with [start] an Open cell, this is the number of
    cells that are reachable from [start] through Open cells. *)
Theorem empty_path_counts_reachable alg fuel maze start end_ n :
  search alg fuel maze start end_ = Some (Return [] n) →
  (∃ cells : gset coord,
     n = Z.of_nat (size cells)
     ∧ ∀ v, v ∈ cells ↔ ∃ q, walk (code_open maze) start q v)
  ∧ (guarded maze end_ = true → is_open maze start →
     ∃ cells : gset coord,
       n = Z.of_nat (size cells) ∧ ∀ v, v ∈ cells ↔ reachable maze start v).
Proof.
  intros Hrun. split.
  - eapply search_return_empty_cells; [apply code_open_extends|done|exact Hrun].
  - intros Hg Hs.
    destruct (search_return_empty_cells alg (is_open maze) _ _ _ _ _
                (guarded_extends _ _ _ Hg Hs) (is_open_code_open maze) Hrun)
      as (cells & Hn & Hcells).
    exists cells. split; [done|]. intros v.
    rewrite Hcells. symmetry. by apply reachable_walk.
Qed.

(** In the [sealed] maze two cells can be reached from the entrance, and
    the breadth-first search returns the empty path with a count of 2. *)
Lemma empty_path_counts_reachable_witness :
  (∃ cells : gset coord,
     2 = Z.of_nat (size cells)
     ∧ ∀ v, v ∈ cells ↔ ∃ q, walk (code_open sealed) (0, 1) q v)
  ∧ (guarded sealed (2, 3) = true → is_open sealed (0, 1) →
     ∃ cells : gset coord,
       2 = Z.of_nat (size cells) ∧ ∀ v, v ∈ cells ↔ reachable sealed (0, 1) v).
Proof.
  apply (empty_path_counts_reachable bfs 10 sealed (0, 1) (2, 3)).
  vm_compute. reflexivity.
Defined.

(** X4. On a grid where the probes are guarded, with [start] an Open cell,
    the count returned by a search is at most the number of Open cells of
    the grid, and smaller than it when a path is returned: [end_] is never
    counted. *)
Theorem nodes_explored_at_most_open_cells alg fuel maze start end_ p n :
  guarded maze end_ = true → is_open maze start →
  search alg fuel maze start end_ = Some (Return p n) →
  n ≤ Z.of_nat (length (open_cells maze))
  ∧ (p ≠ [] → n < Z.of_nat (length (open_cells maze))).
Proof. apply search_count_open_cells. Qed.

(** The [bend] maze has six Open cells; the depth-first search explores
    five of them. *)
Lemma nodes_explored_at_most_open_cells_witness :
  5 ≤ Z.of_nat (length (open_cells bend))
  ∧ ([(0, 1); (1, 1); (1, 2); (1, 3); (2, 3); (3, 3)] ≠ []
     → 5 < Z.of_nat (length (open_cells bend))).
Proof.
  apply (nodes_explored_at_most_open_cells dfs 10 bend (0, 1) (3, 3)).
  - vm_compute. reflexivity.
  - reflexivity.
  - vm_compute. reflexivity.
Defined.

(** X5. The [heuristic] of A-star is never negative, is zero exactly at
    [end_], and never exceeds the number of moves of a path of adjacent
    coordinates from the node to [end_]. *)
Theorem heuristic_never_overestimates end_ node q :
  head q = Some node → last q = Some end_ → linked q →
  0 ≤ heuristic end_ node ≤ edges q ∧ (heuristic end_ node = 0 ↔ node = end_).
Proof.
  intros Hh Hl Hlk. split; [split|].
  - unfold heuristic. lia.
  - apply (heuristic_walk (λ _, True)), linked_walk; [done..| |done].
    by apply Forall_forall.
  - unfold heuristic. destruct node as [r c], end_ as [r' c']. simpl.
    split; [intros H; f_equal; lia|intros [= -> ->]; lia].
Qed.

(** From the entrance of the [bend] maze to its exit the estimate is 5,
    the number of moves of the only path. *)
Lemma heuristic_never_overestimates_witness :
  0 ≤ heuristic (3, 3) (0, 1) ≤ edges [(0, 1); (1, 1); (1, 2); (1, 3); (2, 3); (3, 3)]
  ∧ (heuristic (3, 3) (0, 1) = 0 ↔ (0, 1) = (3, 3)).
Proof.
  apply heuristic_never_overestimates.
  - reflexivity.
  - reflexivity.
  - simpl. unfold adjacent. simpl. repeat split; lia.
Defined.

(** X6. After any number of passes of [a_star_algorithm] every entry
    [(priority, cost, node, path)] of the heap has as its cost the number
    of moves of its path and as its priority the cost plus the heuristic
    of its node, and its path leads from [start] to its node. *)
Theorem heap_entries_keep_cost_and_priority maze start end_ k s f g node path :
  iter (a_star_body maze end_) k (a_star_init start end_) = Some s →
  (f, g, node, path) ∈ frontier s →
  g = Z.of_nat (length path) - 1 ∧ f = g + heuristic end_ node
  ∧ head path = Some start ∧ last path = Some node.
Proof.
  intros Hit Hin. destruct (a_star_inv_iter _ _ _ _ _ Hit) as (Hs & _ & _ & Hok).
  destruct (Hok _ Hin) as [Hg Hf].
  unfold cost, priority, entry_path, entry_node in Hg, Hf. simpl in Hg, Hf.
  assert (walk (code_open maze) start path node) as Hw.
  { apply (sound_frontier _ _ _ _ Hs). simpl.
    apply list_elem_of_fmap. by exists (f, g, node, path). }
  split; [exact Hg|]. split; [exact Hf|].
  split; [by eapply walk_head|by eapply walk_last].
Qed.

(** The heap of A-star after two passes in the corridor, and its entry
    for the exit. *)
Lemma heap_entries_keep_cost_and_priority_witness :
  2 = Z.of_nat (length [(0, 1); (1, 1); (2, 1)]) - 1
  ∧ 2 = 2 + heuristic (2, 1) (2, 1)
  ∧ head [(0, 1); (1, 1); (2, 1)] = Some (0, 1)
  ∧ last [(0, 1); (1, 1); (2, 1)] = Some (2, 1).
Proof.
  apply (heap_entries_keep_cost_and_priority corridor (0, 1) (2, 1) 2
           (SearchState [(4, 1, (-1, 1), [(0, 1); (-1, 1)]);
                         (4, 2, (0, 1), [(0, 1); (1, 1); (0, 1)]);
                         (2, 2, (2, 1), [(0, 1); (1, 1); (2, 1)])]
                        {[(1, 1); (0, 1)]} 2)).
  - vm_compute. reflexivity.
  - do 2 apply list_elem_of_further. apply list_elem_of_here.
Defined.

(** X7. After any number of passes of [bfs_algorithm] the paths in the
    queue are in the order of their length, and the last is at most one
    coordinate longer than the first. *)
Theorem queue_ordered_by_length maze start end_ k s i j e1 e2 :
  iter (bfs_body maze end_) k (bfs_init start) = Some s →
  (i ≤ j)%nat → frontier s !! i = Some e1 → frontier s !! j = Some e2 →
  (length e1.2 ≤ length e2.2 ≤ length e1.2 + 1)%nat.
Proof.
  intros Hit. destruct (bfs_inv_iter _ _ _ _ _ Hit) as (_ & _ & _ & Hq).
  by apply queue_levels_ordered.
Qed.

(** The queue after two passes in the corridor. *)
Lemma queue_ordered_by_length_witness :
  (length [(0, 1)%Z; (-1, 1)%Z] ≤ length [(0, 1)%Z; (1, 1)%Z; (2, 1)%Z]
   ≤ length [(0, 1)%Z; (-1, 1)%Z] + 1)%nat.
Proof.
  apply (queue_ordered_by_length corridor (0, 1) (2, 1) 2
           (SearchState [((-1, 1), [(0, 1); (-1, 1)]);
                         ((2, 1), [(0, 1); (1, 1); (2, 1)])]
                        {[(1, 1); (0, 1)]} 2)
           0 1 ((-1, 1), [(0, 1); (-1, 1)]) ((2, 1), [(0, 1); (1, 1); (2, 1)])).
  - vm_compute. reflexivity.
  - lia.
  - reflexivity.
  - reflexivity.
Defined.

(** X8. When [start] is not [end_] and the probe of one of the four
    neighbours of [start] raises, as it does for every [start] in the last
    row of the maze, each of the three searches is left by [IndexError] on
    its first pass. *)
Theorem probe_around_start_raises alg fuel maze start end_ :
  start ≠ end_ →
  (∃ nb, adjacent start nb ∧ is_dash maze nb = IndexError)
  ∨ start.1 = Z.of_nat (length maze) - 1 →
  search alg (S fuel) maze start end_ = Some Raise_IndexError.
Proof.
  intros Hne [(nb & Hadj & Hnb)|Hlast].
  - by eapply search_first_fault.
  - apply (search_first_fault alg fuel maze start end_ (start.1 + 1, start.2));
      [done| |].
    + right. simpl. split; [done|lia].
    + by apply is_dash_below_last_row.
Qed.

(** The corridor searched upwards, from its last row. *)
Lemma probe_around_start_raises_witness :
  search bfs 1 corridor (2, 1) (0, 1) = Some Raise_IndexError.
Proof.
  apply (probe_around_start_raises bfs 0 corridor (2, 1) (0, 1)).
  - discriminate.
  - right. reflexivity.
Defined.

(** X9. When a search is left by [IndexError], some coordinate other than
    [end_] that the code reached from [start] has a neighbour whose row
    subscript lies outside [-len(maze), len(maze)), or whose column
    subscript lies outside that range for the row it reads. *)
Theorem IndexError_comes_from_a_probe alg fuel maze start end_ :
  search alg fuel maze start end_ = Some Raise_IndexError →
  ∃ node q nb,
    walk (code_open maze) start q node ∧ node ≠ end_ ∧ adjacent node nb
    ∧ ((nb.1 < - Z.of_nat (length maze) ∨ Z.of_nat (length maze) ≤ nb.1)
       ∨ ∃ row, getitem maze nb.1 = Value row
                ∧ (nb.2 < - Z.of_nat (length row) ∨ Z.of_nat (length row) ≤ nb.2)).
Proof.
  intros Hrun.
  destruct (search_final alg _ _ _ _ _ _ (code_open_extends maze start end_) Hrun)
    as (s & e & Hs & _ & _ & _ & Hstep).
  apply gstep_Raise_inv in Hstep
    as (node & path & rest & nb & _ & Hperm & Hne & _ & Hadj & Hnb).
  exists node, path, nb. split.
  - apply (sound_frontier _ _ _ _ Hs). rewrite Hperm. apply list_elem_of_here.
  - split; [done|]. split; [done|]. by apply is_dash_IndexError_range.
Qed.

(** The depth-first search in the corridor. *)
Lemma IndexError_comes_from_a_probe_witness :
  ∃ node q nb,
    walk (code_open corridor) (0, 1) q node ∧ node ≠ (2, 1) ∧ adjacent node nb
    ∧ ((nb.1 < - Z.of_nat (length corridor) ∨ Z.of_nat (length corridor) ≤ nb.1)
       ∨ ∃ row, getitem corridor nb.1 = Value row
                ∧ (nb.2 < - Z.of_nat (length row) ∨ Z.of_nat (length row) ≤ nb.2)).
Proof.
  apply (IndexError_comes_from_a_probe dfs 4 corridor (0, 1) (2, 1)).
  vm_compute. reflexivity.
Defined.

(** * The properties of [solve_mazes.py] *)

(** X10. When [convert_to_list] returns a maze, every row of it holds at
    least one cell and every cell is ["#"] or ["-"]; the maze has one row
    for each line that is not blank, in the order of the lines, and the
    cells of the row spell the line without its spaces and without the
    whitespace at its two ends. *)
Theorem convert_to_list_rows maze_lines maze :
  convert_to_list maze_lines = Converted maze →
  well_formed maze
  ∧ spell <$> maze
    = (λ line, strip (replace_spaces line))
      <$> filter (λ line, blank line = false) maze_lines.
Proof.
  unfold convert_to_list. rewrite convert_lines_spec.
  destruct (decide _) as [HF|]; [|done]. intros [= <-]. simpl.
  rewrite Forall_forall in HF. split.
  - apply Forall_fmap, Forall_forall. intros line Hline.
    apply list_elem_of_filter in Hline as [Hb Hline]. simpl. split.
    + intros Hnil. apply fmap_nil_inv in Hnil. apply blank_strip in Hnil. congruence.
    + apply Forall_fmap, Forall_forall. intros c Hc. simpl.
      apply chr_cell. specialize (HF _ Hline). rewrite Forall_forall in HF. by apply HF.
  - rewrite <- list_fmap_compose. apply list_fmap_ext.
    intros i line Hline. simpl. apply spell_chr, HF.
    apply list_elem_of_lookup_2 in Hline. by apply list_elem_of_filter in Hline as [_ ?].
Qed.

(** The four lines of [corridor_text], one of them empty, give the three
    rows of the corridor. *)
Lemma convert_to_list_rows_witness :
  well_formed corridor
  ∧ spell <$> corridor
    = (λ line, strip (replace_spaces line))
      <$> filter (λ line, blank line = false) (read_file corridor_text).
Proof.
  apply (convert_to_list_rows (read_file corridor_text) corridor).
  vm_compute. reflexivity.
Defined.

(** X11. [convert_to_list] prints its message and calls [main()] exactly
    when some line, its spaces removed and the whitespace at its two ends
    stripped, holds a character other than ["#"] and ["-"].  So a
    character that is neither whitespace nor one of the two, anywhere in
    the file, has the maze rejected; and so has whitespace other than the
    space between two cells of a line. *)
Theorem convert_to_list_rejects maze_lines :
  (convert_to_list maze_lines = Restart ↔
   ∃ line c, line ∈ maze_lines ∧ c ∈ strip (replace_spaces line)
             ∧ c ≠ ord "#" ∧ c ≠ ord "-")
  ∧ (∀ line c, line ∈ maze_lines → c ∈ line → isspace c = false →
       c ≠ ord "#" → c ≠ ord "-" → convert_to_list maze_lines = Restart)
  ∧ (∀ line a c b, line ∈ maze_lines → line = a ++ [c] ++ b →
       c ≠ ord " " → isspace c = true →
       Exists (λ x, isspace x = false) a → Exists (λ x, isspace x = false) b →
       convert_to_list maze_lines = Restart).
Proof.
  split; [apply convert_to_list_Restart|]. split.
  - intros line c Hline Hc Hsp H1 H2. apply convert_to_list_Restart.
    exists line, c. split; [done|]. split; [|done].
    apply elem_of_strip; [|done]. apply list_elem_of_filter. split; [|done].
    intros ->. done.
  - intros line a c b Hline -> Hc Hsp Ha Hb. apply convert_to_list_Restart.
    exists (a ++ [c] ++ b), c. split; [done|].
    split; [by apply inner_whitespace_stays|].
    split; intros ->; by vm_compute in Hsp.
Qed.

(** X12. Blank lines count for nothing: [convert_to_list] gives the same
    result with and without them, and it returns the empty maze exactly
    when every line is blank. *)
Theorem blank_lines_are_ignored maze_lines :
  convert_to_list (filter (λ line, blank line = false) maze_lines)
  = convert_to_list maze_lines
  ∧ (convert_to_list maze_lines = Converted [] ↔
     Forall (λ line, blank line = true) maze_lines).
Proof.
  split; [|apply convert_to_list_empty].
  unfold convert_to_list. rewrite !convert_lines_spec, filter_idemp.
  destruct (decide (Forall _ maze_lines)) as [HF|HF].
  - rewrite decide_True; [done|]. rewrite Forall_forall in HF. apply Forall_forall.
    intros line Hline. apply HF. by apply list_elem_of_filter in Hline as [_ ?].
  - rewrite decide_False; [done|]. intros HF'. apply HF, Forall_forall.
    intros line Hline. destruct (blank line) eqn:Hb.
    + apply blank_strip in Hb. rewrite Hb. constructor.
    + rewrite Forall_forall in HF'. apply HF', list_elem_of_filter. done.
Qed.

(** X13. The maze of a file is the maze of its first lines followed by the
    maze of its last lines, wherever the file is cut; and the file is
    rejected when one of the two parts is. *)
Theorem convert_to_list_app lines1 lines2 :
  convert_to_list (lines1 ++ lines2) =
    match convert_to_list lines1, convert_to_list lines2 with
    | Converted maze1, Converted maze2 => Converted (maze1 ++ maze2)
    | _, _ => Restart
    end.
Proof.
  unfold convert_to_list. rewrite !convert_lines_spec.
  destruct (decide (Forall _ lines1)) as [H1|H1].
  - destruct (decide (Forall _ lines2)) as [H2|H2].
    + rewrite decide_True by (by apply Forall_app).
      simpl. by rewrite filter_app, fmap_app.
    + rewrite decide_False; [done|]. by intros [_ ?]%Forall_app.
  - rewrite decide_False; [done|]. by intros [? _]%Forall_app.
Qed.

(** X14. What [write_path_to_file] writes for a well-formed maze, read
    line by line: one line for each row; the line of row [i] has two
    characters for each cell and ends in a newline; the characters for
    cell [j] are ["@"] when [(i, j)] is in the path and the cell itself
    otherwise, followed by a space. *)
Theorem written_file_layout maze path i row :
  well_formed maze → maze !! i = Some row →
  length (read_file (write_path_to_file maze path)) = length maze
  ∧ ∃ line,
      read_file (write_path_to_file maze path) !! i = Some line
      ∧ length line = (2 * length row + 1)%nat
      ∧ line !! (2 * length row)%nat = Some newline
      ∧ ∀ j cell, row !! j = Some cell →
          line !! (2 * j)%nat
          = Some (if bool_decide ((Z.of_nat i, Z.of_nat j) ∈ path)
                  then ord "@" else ord cell)
          ∧ line !! (2 * j + 1)%nat = Some (ord " ").
Proof.
  intros Hwf Hrow. rewrite read_file_written by done.
  split; [apply length_rows_lines|].
  pose proof (Forall_lookup_1 _ _ _ _ Hwf Hrow) as [_ Hcells].
  rewrite rows_lines_lookup, Hrow, Z.add_0_l. eexists. split; [done|].
  rewrite (cells_text_marks _ _ _ _ Hcells).
  assert (length (mjoin ((λ m, [m; ord " "]) <$> marks path (Z.of_nat i) 0 row))
          = (2 * length row)%nat) as Hlen.
  { by rewrite length_interleave, length_marks. }
  split; [rewrite length_app, Hlen; simpl; lia|]. split.
  - rewrite lookup_app_r by lia. rewrite Hlen, Nat.sub_diag. done.
  - intros j cell Hj.
    assert (marks path (Z.of_nat i) 0 row !! j
            = Some (if bool_decide ((Z.of_nat i, Z.of_nat j) ∈ path)
                    then ord "@" else ord cell)) as Hm.
    { rewrite marks_lookup, Hj. done. }
    destruct (interleave_lookup (ord " ") _ _ _ Hm) as [H1 H2].
    apply lookup_lt_Some in Hj.
    rewrite !lookup_app_l by lia. done.
Qed.

(** The second line of the solution file of the corridor. *)
Lemma written_file_layout_witness :
  length (read_file (write_path_to_file corridor [(0, 1); (1, 1); (2, 1)]))
  = length corridor
  ∧ ∃ line,
      read_file (write_path_to_file corridor [(0, 1); (1, 1); (2, 1)]) !! 1%nat
      = Some line
      ∧ length line = (2 * length ["#"; "-"; "#"]%string + 1)%nat
      ∧ line !! (2 * length ["#"; "-"; "#"]%string)%nat = Some newline
      ∧ ∀ j cell, ["#"; "-"; "#"]%string !! j = Some cell →
          line !! (2 * j)%nat
          = Some (if bool_decide ((Z.of_nat 1, Z.of_nat j)
                                  ∈ [(0, 1); (1, 1); (2, 1)])
                  then ord "@" else ord cell)
          ∧ line !! (2 * j + 1)%nat = Some (ord " ").
Proof.
  apply (written_file_layout corridor [(0, 1); (1, 1); (2, 1)] 1
           ["#"; "-"; "#"]%string).
  - apply (bool_decide_eq_true_1 (well_formed corridor)). vm_compute. reflexivity.
  - reflexivity.
Defined.

(** X15. A well-formed maze written by [write_path_to_file] with a path
    that holds no coordinate of the grid (the empty path of an unsolved
    maze, say) is read back by [read_file] and [convert_to_list] as the
    same maze. *)
Theorem written_maze_reads_back maze path :
  well_formed maze → (∀ c, c ∈ path → c ∉ grid_coords maze) →
  convert_to_list (read_file (write_path_to_file maze path)) = Converted maze.
Proof. apply convert_read_written. Qed.

(** The [sealed] maze, written with the empty path that the searches
    return for it. *)
Lemma written_maze_reads_back_witness :
  convert_to_list (read_file (write_path_to_file sealed [])) = Converted sealed.
Proof.
  apply (written_maze_reads_back sealed []).
  - apply (bool_decide_eq_true_1 (well_formed sealed)). vm_compute. reflexivity.
  - intros c Hc. by apply elem_of_nil in Hc.
Defined.

(** X16. The solution file of a well-formed maze for which [solve_maze]
    returned a path is not a maze file: read back, it has
    [convert_to_list] print its message and call [main()], the entrance
    being marked ["@"].  When [solve_maze] returned the empty path, the
    solution file reads back as the maze. *)
Theorem solution_file_is_no_maze fuel maze algorithm p n :
  well_formed maze → solve_maze fuel maze algorithm = Some (Solved p n) →
  (p = [] → convert_to_list (read_file (write_path_to_file maze p)) = Converted maze)
  ∧ (p ≠ [] → convert_to_list (read_file (write_path_to_file maze p)) = Restart).
Proof.
  intros Hwf Hsolve. split.
  - intros ->. apply convert_read_written; [done|].
    intros c Hc. by apply elem_of_nil in Hc.
  - intros Hne.
    destruct (solve_maze_Solved _ _ _ _ _ Hsolve)
      as (alg & start & end_ & _ & Hs & _ & Hrun).
    pose proof (search_return_walk alg _ _ _ _ _ _ _
                  (code_open_extends maze start end_) Hrun Hne) as Hw.
    apply walk_head in Hw. destruct (maze_start_spec _ _ Hs) as (_ & Hopen & _).
    apply (written_solution_rejected maze p start); [done| |].
    + destruct p as [|c p]; [done|]. injection Hw as ->. apply list_elem_of_here.
    + apply elem_of_grid_coords. unfold is_open in Hopen. rewrite Hopen. eauto.
Qed.

(** The [bend] maze solved by A-star. *)
Lemma solution_file_is_no_maze_witness :
  ([(0, 1); (1, 1); (1, 2); (1, 3); (2, 3); (3, 3)] = [] →
   convert_to_list
     (read_file (write_path_to_file bend
                   [(0, 1); (1, 1); (1, 2); (1, 3); (2, 3); (3, 3)]))
   = Converted bend)
  ∧ ([(0, 1); (1, 1); (1, 2); (1, 3); (2, 3); (3, 3)] ≠ [] →
     convert_to_list
       (read_file (write_path_to_file bend
                     [(0, 1); (1, 1); (1, 2); (1, 3); (2, 3); (3, 3)]))
     = Restart).
Proof.
  apply (solution_file_is_no_maze 10 bend "astar" _ 5).
  - apply (bool_decide_eq_true_1 (well_formed bend)). vm_compute. reflexivity.
  - vm_compute. reflexivity.
Defined.

(** X17. In the solution file of a well-formed maze there are at most as
    many ["@"] as the path has coordinates, and exactly as many when the
    path holds no coordinate twice and only coordinates of the grid; this
    is so for the path that a search returns on a grid where the probes
    are guarded, from an Open [start]. *)
Theorem marks_written_count maze path :
  well_formed maze →
  (occurrences (ord "@") (write_path_to_file maze path) ≤ length path)%nat
  ∧ (NoDup path → (∀ p, p ∈ path → p ∈ grid_coords maze) →
     occurrences (ord "@") (write_path_to_file maze path) = length path)
  ∧ (∀ alg fuel start end_ n,
       guarded maze end_ = true → is_open maze start →
       search alg fuel maze start end_ = Some (Return path n) →
       occurrences (ord "@") (write_path_to_file maze path) = length path).
Proof.
  intros Hwf. split; [by apply marks_at_most_path|].
  split; [by apply marks_equal_path|].
  intros alg fuel start end_ n Hg Hs Hrun.
  apply marks_equal_path; [done|by eapply search_return_simple|].
  destruct path as [|c path]; [by intros p ?%elem_of_nil|].
  pose proof (search_return_walk alg _ _ _ _ _ _ _
                (guarded_extends _ _ _ Hg Hs) Hrun ltac:(done)) as Hw.
  apply (walk_Forall _ _ _ _ Hs) in Hw. rewrite Forall_forall in Hw.
  intros p Hp. apply elem_of_grid_coords.
  specialize (Hw _ Hp). unfold is_open in Hw. rewrite Hw. eauto.
Qed.

(** In [walled_off] the path that the searches return has seven
    coordinates, three of them in column -1: four marks are written. *)
Lemma marks_written_count_witness :
  occurrences (ord "@")
    (write_path_to_file walled_off
       [(0, 0); (0, -1); (1, -1); (2, -1); (2, 0); (2, 1); (3, 1)]) = 4%nat
  ∧ (occurrences (ord "@")
       (write_path_to_file walled_off
          [(0, 0); (0, -1); (1, -1); (2, -1); (2, 0); (2, 1); (3, 1)]%Z)
     ≤ length [(0, 0); (0, -1); (1, -1); (2, -1); (2, 0); (2, 1); (3, 1)]%Z)%nat.
Proof.
  split; [vm_compute; reflexivity|].
  refine (proj1 (marks_written_count walled_off
                   [(0, 0); (0, -1); (1, -1); (2, -1); (2, 0); (2, 1); (3, 1)] _)).
  apply (bool_decide_eq_true_1 (well_formed walled_off)). vm_compute. reflexivity.
Defined.

(** X18. The exceptions of [solve_maze].  On the empty maze [maze[0]]
    raises [IndexError].  [ValueError] is raised exactly when the first
    row or the last row holds no ["-"].  [UnboundLocalError] is raised
    exactly when both rows hold one and [algorithm] is none of ["dfs"],
    ["astar"] and ["bfs"].  And [IndexError] is raised exactly on the
    empty maze and when the search that is called is left by it. *)
Theorem solve_maze_exceptions fuel maze algorithm :
  (maze = [] → solve_maze fuel maze algorithm = Some (Raised Index_Error))
  ∧ (solve_maze fuel maze algorithm = Some (Raised Value_Error) ↔
     ∃ row, (head maze = Some row ∨ last maze = Some row) ∧ "-"%string ∉ row)
  ∧ (solve_maze fuel maze algorithm = Some (Raised Unbound_Local_Error) ↔
     is_Some (maze_start maze) ∧ is_Some (maze_end maze)
     ∧ algorithm ∉ ["dfs"; "astar"; "bfs"]%string)
  ∧ (solve_maze fuel maze algorithm = Some (Raised Index_Error) ↔
     maze = []
     ∨ ∃ alg start end_,
         algorithm = algorithm_name alg ∧ maze_start maze = Some start
         ∧ maze_end maze = Some end_
         ∧ search alg fuel maze start end_ = Some Raise_IndexError).
Proof.
  rewrite solve_maze_spec. destruct maze as [|row maze].
  { split; [done|]. split; [|split].
    - split; [done|]. by intros (r & [?|?] & _).
    - split; [done|]. by intros ([? ?] & _).
    - split; [by left|done]. }
  split; [done|].
  destruct (maze_start (row :: maze)) as [start|] eqn:Hs.
  - destruct (maze_end (row :: maze)) as [end_|] eqn:He.
    + assert (¬ ∃ r, (head (row :: maze) = Some r ∨ last (row :: maze) = Some r)
                     ∧ "-"%string ∉ r) as Hno.
      { intros (r & [Hr|Hr] & Hd).
        - assert (maze_start (row :: maze) = None); [|congruence].
          apply maze_start_None. right. by exists r.
        - assert (maze_end (row :: maze) = None); [|congruence].
          apply maze_end_None. right. by exists r. }
      destruct (String.eqb_spec algorithm "dfs") as [->|H1].
      { split; [|split].
        - rewrite result_of_Raised. split; [by intros [? _]|by intros ?%Hno].
        - rewrite result_of_Raised. split; [by intros [? _]|].
          intros (_ & _ & Hn). destruct Hn. apply algorithm_name_inv. by exists dfs.
        - rewrite result_of_Raised. split.
          + intros [_ H]. right. by exists dfs, start, end_.
          + intros [?|(alg & s & e & Ha & [= <-] & [= <-] & H)]; [done|].
            destruct alg; try done. }
      destruct (String.eqb_spec algorithm "astar") as [->|H2].
      { split; [|split].
        - rewrite result_of_Raised. split; [by intros [? _]|by intros ?%Hno].
        - rewrite result_of_Raised. split; [by intros [? _]|].
          intros (_ & _ & Hn). destruct Hn. apply algorithm_name_inv. by exists astar.
        - rewrite result_of_Raised. split.
          + intros [_ H]. right. by exists astar, start, end_.
          + intros [?|(alg & s & e & Ha & [= <-] & [= <-] & H)]; [done|].
            destruct alg; try done. }
      destruct (String.eqb_spec algorithm "bfs") as [->|H3].
      { split; [|split].
        - rewrite result_of_Raised. split; [by intros [? _]|by intros ?%Hno].
        - rewrite result_of_Raised. split; [by intros [? _]|].
          intros (_ & _ & Hn). destruct Hn. apply algorithm_name_inv. by exists bfs.
        - rewrite result_of_Raised. split.
          + intros [_ H]. right. by exists bfs, start, end_.
          + intros [?|(alg & s & e & Ha & [= <-] & [= <-] & H)]; [done|].
            destruct alg; try done. }
      split; [|split].
      * split; [done|by intros ?%Hno].
      * split; [|done]. intros _. split; [by eexists|]. split; [by eexists|].
        rewrite algorithm_name_inv. intros [[] ->]; done.
      * split; [done|]. intros [?|(alg & s & e & -> & _)]; [done|].
        destruct alg; done.
    + apply maze_end_None in He as [?|(r & Hr & Hd)]; [done|].
      split; [|split].
      * split; [|done]. intros _. exists r. split; [by right|done].
      * split; [done|]. by intros (_ & [? ?] & _).
      * split; [done|]. by intros [?|(? & ? & ? & _ & _ & ? & _)].
  - apply maze_start_None in Hs as [?|(r & Hr & Hd)]; [done|].
    split; [|split].
    + split; [|done]. intros _. exists r. split; [by left|done].
    + split; [done|]. by intros ([? ?] & _).
    + split; [done|]. by intros [?|(? & ? & ? & _ & ? & _)].
Qed.

(** X19. A maze of a single row with a ["-"] in it is solved at once, by
    each of the three searches: entrance and exit are the same cell, the
    path is that cell and no node is explored. *)
Theorem one_row_maze alg fuel row col :
  index_dash row = Some col →
  solve_maze (S fuel) [row] (algorithm_name alg) = Some (Solved [(0, col)] 0).
Proof.
  intros Hcol.
  rewrite (solve_maze_search _ _ alg (0, col) (0, col)).
  - by rewrite search_start_is_end.
  - unfold maze_start. simpl. by rewrite Hcol.
  - unfold maze_end. simpl. by rewrite Hcol.
Qed.

Lemma one_row_maze_witness :
  solve_maze 1 [["#"; "#"; "-"; "-"]%string] "astar" = Some (Solved [(0, 2)] 0).
Proof. apply (one_row_maze astar 0 ["#"; "#"; "-"; "-"]%string 2). reflexivity. Defined.

(** X20. On a maze of two rows or more whose entrance, the first ["-"] of
    the first row, is the last cell of that row, [solve_maze] raises
    [IndexError] with each of the three searches: the probe to the right
    of the entrance is out of range. *)
Theorem entrance_in_last_column_raises alg fuel maze first_row end_ :
  head maze = Some first_row → (2 ≤ length maze)%nat →
  index_dash first_row = Some (Z.of_nat (length first_row) - 1) →
  maze_end maze = Some end_ →
  solve_maze (S fuel) maze (algorithm_name alg) = Some (Raised Index_Error).
Proof.
  intros Hhead Hlen Hcol Hend.
  rewrite (solve_maze_search _ _ alg (0, Z.of_nat (length first_row) - 1) end_);
    [|by unfold maze_start; rewrite Hhead; simpl; rewrite Hcol|done].
  rewrite (search_first_fault alg fuel maze _ end_ (0, Z.of_nat (length first_row)));
    [done| | |].
  - destruct (maze_end_spec _ _ Hend) as (Hrow & _). intros <-. simpl in Hrow. lia.
  - left. simpl. split; [done|lia].
  - unfold is_dash. simpl. rewrite getitem_first, Hhead. simpl.
    assert (getitem first_row (Z.of_nat (length first_row)) = IndexError) as ->; [|done].
    apply getitem_IndexError. lia.
Qed.

Lemma entrance_in_last_column_raises_witness :
  solve_maze 1 [["#"; "-"]; ["-"; "#"]]%string "bfs" = Some (Raised Index_Error).
Proof.
  apply (entrance_in_last_column_raises bfs 0 [["#"; "-"]; ["-"; "#"]]%string
           ["#"; "-"]%string (1, 0)).
  - reflexivity.
  - simpl. lia.
  - reflexivity.
  - reflexivity.
Defined.

(** X21. On a maze with a ["-"] in its first and in its last row and with
    guarded probes, [solve_maze] returns, with each of the three
    searches: no exception escapes, the path is empty exactly when the
    exit cannot be reached from the entrance through Open cells, a path
    that is not empty is a valid path from the entrance to the exit, and
    the number of nodes explored lies between 0 and the number of Open
    cells. *)
Theorem solve_maze_guarded alg maze start end_ :
  maze_start maze = Some start → maze_end maze = Some end_ →
  guarded maze end_ = true →
  ∃ p n,
    (∀ fuel, (enough_fuel maze start ≤ fuel)%nat →
       solve_maze fuel maze (algorithm_name alg) = Some (Solved p n))
    ∧ (p = [] ↔ ¬ reachable maze start end_)
    ∧ (p ≠ [] → valid_path maze start end_ p)
    ∧ 0 ≤ n ≤ Z.of_nat (length (open_cells maze)).
Proof. apply solve_maze_guarded_result. Qed.

Lemma solve_maze_guarded_witness :
  ∃ p n,
    (∀ fuel, (enough_fuel bend (0, 1)%Z ≤ fuel)%nat →
       solve_maze fuel bend (algorithm_name dfs) = Some (Solved p n))
    ∧ (p = [] ↔ ¬ reachable bend (0, 1) (3, 3))
    ∧ (p ≠ [] → valid_path bend (0, 1) (3, 3) p)
    ∧ 0 ≤ n ≤ Z.of_nat (length (open_cells bend)).
Proof.
  apply (solve_maze_guarded dfs bend (0, 1) (3, 3)).
  - reflexivity.
  - reflexivity.
  - vm_compute. reflexivity.
Defined.

(** X22. A path that [solve_maze] returns starts at the leftmost Open cell
    of the first row of the maze and ends at the leftmost Open cell of its
    last row, whatever lies between. *)
Theorem solve_maze_endpoints fuel maze algorithm p n :
  solve_maze fuel maze algorithm = Some (Solved p n) → p ≠ [] →
  ∃ start end_,
    head p = Some start ∧ last p = Some end_
    ∧ start.1 = 0 ∧ end_.1 = Z.of_nat (length maze) - 1
    ∧ is_open maze start ∧ is_open maze end_
    ∧ (∀ c, 0 ≤ c < start.2 → ¬ is_open maze (0, c))
    ∧ (∀ c, 0 ≤ c < end_.2 → ¬ is_open maze (end_.1, c)).
Proof.
  intros Hsolve Hne.
  destruct (solve_maze_Solved _ _ _ _ _ Hsolve)
    as (alg & start & end_ & _ & Hs & He & Hrun).
  pose proof (search_return_walk alg _ _ _ _ _ _ _
                (code_open_extends maze start end_) Hrun Hne) as Hw.
  destruct (maze_start_spec _ _ Hs) as (Hs1 & Hs2 & Hs3).
  destruct (maze_end_spec _ _ He) as (He1 & He2 & He3).
  exists start, end_. split; [by eapply walk_head|]. split; [by eapply walk_last|].
  done.
Qed.

(** The path through column -1 that the breadth-first search returns in
    [walled_off]. *)
Lemma solve_maze_endpoints_witness :
  ∃ start end_,
    head [(0, 0); (0, -1); (1, -1); (2, -1); (2, 0); (2, 1); (3, 1)] = Some start
    ∧ last [(0, 0); (0, -1); (1, -1); (2, -1); (2, 0); (2, 1); (3, 1)] = Some end_
    ∧ start.1 = 0 ∧ end_.1 = Z.of_nat (length walled_off) - 1
    ∧ is_open walled_off start ∧ is_open walled_off end_
    ∧ (∀ c, 0 ≤ c < start.2 → ¬ is_open walled_off (0, c))
    ∧ (∀ c, 0 ≤ c < end_.2 → ¬ is_open walled_off (end_.1, c)).
Proof.
  apply (solve_maze_endpoints 20 walled_off "bfs" _ 6).
  - vm_compute. reflexivity.
  - done.
Defined.

(** X23. A maze with a solid border is solved: when the maze has at least
    two rows, all of one length, when none of its Open cells lies in the
    first or in the last column, when the entrance is the only Open cell
    of the first row and the exit the only one of the last row, and when
    entrance and exit lie in different columns, then the probes are
    guarded, and [solve_maze] returns with each of the three searches a
    valid path from the entrance to the exit, or the empty path when
    there is none. *)
Theorem bordered_maze_is_solved alg maze start end_ :
  maze_start maze = Some start → maze_end maze = Some end_ →
  bordered maze start end_ = true →
  guarded maze end_ = true
  ∧ ∃ p n,
      (∀ fuel, (enough_fuel maze start ≤ fuel)%nat →
         solve_maze fuel maze (algorithm_name alg) = Some (Solved p n))
      ∧ (p = [] ↔ ¬ reachable maze start end_)
      ∧ (p ≠ [] → valid_path maze start end_ p).
Proof.
  intros Hs He Hb. pose proof (bordered_guarded _ _ _ Hb) as Hg.
  split; [exact Hg|].
  destruct (solve_maze_guarded_result alg maze start end_ Hs He Hg)
    as (p & n & Hrun & Hiff & Hvalid & _).
  by exists p, n.
Qed.

(** The [bend] maze has a solid border; the corridor has not, its entrance
    and its exit lying in one column. *)
Lemma bordered_maze_is_solved_witness :
  bordered corridor (0, 1) (2, 1) = false
  ∧ guarded bend (3, 3) = true
  ∧ ∃ p n,
      (∀ fuel, (enough_fuel bend (0, 1)%Z ≤ fuel)%nat →
         solve_maze fuel bend (algorithm_name bfs) = Some (Solved p n))
      ∧ (p = [] ↔ ¬ reachable bend (0, 1) (3, 3))
      ∧ (p ≠ [] → valid_path bend (0, 1) (3, 3) p).
Proof.
  split; [vm_compute; reflexivity|].
  apply (bordered_maze_is_solved bfs bend (0, 1) (3, 3)).
  - reflexivity.
  - reflexivity.
  - vm_compute. reflexivity.
Defined.
